(** * The PMCFG exchange format: reader and writer

    A shallow embedding of [pmcfg.py]: the sequence tokenizer, the rule and
    linearization parsers, the grammar assembler [read_grammar] with its
    deferred validation sweep, and the serializer [write_grammar].

    Text is modelled by Rocq's [string]: a character is a code point
    below 256, classified the way Python 3 classifies it.  Python integers
    are [Z].  A Python [dict] is an association list in insertion order.
    Exceptions are values of [exn]; a computation that may raise returns a
    [result]. *)

From Stdlib Require Import String Ascii List ZArith NArith Bool Lia.
From Stdlib Require Import DecimalString DecimalPos SpecFloat.
Import ListNotations.

Local Open Scope list_scope.
Local Open Scope Z_scope.

Infix "+++" := String.append (right associativity, at level 60).

(* ================================================================= *)
(** * Exceptions and results *)

(** The exception classes the program can raise.  [OutsideModel] is not a
    Python exception: it marks the few inputs whose behaviour depends on
    characters above U+00FF (the escapes backslash-u, backslash-U,
    backslash-N and octal escapes above 377 inside a quoted literal).  It
    is also what the loop of the tokenizer answers should its fuel run
    out, which it never does (lemma [read_sequence_run]). *)
Inductive exn_kind : Type :=
| SyntaxError | ValueError | TypeError | KeyError | IndexError | NameError
| OutsideModel.

Record exn : Type := mkExn { kind : exn_kind; message : string }.

Inductive result (A : Type) : Type :=
| Ok (a : A)
| Raise (e : exn).
Arguments Ok {A} a.
Arguments Raise {A} e.

Definition bind {A B : Type} (c : result A) (k : A -> result B) : result B :=
  match c with
  | Ok a => k a
  | Raise e => Raise e
  end.

Notation "x <- c ;; k" := (bind c (fun x => k))
  (at level 61, c at next level, right associativity).
Notation "' p <- c ;; k" := (bind c (fun x => let 'p := x in k))
  (at level 61, p pattern, c at next level, right associativity).

Definition raise {A : Type} (k : exn_kind) (msg : string) : result A :=
  Raise (mkExn k msg).

(* ================================================================= *)
(** * Python's text primitives *)

Module Py.

Definition code (c : ascii) : N := N_of_ascii c.

Definition in_range (lo hi : N) (c : ascii) : bool :=
  (N.leb lo (code c) && N.leb (code c) hi)%bool.

Definition chr (n : N) : ascii := ascii_of_N n.

Definition backslash : ascii := chr 92.
Definition dquote : ascii := chr 34.
Definition squote : ascii := chr 39.
Definition LF : ascii := chr 10.
Definition CR : ascii := chr 13.
Definition NUL : ascii := chr 0.

Definition str1 (c : ascii) : string := String c EmptyString.

(** [c.isspace()], also the class backslash-s of [re]: TAB..CR, FS..US,
    space, NEL and NBSP. *)
Definition isspace (c : ascii) : bool :=
  (in_range 9 13 c || in_range 28 32 c || N.eqb (code c) 133
   || N.eqb (code c) 160)%bool.

(** The class backslash-d of [re] and [str.isdecimal]: only 0..9 below
    U+0100. *)
Definition isdecimal (c : ascii) : bool := in_range 48 57 c.

(** [c.isalnum()] on the code points below 256. *)
Definition isalnum (c : ascii) : bool :=
  (in_range 48 57 c || in_range 65 90 c || in_range 97 122 c
   || N.eqb (code c) 170 || in_range 178 179 c || N.eqb (code c) 181
   || in_range 185 186 c || in_range 188 190 c || in_range 192 214 c
   || in_range 216 246 c || in_range 248 255 c)%bool.

(** [c.isprintable()], which decides what [repr] escapes. *)
Definition isprintable (c : ascii) : bool :=
  negb (in_range 0 31 c || in_range 127 160 c || N.eqb (code c) 173).

(** [s.isspace()]: every character is white space and there is at least
    one. *)
Fixpoint all_space (s : string) : bool :=
  match s with
  | EmptyString => true
  | String c s' => (isspace c && all_space s')%bool
  end.

Definition str_isspace (s : string) : bool :=
  match s with
  | EmptyString => false
  | _ => all_space s
  end.

Definition len (s : string) : Z := Z.of_nat (String.length s).

(** [c in s] for a one-character [c]. *)
Fixpoint char_in (c : ascii) (s : string) : bool :=
  match s with
  | EmptyString => false
  | String d s' => (Ascii.eqb c d || char_in c s')%bool
  end.

(** [s.lstrip()], [s.rstrip()], [s.strip()]. *)
Fixpoint lstrip (s : string) : string :=
  match s with
  | EmptyString => EmptyString
  | String c s' => if isspace c then lstrip s' else s
  end.

Fixpoint rstrip (s : string) : string :=
  match s with
  | EmptyString => EmptyString
  | String c s' =>
      match rstrip s' with
      | EmptyString => if isspace c then EmptyString else str1 c
      | r => String c r
      end
  end.

Definition strip (s : string) : string := rstrip (lstrip s).

(** [s.split(None, maxsplit)]: words separated by runs of white space.
    [k] counts the splits still allowed ([None]: no limit) and [w] holds
    the word being read, if any; once [k] is used up the rest of the
    string, leading white space dropped, is the last piece, trailing white
    space included. *)
Definition dec (k : option nat) : option nat :=
  match k with
  | Some n => Some (Nat.pred n)
  | None => None
  end.

Fixpoint split_go (k : option nat) (w : option (string -> string))
  (s : string) : list string :=
  match s with
  | EmptyString =>
      match w with
      | Some f => [f EmptyString]
      | None => []
      end
  | String c s' =>
      match w with
      | Some f =>
          if isspace c then f EmptyString :: split_go (dec k) None s'
          else split_go k (Some (fun r => f (String c r))) s'
      | None =>
          if isspace c then split_go k None s'
          else
            match k with
            | Some O => [s]
            | _ => split_go k (Some (String c)) s'
            end
      end
  end.

(** The first word of a text, up to its first white-space character, and
    what follows that word. *)
Fixpoint word (s : string) : string :=
  match s with
  | EmptyString => EmptyString
  | String c s' => if isspace c then EmptyString else String c (word s')
  end.

Fixpoint after_word (s : string) : string :=
  match s with
  | EmptyString => EmptyString
  | String c s' => if isspace c then s else after_word s'
  end.

Definition split (s : string) (maxsplit : Z) : list string :=
  split_go (if maxsplit <? 0 then None else Some (Z.to_nat maxsplit)) None s.

(** [sep.join(l)]. *)
Fixpoint join (sep : string) (l : list string) : string :=
  match l with
  | [] => EmptyString
  | [x] => x
  | x :: rest => x +++ sep +++ join sep rest
  end.

(** [str(n)] and the conversion percent-s of an integer. *)
Definition str_int (n : Z) : string := NilZero.string_of_int (Z.to_int n).

(** Two lower-case hexadecimal digits, as [repr] writes an escaped
    character. *)
Definition hex_digit (n : N) : ascii :=
  if N.ltb n 10 then chr (48 + n) else chr (87 + n).

Definition hex2 (c : ascii) : string :=
  String (hex_digit (N.div (code c) 16))
         (String (hex_digit (N.modulo (code c) 16)) EmptyString).

(** [repr(s)], the conversion percent-r of a string.  The quote is the
    single quote unless the string holds one and no double quote. *)
Definition repr_quote (s : string) : ascii :=
  if (char_in squote s && negb (char_in dquote s))%bool then dquote else squote.

Definition repr_char (q c : ascii) : string :=
  if (Ascii.eqb c q || Ascii.eqb c backslash)%bool then String backslash (str1 c)
  else if N.eqb (code c) 9 then String backslash "t"
  else if N.eqb (code c) 10 then String backslash "n"
  else if N.eqb (code c) 13 then String backslash "r"
  else if isprintable c then str1 c
  else String backslash (String "x" (hex2 c)).

Fixpoint repr_body (q : ascii) (s : string) : string :=
  match s with
  | EmptyString => EmptyString
  | String c s' => repr_char q c +++ repr_body q s'
  end.

Definition repr (s : string) : string :=
  let q := repr_quote s in
  String q (repr_body q s +++ str1 q).

(** [int(s)] in base 10: surrounding white space, an optional sign, then
    digits in which single underscores may separate digits.  [None] stands
    for the [ValueError] Python raises.  Integers are unbounded; the limit
    an interpreter may put on the number of digits is not modelled. *)
Fixpoint digitpart (acc : Z) (after_digit : bool) (s : string) : option Z :=
  match s with
  | EmptyString => if after_digit then Some acc else None
  | String c s' =>
      if isdecimal c then digitpart (10 * acc + (Z.of_N (code c) - 48)) true s'
      else if (Ascii.eqb c "_" && after_digit)%bool then digitpart acc false s'
      else None
  end.

Definition int (s : string) : option Z :=
  match strip s with
  | String "+" r => digitpart 0 false r
  | String "-" r => option_map Z.opp (digitpart 0 false r)
  | r => digitpart 0 false r
  end.

(** ** [eval] of a quoted string literal

    [read_sequence] hands [eval] one token matched by [SEQ_REGEXP]: a
    quote, a body in which every backslash is followed by a character, and
    the same quote.  Python first rejects a NUL anywhere in the source,
    then reads CR LF and CR as LF, then tokenizes (an LF that no backslash
    continues ends the line inside the literal), then decodes the escapes
    from left to right.  The warning Python gives for an unknown escape is
    not modelled. *)
Fixpoint translate_newlines (s : string) : string :=
  match s with
  | EmptyString => EmptyString
  | String c s' =>
      if Ascii.eqb c CR then
        match s' with
        | String d s'' =>
            if Ascii.eqb d LF then String LF (translate_newlines s'')
            else String LF (translate_newlines s')
        | EmptyString => str1 LF
        end
      else String c (translate_newlines s')
  end.

(** The line on which the literal breaks off, if it does. *)
Fixpoint unterminated_line (line : Z) (body : string) : option Z :=
  match body with
  | EmptyString => None
  | String c s' =>
      if Ascii.eqb c backslash then
        match s' with
        | EmptyString => Some line
        | String d s'' =>
            unterminated_line (if Ascii.eqb d LF then line + 1 else line) s''
        end
      else if Ascii.eqb c LF then Some line
      else unterminated_line line s'
  end.

Definition octal_value (c : ascii) : option N :=
  if in_range 48 55 c then Some (code c - 48)%N else None.

Definition hex_value (c : ascii) : option N :=
  if in_range 48 57 c then Some (code c - 48)%N
  else if in_range 97 102 c then Some (code c - 87)%N
  else if in_range 65 70 c then Some (code c - 55)%N
  else None.

(** The decoder numbers the bytes of its input: a character below 128 is
    one byte, any other was rewritten as a ten-byte escape beforehand. *)
Definition width (c : ascii) : Z := if N.ltb (code c) 128 then 1 else 10.

Definition truncated_x (first last : Z) : exn :=
  mkExn SyntaxError
    ("(unicode error) 'unicodeescape' codec can't decode bytes in position "
     +++ str_int first +++ "-" +++ str_int last +++ ": truncated "
     +++ String backslash "xXX escape").

Fixpoint decode_escapes (pos : Z) (body : string) : result string :=
  match body with
  | EmptyString => Ok EmptyString
  | String c s' =>
      if negb (Ascii.eqb c backslash) then
        r <- decode_escapes (pos + width c) s' ;; Ok (String c r)
      else
        match s' with
        | EmptyString => Ok (str1 backslash)
        | String e s2 =>
            let simple (v : N) :=
              r <- decode_escapes (pos + 2) s2 ;; Ok (String (chr v) r) in
            if Ascii.eqb e LF then decode_escapes (pos + 2) s2
            else if (Ascii.eqb e backslash || Ascii.eqb e squote
                     || Ascii.eqb e dquote)%bool then simple (code e)
            else if Ascii.eqb e "a" then simple 7%N
            else if Ascii.eqb e "b" then simple 8%N
            else if Ascii.eqb e "f" then simple 12%N
            else if Ascii.eqb e "n" then simple 10%N
            else if Ascii.eqb e "r" then simple 13%N
            else if Ascii.eqb e "t" then simple 9%N
            else if Ascii.eqb e "v" then simple 11%N
            else if Ascii.eqb e "x" then
              match s2 with
              | String h1 s3 =>
                  match hex_value h1 with
                  | None => Raise (truncated_x pos (pos + 1))
                  | Some v1 =>
                      match s3 with
                      | String h2 s4 =>
                          match hex_value h2 with
                          | None => Raise (truncated_x pos (pos + 2))
                          | Some v2 =>
                              r <- decode_escapes (pos + 4) s4 ;;
                              Ok (String (chr (16 * v1 + v2)) r)
                          end
                      | EmptyString => Raise (truncated_x pos (pos + 2))
                      end
                  end
              | EmptyString => Raise (truncated_x pos (pos + 1))
              end
            else if (Ascii.eqb e "u" || Ascii.eqb e "U" || Ascii.eqb e "N")%bool
            then raise OutsideModel "escape naming a Unicode character"
            else
              match octal_value e with
              | None =>
                  r <- decode_escapes (pos + 1 + width e) s2 ;;
                  Ok (String backslash (String e r))
              | Some v1 =>
                  match s2 with
                  | String o2 s3 =>
                      match octal_value o2 with
                      | None => simple v1
                      | Some v2 =>
                          match s3 with
                          | String o3 s4 =>
                              match octal_value o3 with
                              | None =>
                                  r <- decode_escapes (pos + 3) s3 ;;
                                  Ok (String (chr (8 * v1 + v2)) r)
                              | Some v3 =>
                                  let v := (64 * v1 + 8 * v2 + v3)%N in
                                  if N.ltb v 256 then
                                    r <- decode_escapes (pos + 4) s4 ;;
                                    Ok (String (chr v) r)
                                  else
                                    raise OutsideModel
                                      "octal escape above 377"
                              end
                          | EmptyString =>
                              Ok (str1 (chr (8 * v1 + v2)))
                          end
                      end
                  | EmptyString => Ok (str1 (chr v1))
                  end
              end
        end
  end.

Fixpoint drop_last (s : string) : string :=
  match s with
  | EmptyString => EmptyString
  | String c EmptyString => EmptyString
  | String c s' => String c (drop_last s')
  end.

Definition eval (tok : string) : result string :=
  if char_in NUL tok then
    raise ValueError "source code string cannot contain null bytes"
  else
    match translate_newlines tok with
    | EmptyString => raise SyntaxError "invalid syntax"
    | String q s =>
        let body := drop_last s in
        match unterminated_line 1 body with
        | Some n =>
            raise SyntaxError
              ("unterminated string literal (detected at line "
               +++ str_int n +++ ")")
        | None => decode_escapes 0 body
        end
    end.

End Py.

(* ================================================================= *)
(** * Python dictionaries

    A [dict] keeps its items in insertion order; assigning to a key that
    is present keeps the key where it is. *)

Class Key (K : Type) : Type := {
  key_eqb : K -> K -> bool;
  key_eqb_eq : forall a b : K, key_eqb a b = true <-> a = b
}.

#[export] Instance string_Key : Key string :=
  {| key_eqb := String.eqb; key_eqb_eq := String.eqb_eq |}.

#[export] Instance Z_Key : Key Z :=
  {| key_eqb := Z.eqb; key_eqb_eq := Z.eqb_eq |}.

Definition option_string_eqb (a b : option string) : bool :=
  match a, b with
  | None, None => true
  | Some x, Some y => String.eqb x y
  | _, _ => false
  end.

Definition option_string_eqb_eq (a b : option string) :
  option_string_eqb a b = true <-> a = b.
Proof.
  destruct a as [x|], b as [y|]; simpl; try (split; congruence).
  rewrite String.eqb_eq. split; congruence.
Qed.

#[export] Instance option_string_Key : Key (option string) :=
  {| key_eqb := option_string_eqb; key_eqb_eq := option_string_eqb_eq |}.

Module Dict.
Section Ops.
Context {K V : Type} `{Key K}.

Definition t : Type := list (K * V).

(** [d.get(k)]; [None] when the key is absent. *)
Fixpoint get (d : t) (k : K) : option V :=
  match d with
  | [] => None
  | (k', v) :: d' => if key_eqb k k' then Some v else get d' k
  end.

(** [k in d]. *)
Definition mem (k : K) (d : t) : bool :=
  match get d k with
  | Some _ => true
  | None => false
  end.

(** [d[k] = v]. *)
Fixpoint set (d : t) (k : K) (v : V) : t :=
  match d with
  | [] => [(k, v)]
  | (k', v') :: d' =>
      if key_eqb k k' then (k', v) :: d' else (k', v') :: set d' k v
  end.

(** [d.setdefault(k, v)], for its effect on [d]. *)
Definition setdefault (d : t) (k : K) (v : V) : t :=
  if mem k d then d else d ++ [(k, v)].

Definition keys (d : t) : list K := map fst d.

End Ops.
Arguments t K V : clear implicits.
End Dict.


(* ================================================================= *)
(** * Python floats

    A Python float is an IEEE 754 binary64 number, here a [spec_float] of
    the standard library with precision 53.  [float(s)] is the number
    nearest to the decimal the text denotes, and [str(x)] the shortest
    decimal that reads back as [x]. *)

Module Binary64.

Definition prec : Z := 53.
Definition emax : Z := 1024.

(** Digits in which single underscores may separate digits, at the head
    of a text: their value, their number, and the rest.  [None] when an
    underscore is not followed by a digit. *)
Fixpoint digitpart (acc : Z) (n : Z) (after_digit after_underscore : bool)
  (s : string) : option (Z * Z * string) :=
  match s with
  | EmptyString => if after_underscore then None else Some (acc, n, s)
  | String c s' =>
      if Py.isdecimal c then
        digitpart (10 * acc + (Z.of_N (Py.code c) - 48)) (n + 1) true false s'
      else if (Ascii.eqb c "_" && after_digit)%bool then
        digitpart acc n false true s'
      else if after_underscore then None
      else Some (acc, n, s)
  end.

(** The binary64 number nearest to [m * 10 ^ e], ties to even. *)
Definition of_decimal (neg : bool) (m : Z) (e : Z) : spec_float :=
  match m with
  | Zpos p =>
      if e >=? 0 then
        match Zpos p * 10 ^ e with
        | Zpos v => binary_round prec emax neg v 0
        | _ => S754_nan
        end
      else
        match 10 ^ (- e) with
        | Zpos d =>
            SFdiv prec emax (S754_finite neg p 0) (S754_finite false d 0)
        | _ => S754_nan
        end
  | _ => S754_zero neg
  end.

Definition lower (c : ascii) : ascii :=
  if Py.in_range 65 90 c then Py.chr (Py.code c + 32) else c.

Fixpoint lowercase (s : string) : string :=
  match s with
  | EmptyString => EmptyString
  | String c s' => String (lower c) (lowercase s')
  end.

(** An exponent part: the letter e, an optional sign, digits. *)
Definition exponent (s : string) : option (Z * string) :=
  match s with
  | String c s' =>
      if Ascii.eqb (lower c) "e" then
        let (neg, s'') :=
          match s' with
          | String "+" t => (false, t)
          | String "-" t => (true, t)
          | _ => (false, s')
          end in
        match digitpart 0 0 false false s'' with
        | Some (v, n, rest) =>
            if n =? 0 then None else Some (if neg then - v else v, rest)
        | None => None
        end
      else None
  | EmptyString => None
  end.

(** An unsigned number: digits with an optional point, then an optional
    exponent, and nothing more. *)
Definition number (neg : bool) (s : string) : option spec_float :=
  match digitpart 0 0 false false s with
  | None => None
  | Some (int_part, n1, r1) =>
      match
        match r1 with
        | String "." r2 =>
            match digitpart 0 0 false false r2 with
            | Some (frac, n2, r3) =>
                if ((n2 =? 0) && (n1 =? 0))%bool then None
                else Some (int_part * 10 ^ n2 + frac, n2, r3)
            | None => None
            end
        | _ => if n1 =? 0 then None else Some (int_part, 0, r1)
        end
      with
      | None => None
      | Some (m, n2, EmptyString) => Some (of_decimal neg m (- n2))
      | Some (m, n2, r) =>
          match exponent r with
          | Some (e, EmptyString) => Some (of_decimal neg m (e - n2))
          | _ => None
          end
      end
  end.

(** [float(s)]. *)
Definition parse (s : string) : option spec_float :=
  let s := Py.strip s in
  let (neg, body) :=
    match s with
    | String "+" t => (false, t)
    | String "-" t => (true, t)
    | _ => (false, s)
    end in
  let word := lowercase body in
  if (String.eqb word "inf" || String.eqb word "infinity")%bool
  then Some (S754_infinity neg)
  else if String.eqb word "nan" then Some S754_nan
  else number neg body.

(** The least [k] from [lo] on, within [fuel] steps, with
    [num / den < 10 ^ k]. *)
Fixpoint decimal_point (fuel : nat) (k : Z) (num den : Z) : Z :=
  match fuel with
  | O => k
  | S fuel' =>
      if (if k >=? 0 then num <? den * 10 ^ k else num * 10 ^ (- k) <? den)
      then k
      else decimal_point fuel' (k + 1) num den
  end.

(** The shortest digits that read back as the positive number
    [x = num / den], where [10 ^ (k - 1) <= x < 10 ^ k], tried from [n]
    digits up: the digits as an integer, and how many were asked for (the
    integer has one more when rounding up carried over). *)
Fixpoint shortest (fuel : nat) (n : Z) (k : Z) (num den : Z) (x : spec_float)
  : Z * Z :=
  let scale_num := if n - k >=? 0 then num * 10 ^ (n - k) else num in
  let scale_den := if n - k >=? 0 then den else den * 10 ^ (k - n) in
  let lo := scale_num / scale_den in
  let rem := scale_num mod scale_den in
  let reads_back d := SFeqb (of_decimal false d (k - n)) x in
  match fuel with
  | O => (lo, n)
  | S fuel' =>
      let low_ok := reads_back lo in
      let high_ok := (negb (rem =? 0) && reads_back (lo + 1))%bool in
      if (low_ok && high_ok)%bool then
        if ((2 * rem <? scale_den)
            || ((2 * rem =? scale_den) && Z.even lo))%bool
        then (lo, n) else (lo + 1, n)
      else if low_ok then (lo, n)
      else if high_ok then (lo + 1, n)
      else shortest fuel' (n + 1) k num den x
  end.

Fixpoint strip_zeros (fuel : nat) (d : Z) : Z :=
  match fuel with
  | O => d
  | S fuel' =>
      if ((d mod 10 =? 0) && negb (d =? 0))%bool
      then strip_zeros fuel' (d / 10) else d
  end.

Definition zeros (n : Z) : string :=
  string_of_list_ascii (repeat "0"%char (Z.to_nat n)).

Definition substr (from count : Z) (s : string) : string :=
  String.substring (Z.to_nat from) (Z.to_nat count) s.

(** The digits laid out as [repr] does: with an exponent when the point
    lies more than 16 places right or more than 3 places left of the
    first digit. *)
Definition layout (digits : string) (decpt : Z) : string :=
  let n := Py.len digits in
  if ((decpt <=? -4) || (decpt >? 16))%bool then
    let e := decpt - 1 in
    let mantissa :=
      if n =? 1 then digits
      else substr 0 1 digits +++ "." +++ substr 1 (n - 1) digits in
    let ee := Py.str_int (Z.abs e) in
    mantissa +++ "e" +++ (if e <? 0 then "-" else "+")
    +++ (if Z.abs e <? 10 then "0" else "") +++ ee
  else if decpt <=? 0 then "0." +++ zeros (- decpt) +++ digits
  else if decpt <? n then
    substr 0 decpt digits +++ "." +++ substr decpt (n - decpt) digits
  else digits +++ zeros (decpt - n) +++ ".0".

(** [str(x)] and [repr(x)]. *)
Definition repr (x : spec_float) : string :=
  match x with
  | S754_nan => "nan"
  | S754_infinity neg => if neg then "-inf" else "inf"
  | S754_zero neg => if neg then "-0.0" else "0.0"
  | S754_finite neg m e =>
      let num := if e >=? 0 then Zpos m * 2 ^ e else Zpos m in
      let den := if e >=? 0 then 1 else 2 ^ (- e) in
      let k := decimal_point 700 (-330) num den in
      let (d, n) := shortest 17 1 k num den (S754_finite false m e) in
      let decpt := k + (Py.len (Py.str_int d) - n) in
      let digits := Py.str_int (strip_zeros 20 d) in
      (if neg then "-" else "") +++ layout digits decpt
  end.

End Binary64.

(* ================================================================= *)
(** * The program *)

(** Keywords. *)
Definition PRAGMA : string := ":".
Definition RULE : string := ":".
Definition RULEARROW : string := "<-".
Definition LINEARIZATION : string := "=".
Definition SEQUENCE : string := "->".
Definition COMMENT : string := "#%/-;".

(** ** [SEQ_REGEXP]

    The compiled pattern, matched at a position of the sequence string:
    a double-quoted or a single-quoted string in which a backslash takes
    the next character with it (any but LF), or digits, a colon and
    digits; then white space or the end of the string.  The three
    alternatives start with different characters and each reads greedily
    with no other way to match, so the match is a scan.  [re_match] is the
    match object: its groups and, for [m.end()], the text that follows the
    match. *)
Record re_match : Type := {
  group1 : option string;
  group2 : option string;
  group3 : option string;
  after : string
}.

(** The rest of a quoted string after its opening quote [q], closing quote
    included, and the text behind it. *)
Fixpoint quoted_tail (q : ascii) (s : string) : option (string * string) :=
  match s with
  | EmptyString => None
  | String c s' =>
      if Ascii.eqb c q then Some (Py.str1 q, s')
      else if Ascii.eqb c Py.backslash then
        match s' with
        | EmptyString => None
        | String d s'' =>
            if Ascii.eqb d Py.LF then None
            else
              match quoted_tail q s'' with
              | Some (t, r) => Some (String c (String d t), r)
              | None => None
              end
        end
      else
        match quoted_tail q s' with
        | Some (t, r) => Some (String c t, r)
        | None => None
        end
  end.

(** The longest run of digits at the head of [s], and the rest. *)
Fixpoint digits (s : string) : string * string :=
  match s with
  | EmptyString => (EmptyString, EmptyString)
  | String c s' =>
      if Py.isdecimal c then let (d, r) := digits s' in (String c d, r)
      else (EmptyString, s)
  end.

(** The closing group: one or more white-space characters, or the end. *)
Definition space_or_end (s : string) : option string :=
  match s with
  | EmptyString => Some EmptyString
  | String c _ => if Py.isspace c then Some (Py.lstrip s) else None
  end.

(** [SEQ_REGEXP.match(seqstr, pos)], given [seqstr[pos:]]. *)
Definition SEQ_REGEXP_match (s : string) : option re_match :=
  match s with
  | EmptyString => None
  | String c s' =>
      if (Ascii.eqb c Py.dquote || Ascii.eqb c Py.squote)%bool then
        match quoted_tail c s' with
        | Some (t, r) =>
            match space_or_end r with
            | Some r' =>
                Some {| group1 := Some (String c t); group2 := None;
                        group3 := None; after := r' |}
            | None => None
            end
        | None => None
        end
      else
        let (arg, r1) := digits s in
        match arg, r1 with
        | String _ _, String colon r2 =>
            if Ascii.eqb colon ":" then
              let (ref, r3) := digits r2 in
              match ref with
              | String _ _ =>
                  match space_or_end r3 with
                  | Some r' =>
                      Some {| group1 := None; group2 := Some arg;
                              group3 := Some ref; after := r' |}
                  | None => None
                  end
              | EmptyString => None
              end
            else None
        | _, _ => None
        end
  end.

(** ** The small parsers *)

Definition is_identifier (s : string) : bool :=
  match s with
  | EmptyString => false
  | String c s' =>
      ((Py.isalnum c || Ascii.eqb c "_")
       && negb (existsb Py.isspace (list_ascii_of_string s')))%bool
  end.

Definition whitespace_split (s : string) (nrsplits : Z) : list string :=
  let splits := Py.split s nrsplits in
  if ((nrsplits >=? 0) && (Z.of_nat (length splits) <=? nrsplits))%bool then
    splits ++ repeat EmptyString
                (Z.to_nat (nrsplits + 1 - Z.of_nat (length splits)))
  else splits.

(** A sequence token: a terminal string or an (arg, ref) tuple. *)
Inductive token : Type :=
| Terminal (s : string)
| ArgRef (arg ref : Z).

(** [int] applied to a group of digits. *)
Definition int_of_group (g : option string) : result Z :=
  match g with
  | Some d =>
      match Py.int d with
      | Some n => Ok n
      | None =>
          raise ValueError
            ("invalid literal for int() with base 10: " +++ Py.repr d)
      end
  | None =>
      raise TypeError
        "int() argument must be a string, a bytes-like object or a real number, not 'NoneType'"
  end.

(** The token a match stands for: the pair of integers, or the quoted
    string evaluated. *)
Definition token_of_match (m : re_match) : result token :=
  match group1 m with
  | None =>
      arg <- int_of_group (group2 m) ;;
      ref <- int_of_group (group3 m) ;;
      Ok (ArgRef arg ref)
  | Some tok => s <- Py.eval tok ;; Ok (Terminal s)
  end.

(** The loop of [read_sequence].  [rest] is [seqstr[pos:]]; every turn
    consumes at least one character, so [fuel] above the length of [rest]
    is never used up (lemma [read_sequence_loop_fuel]). *)
Fixpoint read_sequence_loop (fuel : nat) (rest : string)
  (tokens : list token) : result (list token) :=
  match rest with
  | EmptyString => Ok tokens
  | String _ _ =>
      match fuel with
      | O => raise OutsideModel "read_sequence: out of fuel"
      | S fuel' =>
          match SEQ_REGEXP_match rest with
          | None =>
              raise SyntaxError ("Not a sequence token: " +++ Py.repr rest)
          | Some m =>
              tok <- token_of_match m ;;
              read_sequence_loop fuel' (after m) (tokens ++ [tok])
          end
      end
  end.

Definition read_sequence (seqstr : string) : result (list token) :=
  read_sequence_loop (S (String.length seqstr)) seqstr [].

Fixpoint first_non_identifier (l : list string) : option string :=
  match l with
  | [] => None
  | nt :: l' => if is_identifier nt then first_non_identifier l' else Some nt
  end.

Definition read_rule (rulestr : string) : result (string * list string) :=
  match whitespace_split rulestr (-1) with
  | lhs :: arrow :: rhs =>
      if String.eqb arrow RULEARROW then
        match first_non_identifier (lhs :: rhs) with
        | Some nt => raise SyntaxError ("Not an identifier: " +++ Py.repr nt)
        | None => Ok (lhs, rhs)
        end
      else
        raise SyntaxError
          ("Missing " +++ Py.repr RULEARROW +++ " after left-hand side in rule")
  | _ =>
      raise SyntaxError
        ("Missing " +++ Py.repr RULEARROW +++ " after left-hand side in rule")
  end.

Definition read_linearization (linstr : string) : result (list string) :=
  let sequences := whitespace_split linstr (-1) in
  match first_non_identifier sequences with
  | Some seq => raise SyntaxError ("Not an identifier: " +++ Py.repr seq)
  | None => Ok sequences
  end.

Definition str_token (tok : token) : string :=
  match tok with
  | ArgRef arg ref => Py.str_int arg +++ ":" +++ Py.str_int ref
  | Terminal s => Py.repr s
  end.

Definition collect_max_arities (arities : Dict.t Z Z) (argrefs : list token)
  : Dict.t Z Z :=
  fold_left
    (fun arities t =>
       match t with
       | ArgRef arg ref =>
           Dict.set arities arg
             (Z.max (match Dict.get arities arg with
                     | Some m => m
                     | None => -1
                     end) ref)
       | Terminal _ => arities
       end)
    argrefs arities.

(** ** [read_grammar] *)

(** A score is what [int] or [float] returned. *)
Inductive score : Type :=
| IntScore (n : Z)
| FloatScore (x : spec_float).

Definition rule : Type := (string * list string)%type.

(** The local variables of [read_grammar].  [ident] is the loop's variable
    of that name, which the deferred sweep reads after the loop; it is
    unbound until a declaration line has been split. *)
Record state : Type := mkState {
  pragmas : Dict.t (option string) (list string);
  functions : Dict.t string (list rule);
  linearizations : Dict.t string (list string);
  sequences : Dict.t string (option (list token));
  scores : Dict.t string score;
  nonterms : Dict.t string (option Z);
  fun_arities : Dict.t string Z;
  seq_arities : Dict.t string (Dict.t Z Z);
  ident : option string
}.

Definition initial : state :=
  {| pragmas := []; functions := []; linearizations := []; sequences := [];
     scores := []; nonterms := []; fun_arities := []; seq_arities := [];
     ident := None |}.

(** [d.get(k)] on a dictionary whose values may be [None]: an absent key
    and a [None] value read the same. *)
Definition get_value {V : Type} (d : Dict.t string (option V)) (k : string)
  : option V :=
  match Dict.get d k with
  | Some v => v
  | None => None
  end.

(** [d.setdefault(k, []).append(x)]. *)
Definition append_to {K V : Type} `{Key K} (d : Dict.t K (list V)) (k : K)
  (x : V) : Dict.t K (list V) :=
  match Dict.get d k with
  | Some l => Dict.set d k (l ++ [x])
  | None => d ++ [(k, [x])]
  end.

(** The conversion percent-s of an arity that may be [None]. *)
Definition str_arity (a : option Z) : string :=
  match a with
  | Some n => Py.str_int n
  | None => "None"
  end.

Definition arity_error (lhs : string) (lhs_arity : option Z) (fn : string)
  (fun_arity : Z) : exn :=
  mkExn ValueError
    ("Nonterminal " +++ Py.repr lhs +++ "/" +++ str_arity lhs_arity
     +++ " does not match function " +++ Py.repr fn +++ "/"
     +++ Py.str_int fun_arity).

Definition nonterminal_clash (nt : string) : exn :=
  mkExn ValueError
    ("Nonterminal " +++ Py.repr nt
     +++ " already occurs as a function or a sequence identifier").

Definition function_clash (fn : string) : exn :=
  mkExn ValueError
    ("Function " +++ Py.repr fn
     +++ " already occurs as a nonterminal or a sequence identifier").

Definition sequence_clash (seq : string) : exn :=
  mkExn ValueError
    ("Sequence " +++ Py.repr seq
     +++ " already occurs as a nonterminal or a function").

(** Calling a string, as the duplicate-linearization and duplicate-score
    lines do where the percent sign is missing between the format and its
    argument. *)
Definition str_not_callable : exn :=
  mkExn TypeError "'str' object is not callable".

(** The arity of [lhs] is set to the function's, or checked against it. *)
Definition match_arity (nonterms : Dict.t string (option Z)) (lhs : string)
  (fn : string) (fun_arity : Z) : result (Dict.t string (option Z)) :=
  match get_value nonterms lhs with
  | None => Ok (Dict.set nonterms lhs (Some fun_arity))
  | Some lhs_arity =>
      if negb (lhs_arity =? fun_arity)
      then Raise (arity_error lhs (Some lhs_arity) fn fun_arity)
      else Ok nonterms
  end.

(** [for r in rhs: ...] of the rule branch. *)
Fixpoint register_rhs (st : state) (nonterms : Dict.t string (option Z))
  (rhs : list string) : result (Dict.t string (option Z)) :=
  match rhs with
  | [] => Ok nonterms
  | r :: rhs' =>
      let nonterms := Dict.setdefault nonterms r None in
      if (Dict.mem r (linearizations st) || Dict.mem r (functions st)
          || Dict.mem r (sequences st))%bool
      then Raise (nonterminal_clash r)
      else register_rhs st nonterms rhs'
  end.

(** The branch [keyword == RULE]. *)
Definition rule_declaration (st : state) (ident rest : string)
  : result state :=
  ' (lhs, rhs) <- read_rule rest ;;
  let functions := append_to (functions st) ident (lhs, rhs) in
  let st := {| pragmas := pragmas st; functions := functions;
               linearizations := linearizations st;
               sequences := sequences st; scores := scores st;
               nonterms := nonterms st; fun_arities := fun_arities st;
               seq_arities := seq_arities st; ident := Some ident |} in
  nonterms <- match Dict.get (fun_arities st) ident with
              | Some fun_arity => match_arity (nonterms st) lhs ident fun_arity
              | None => Ok (nonterms st)
              end ;;
  nonterms <- register_rhs st nonterms rhs ;;
  if (Dict.mem lhs (linearizations st) || Dict.mem lhs functions
      || Dict.mem lhs (sequences st))%bool
  then Raise (nonterminal_clash lhs)
  else if (Dict.mem ident nonterms || Dict.mem ident (sequences st))%bool
  then Raise (function_clash ident)
  else
    Ok {| pragmas := pragmas st; functions := functions;
          linearizations := linearizations st; sequences := sequences st;
          scores := scores st; nonterms := nonterms;
          fun_arities := fun_arities st; seq_arities := seq_arities st;
          ident := Some ident |}.

(** [for lhs, _rhs in functions.get(ident, []): ...] of the linearization
    branch. *)
Fixpoint propagate_arity (nonterms : Dict.t string (option Z))
  (rules : list rule) (fn : string) (fun_arity : Z)
  : result (Dict.t string (option Z)) :=
  match rules with
  | [] => Ok nonterms
  | (lhs, _) :: rules' =>
      nonterms <- match_arity nonterms lhs fn fun_arity ;;
      propagate_arity nonterms rules' fn fun_arity
  end.

(** The branch [keyword == LINEARIZATION]. *)
Definition linearization_declaration (st : state) (ident rest : string)
  : result state :=
  lin <- read_linearization rest ;;
  match Dict.get (linearizations st) ident with
  | Some _ => Raise str_not_callable
  | None =>
      let linearizations := Dict.set (linearizations st) ident lin in
      let fun_arity := Z.of_nat (length lin) in
      let fun_arities := Dict.set (fun_arities st) ident fun_arity in
      nonterms <- propagate_arity (nonterms st)
                    (match Dict.get (functions st) ident with
                     | Some rules => rules
                     | None => []
                     end) ident fun_arity ;;
      let sequences :=
        fold_left (fun sequences seq => Dict.setdefault sequences seq None)
          lin (sequences st) in
      if (Dict.mem ident nonterms || Dict.mem ident sequences)%bool
      then Raise (function_clash ident)
      else
        Ok {| pragmas := pragmas st; functions := functions st;
              linearizations := linearizations; sequences := sequences;
              scores := scores st; nonterms := nonterms;
              fun_arities := fun_arities; seq_arities := seq_arities st;
              ident := Some ident |}
  end.

(** The branch [keyword == SEQUENCE]. *)
Definition sequence_declaration (st : state) (ident rest : string)
  : result state :=
  tokens <- read_sequence rest ;;
  match get_value (sequences st) ident with
  | Some _ =>
      raise ValueError ("Duplicate sequence for " +++ Py.repr ident)
  | None =>
      let sequences := Dict.set (sequences st) ident (Some tokens) in
      let seq_arities :=
        Dict.set (seq_arities st) ident (collect_max_arities [] tokens) in
      if (Dict.mem ident (nonterms st) || Dict.mem ident (linearizations st)
          || Dict.mem ident (functions st))%bool
      then Raise (sequence_clash ident)
      else
        Ok {| pragmas := pragmas st; functions := functions st;
              linearizations := linearizations st; sequences := sequences;
              scores := scores st; nonterms := nonterms st;
              fun_arities := fun_arities st; seq_arities := seq_arities;
              ident := Some ident |}
  end.

(** The last branch: any other keyword is a score. *)
Definition parse_score (keyword : string) : result score :=
  match Py.int keyword with
  | Some n => Ok (IntScore n)
  | None =>
      match Binary64.parse keyword with
      | Some x => Ok (FloatScore x)
      | None =>
          raise SyntaxError ("Not a correct score: " +++ Py.repr keyword)
      end
  end.

(** [scores[ident] = score], with the loop variable [ident] bound. *)
Definition add_score (st : state) (ident : string) (score : score) : state :=
  {| pragmas := pragmas st; functions := functions st;
     linearizations := linearizations st; sequences := sequences st;
     scores := Dict.set (scores st) ident score;
     nonterms := nonterms st; fun_arities := fun_arities st;
     seq_arities := seq_arities st; ident := Some ident |}.

Definition score_declaration (st : state) (ident keyword rest : string)
  : result state :=
  score <- parse_score keyword ;;
  match rest with
  | String _ _ =>
      raise SyntaxError
        ("Extra information in score declaration: " +++ Py.repr rest)
  | EmptyString =>
      if Dict.mem ident (scores st) then Raise str_not_callable
      else Ok (add_score st ident score)
  end.

(** Unpacking a list into two or three names. *)
Definition unpack2 (l : list string) : result (string * string) :=
  match l with
  | [a; b] => Ok (a, b)
  | _ :: _ :: _ => raise ValueError "too many values to unpack (expected 2)"
  | _ =>
      raise ValueError
        ("not enough values to unpack (expected 2, got "
         +++ Py.str_int (Z.of_nat (length l)) +++ ")")
  end.

Definition unpack3 (l : list string) : result (string * string * string) :=
  match l with
  | [a; b; c] => Ok (a, b, c)
  | _ :: _ :: _ :: _ =>
      raise ValueError "too many values to unpack (expected 3)"
  | _ =>
      raise ValueError
        ("not enough values to unpack (expected 3, got "
         +++ Py.str_int (Z.of_nat (length l)) +++ ")")
  end.

(** [pragmas.setdefault(pragma, []).append(info)]: only [pragmas]
    changes. *)
Definition add_pragma (st : state) (pragma : option string) (info : string)
  : state :=
  {| pragmas := append_to (pragmas st) pragma info;
     functions := functions st; linearizations := linearizations st;
     sequences := sequences st; scores := scores st;
     nonterms := nonterms st; fun_arities := fun_arities st;
     seq_arities := seq_arities st; ident := ident st |}.

(** A pragma line; [rest] starts with the marker and [tail] is
    [rest[1:]]. *)
Definition pragma_line (st : state) (tail : string) : result state :=
  ' (pragma, info) <-
      (if Py.str_isspace (String.substring 0 1 tail) then Ok (None, tail)
       else ' (name, info) <- unpack2 (whitespace_split tail 1) ;;
            Ok (Some name, info)) ;;
  let info := Py.strip info in
  Ok (add_pragma st pragma info).

(** A declaration line: identifier, keyword, rest. *)
Definition declaration_line (st : state) (rest : string) : result state :=
  ' (ident, keyword, rest) <- unpack3 (whitespace_split rest 2) ;;
  if negb (is_identifier ident)
  then raise SyntaxError ("Not an identifier: " +++ Py.repr ident)
  else if String.eqb keyword RULE then rule_declaration st ident rest
  else if String.eqb keyword LINEARIZATION
  then linearization_declaration st ident rest
  else if String.eqb keyword SEQUENCE then sequence_declaration st ident rest
  else score_declaration st ident keyword rest.

(** The body of the [try] statement, for one line. *)
Definition process_line (st : state) (line : string) : result state :=
  match Py.lstrip line with
  | EmptyString => Ok st
  | String c tail =>
      if Py.char_in c COMMENT then Ok st
      else if String.eqb (Py.str1 c) PRAGMA then pragma_line st tail
      else declaration_line st (String c tail)
  end.

(** One item of [lines] with what [fileinput.filename()] and
    [fileinput.lineno()] answer while it is processed.  Only the handler
    asks them, and they answer only while a [fileinput] is active:
    [filename] is [Some name] once a line of the file [name] has been
    read, and [None] as long as the active [fileinput] has read no line.
    With no active [fileinput] the call [fileinput.filename()] raises
    [RuntimeError] inside the handler, so that a [SyntaxError] or a
    [ValueError] of the loop leaves [read_grammar] as a [RuntimeError];
    such a read is not modelled.  What is stated of an error that the
    handler re-raises holds for reads made while a [fileinput] is
    active. *)
Record input_line : Type := mkLine {
  filename : option string;
  lineno : Z;
  text : string
}.

(** The positional context the handler appends. *)
Definition context (l : input_line) : string :=
  match filename l with
  | None => "[happened on input line: " +++ Py.repr (text l) +++ "]"
  | Some name =>
      "[happened in input file " +++ Py.repr name +++ ", line "
      +++ Py.str_int (lineno l) +++ ": " +++ Py.repr (text l) +++ "]"
  end.

(** The handler [except (SyntaxError, ValueError) as err], run while a
    [fileinput] is active: it raises an error of the same class with the
    context appended; any other exception passes through. *)
Definition handler (l : input_line) (err : exn) : exn :=
  match kind err with
  | SyntaxError | ValueError =>
      mkExn (kind err) (message err +++ " " +++ context l)
  | _ => err
  end.

(** One turn of [for line in lines]. *)
Definition step (st : state) (l : input_line) : result state :=
  match process_line st (text l) with
  | Ok st' => Ok st'
  | Raise err => Raise (handler l err)
  end.

(** The whole loop: the incremental pass. *)
Fixpoint read_lines (st : state) (lines : list input_line) : result state :=
  match lines with
  | [] => Ok st
  | l :: lines' => st' <- step st l ;; read_lines st' lines'
  end.

(** ** The deferred sweep

    [warnings.warn] adds a warning to the log and goes on; an exception
    ends the computation with the log so far.  [effects L A] is a
    computation that logs items of [L] and returns an [A] or raises.  The
    log holds every call of [warnings.warn]; which of them the warnings
    filter of the interpreter shows is not modelled. *)

Definition effects (L A : Type) : Type := (list L * result A)%type.

Definition ret {L A : Type} (a : A) : effects L A := ([], Ok a).

Definition emit {L : Type} (x : L) : effects L unit := ([x], Ok tt).

Definition lift {L A : Type} (r : result A) : effects L A := ([], r).

Definition and_then {L A B : Type} (c : effects L A)
  (k : A -> effects L B) : effects L B :=
  match c with
  | (log, Ok a) => let (log', r) := k a in (log ++ log', r)
  | (log, Raise e) => (log, Raise e)
  end.

Notation "x <~ c ;; k" := (and_then c (fun x => k))
  (at level 61, c at next level, right associativity).

Fixpoint for_each {L A : Type} (f : A -> effects L unit) (l : list A)
  : effects L unit :=
  match l with
  | [] => ret tt
  | x :: l' => _ <~ f x ;; for_each f l'
  end.

(** The warnings of the sweep, all of category [SyntaxWarning], with the
    values their messages are formatted from.  The two sets of undefined
    names are listed in dictionary order; Python joins them in the
    iteration order of a [set]. *)
Inductive warning : Type :=
| UndefinedNonterminals (nts : list string)
| UndefinedSequences (seqs : list string)
| MissingLinearization (fn : string)
| ArityMismatch (lhs : string) (lhs_arity : option Z) (ident : string)
    (fun_arity : Z)
| ArgumentOutOfRange (fn : string) (arg : Z) (bound : Z)
| MissingDefinition (nt : string)
| ReferenceMismatch (arg maxref : Z) (fn nt : string) (rhs_arity : Z).

(** [d[k]], which raises [KeyError] on an absent key. *)
Definition lookup {V : Type} (d : Dict.t string V) (k : string) : result V :=
  match Dict.get d k with
  | Some v => Ok v
  | None => raise KeyError (Py.repr k)
  end.

(** [l[i]] on a list, which raises [IndexError] out of range. *)
Definition getitem {A : Type} (l : list A) (i : Z) : result A :=
  let n := Z.of_nat (length l) in
  let j := if i <? 0 then i + n else i in
  match (if j <? 0 then None else nth_error l (Z.to_nat j)) with
  | Some x => Ok x
  | None => raise IndexError "list index out of range"
  end.

(** The keys whose value is [None]. *)
Definition undefined {V : Type} (d : Dict.t string (option V)) : list string :=
  map fst (filter (fun kv => match snd kv with
                             | None => true
                             | Some _ => false
                             end) d).

(** [for seq in lin: collect_max_arities(arities, seq_arities[seq].items())]. *)
Fixpoint merge_arities (seq_arities : Dict.t string (Dict.t Z Z))
  (arities : Dict.t Z Z) (lin : list string) : result (Dict.t Z Z) :=
  match lin with
  | [] => Ok arities
  | seq :: lin' =>
      items <- lookup seq_arities seq ;;
      merge_arities seq_arities
        (collect_max_arities arities
           (map (fun item => ArgRef (fst item) (snd item)) items))
        lin'
  end.

(** The body of [for arg, maxref in arities.items()]. *)
Definition check_reference (st : state) (fn : string) (rhs : list string)
  (item : Z * Z) : effects warning unit :=
  let (arg, maxref) := item in
  let bound := Z.of_nat (length rhs) in
  _ <~ (if arg >=? bound then emit (ArgumentOutOfRange fn arg bound)
        else ret tt) ;;
  nt <~ lift (getitem rhs arg) ;;
  match get_value (nonterms st) nt with
  | None => emit (MissingDefinition nt)
  | Some rhs_arity =>
      if rhs_arity <=? maxref
      then emit (ReferenceMismatch arg maxref fn nt rhs_arity)
      else ret tt
  end.

(** The body of [for lhs, rhs in rules]. *)
Definition check_rule (st : state) (fn : string) (fun_arity : Z)
  (arities : Dict.t Z Z) (r : rule) : effects warning unit :=
  let (lhs, rhs) := r in
  lhs_arity <~ lift (lookup (nonterms st) lhs) ;;
  _ <~ (if match lhs_arity with
           | Some a => negb (fun_arity =? a)
           | None => true
           end
        then
          match ident st with
          | Some ident => emit (ArityMismatch lhs lhs_arity ident fun_arity)
          | None => lift (raise NameError "name 'ident' is not defined")
          end
        else ret tt) ;;
  for_each (check_reference st fn rhs) arities.

(** The body of [for fun, rules in functions.items()]. *)
Definition check_function (st : state) (item : string * list rule)
  : effects warning unit :=
  let (fn, rules) := item in
  match Dict.get (linearizations st) fn with
  | None => emit (MissingLinearization fn)
  | Some lin =>
      arities <~ lift (merge_arities (seq_arities st) [] lin) ;;
      fun_arity <~ lift (lookup (fun_arities st) fn) ;;
      for_each (check_rule st fn fun_arity arities) rules
  end.

(** The block under [if validate:]. *)
Definition sweep (st : state) : effects warning unit :=
  let undefined_nonterms := undefined (nonterms st) in
  _ <~ (match undefined_nonterms with
        | [] => ret tt
        | _ => emit (UndefinedNonterminals undefined_nonterms)
        end) ;;
  let undefined_sequences := undefined (sequences st) in
  _ <~ (match undefined_sequences with
        | [] => ret tt
        | _ => emit (UndefinedSequences undefined_sequences)
        end) ;;
  for_each (check_function st) (functions st).

(** ** The grammar model: the dictionary [read_grammar] returns *)

Inductive value : Type :=
| Pragmas (d : Dict.t (option string) (list string))
| Functions (d : Dict.t string (list rule))
| Linearizations (d : Dict.t string (list string))
| Sequences (d : Dict.t string (option (list token)))
| Scores (d : Dict.t string score)
| Nonterms (d : Dict.t string (option Z)).

Definition grammar : Type := Dict.t string value.

Definition grammar_of (st : state) : grammar :=
  [ ("pragmas", Pragmas (pragmas st));
    ("functions", Functions (functions st));
    ("linearizations", Linearizations (linearizations st));
    ("sequences", Sequences (sequences st));
    ("scores", Scores (scores st));
    ("nonterms", Nonterms (nonterms st)) ]%string.

Definition read_grammar (lines : list input_line) (validate : bool)
  : effects warning grammar :=
  st <~ lift (read_lines initial lines) ;;
  _ <~ (if validate then sweep st else ret tt) ;;
  ret (grammar_of st).

(** The items of a list of strings, read while the active [fileinput] has
    not read a line, so that [fileinput.filename()] answers [None].  With
    no active [fileinput] the same items are read alike as long as the
    handler is not entered; a read that enters it ends in the
    [RuntimeError] of [fileinput.filename()] and is not modelled. *)
Definition plain (lines : list string) : list input_line :=
  map (fun t => {| filename := None; lineno := 0; text := t |}) lines.

(** ** [write_grammar]

    Every [print] call adds one line to the log.  The arguments are the
    values a grammar model holds, so the writer's tests on the type of a
    value ([isinstance]) are decided: lists of pragmas and of rules are
    taken as they are. *)

Definition print (s : string) : effects string unit := emit s.

Definition str_score (x : score) : string :=
  match x with
  | IntScore n => Py.str_int n
  | FloatScore x => Binary64.repr x
  end.

Definition write_pragmas (item : option string * list string)
  : effects string unit :=
  let (pid, prgms) := item in
  let pid := match pid with
             | None => EmptyString
             | Some name => name
             end in
  for_each (fun prg => print (PRAGMA +++ pid +++ " " +++ prg)) prgms.

Definition write_rules (item : string * list rule) : effects string unit :=
  let (fid, rules) := item in
  for_each
    (fun r : rule =>
       print (fid +++ " " +++ RULE +++ " " +++ fst r +++ " " +++ RULEARROW
              +++ " " +++ Py.join " " (snd r)))
    rules.

Definition write_linearization (item : string * list string)
  : effects string unit :=
  let (fid, lin) := item in
  print (fid +++ " " +++ LINEARIZATION +++ " " +++ Py.join " " lin).

Definition write_sequence (item : string * option (list token))
  : effects string unit :=
  let (sid, seq) := item in
  match seq with
  | Some seq =>
      print (sid +++ " " +++ SEQUENCE +++ " "
             +++ Py.join " " (map str_token seq))
  | None => lift (raise TypeError "'NoneType' object is not iterable")
  end.

Definition write_score (item : string * score) : effects string unit :=
  let (fid, score) := item in
  print (fid +++ " " +++ str_score score).

Definition write_grammar
  (pragmas : Dict.t (option string) (list string))
  (functions : Dict.t string (list rule))
  (linearizations : Dict.t string (list string))
  (sequences : Dict.t string (option (list token)))
  (scores : option (Dict.t string score)) : effects string unit :=
  _ <~ print "" ;;
  _ <~ (match pragmas with
        | [] => ret tt
        | _ =>
            _ <~ print "# Pragmas" ;;
            _ <~ for_each write_pragmas pragmas ;;
            print ""
        end) ;;
  _ <~ print "# Functions/rules" ;;
  _ <~ for_each write_rules functions ;;
  _ <~ print "" ;;
  _ <~ print "# Linearizations" ;;
  _ <~ for_each write_linearization linearizations ;;
  _ <~ print "" ;;
  _ <~ print "# Sequences" ;;
  _ <~ for_each write_sequence sequences ;;
  _ <~ print "" ;;
  _ <~ print "# Sequences" ;;
  _ <~ for_each write_sequence sequences ;;
  _ <~ print "" ;;
  match scores with
  | None | Some [] => ret tt
  | Some scores =>
      _ <~ print "# Scores" ;;
      _ <~ for_each write_score scores ;;
      print ""
  end.

(** [write_grammar] called with the grammar model unpacked into keyword
    arguments, as the main program does: the items are bound to the
    parameters by name, the key [nonterms] going to the unused rest. *)
Definition write_grammar_of (g : grammar) : effects string unit :=
  match Dict.get g "pragmas"%string, Dict.get g "functions"%string,
        Dict.get g "linearizations"%string, Dict.get g "sequences"%string
  with
  | Some (Pragmas p), Some (Functions f), Some (Linearizations l),
    Some (Sequences s) =>
      write_grammar p f l s
        (match Dict.get g "scores"%string with
         | Some (Scores sc) => Some sc
         | _ => None
         end)
  | _, _, _, _ =>
      lift (raise TypeError
              "write_grammar() missing required positional arguments")
  end.

(** The text on standard output, and the lines a reader gets from it. *)
Definition stdout (printed : list string) : string :=
  fold_right (fun l out => l +++ String Py.LF out) EmptyString printed.

Fixpoint text_lines_from (cur : string -> string) (s : string) : list string :=
  match s with
  | EmptyString =>
      match cur EmptyString with
      | EmptyString => []
      | l => [l]
      end
  | String c s' =>
      if Ascii.eqb c Py.LF then cur (Py.str1 c) :: text_lines_from (fun r => r) s'
      else text_lines_from (fun r => cur (String c r)) s'
  end.

Definition text_lines (s : string) : list string :=
  text_lines_from (fun r => r) s.



(* ================================================================= *)
(** * Vocabulary of the statements *)

(** The identifier a line declares a sequence body for, if the line is a
    sequence declaration: not blank, not a comment, not a pragma, and its
    keyword is the sequence marker. *)
Definition declared_sequence (line : string) : option string :=
  match Py.lstrip line with
  | EmptyString => None
  | String c tail =>
      if (Py.char_in c COMMENT || String.eqb (Py.str1 c) PRAGMA)%bool then None
      else
        match whitespace_split (String c tail) 2 with
        | [ident; keyword; _] =>
            if String.eqb keyword SEQUENCE then Some ident else None
        | _ => None
        end
  end.

(** A quote character of [repr]. *)
Definition is_quote (q : ascii) : Prop := q = Py.squote \/ q = Py.dquote.

(** The exceptions a failed look-up raises. *)
Definition lookup_failure (e : exn) : Prop :=
  kind e = KeyError \/ kind e = IndexError \/ kind e = NameError.

(** No character of [s] is white space. *)
Definition no_space (s : string) : bool :=
  negb (existsb Py.isspace (list_ascii_of_string s)).

(** A word: not empty and free of white space, as the pieces of a split
    are. *)
Definition is_word (s : string) : bool :=
  match s with
  | EmptyString => false
  | String _ _ => no_space s
  end.

(** A line the loop passes over: blank, or a comment. *)
Definition skipped (line : string) : bool :=
  match Py.lstrip line with
  | EmptyString => true
  | String c _ => Py.char_in c COMMENT
  end.

(** A text of decimal digits only. *)
Fixpoint all_digits (s : string) : bool :=
  match s with
  | EmptyString => true
  | String c s' => (Py.isdecimal c && all_digits s')%bool
  end.

(** A token whose numbers are natural numbers, as the tokenizer makes
    them. *)
Definition natural_refs (tok : token) : bool :=
  match tok with
  | ArgRef arg ref => ((0 <=? arg) && (0 <=? ref))%bool
  | Terminal _ => true
  end.

(** What may follow a token: white space up to the end, or a space and
    more text. *)
Definition follows (tail rest : string) : Prop :=
  (Py.all_space tail = true /\ rest = EmptyString)
  \/ tail = String " " rest.

(** [st'] holds every declaration of [st]: linearizations, sequence
    bodies, scores and arities as they were, rules and pragmas with
    possibly more behind them. *)
Record extends (st st' : state) : Prop := {
  linearization_kept :
    forall fn lin,
      Dict.get (linearizations st) fn = Some lin ->
      Dict.get (linearizations st') fn = Some lin;
  body_kept :
    forall seq tokens,
      Dict.get (sequences st) seq = Some (Some tokens) ->
      Dict.get (sequences st') seq = Some (Some tokens);
  score_kept :
    forall fn x,
      Dict.get (scores st) fn = Some x -> Dict.get (scores st') fn = Some x;
  arity_kept :
    forall nt a,
      Dict.get (nonterms st) nt = Some (Some a) ->
      Dict.get (nonterms st') nt = Some (Some a);
  rules_kept :
    forall fn rules,
      Dict.get (functions st) fn = Some rules ->
      exists more, Dict.get (functions st') fn = Some (rules ++ more);
  pragmas_kept :
    forall name infos,
      Dict.get (pragmas st) name = Some infos ->
      exists more, Dict.get (pragmas st') name = Some (infos ++ more)
}.

(** Iterating over [None], as the writer does on a sequence that has no
    body. *)
Definition none_not_iterable : exn :=
  mkExn TypeError "'NoneType' object is not iterable".

(** A computation that returns, and one that raises [e]. *)
Definition succeeds {L : Type} (c : effects L unit) : Prop :=
  exists log, c = (log, Ok tt).

Definition fails_with {L A : Type} (e : exn) (c : effects L A) : Prop :=
  exists log, c = (log, Raise e).

(** What the loop keeps true besides [registered]: a linearization and
    the arity of its function go together; the left-hand side of every
    rule of a function that has a linearization has the length of that
    linearization as its arity; a sequence has a body exactly when its
    maximal references are recorded, and they are those of the body; the
    numbers in a body are natural numbers. *)
Record coherent (st : state) : Prop := {
  lin_arity :
    forall fn lin,
      Dict.get (linearizations st) fn = Some lin ->
      Dict.get (fun_arities st) fn = Some (Z.of_nat (length lin));
  rule_arity :
    forall fn lin rules lhs rhs,
      Dict.get (linearizations st) fn = Some lin ->
      Dict.get (functions st) fn = Some rules -> In (lhs, rhs) rules ->
      Dict.get (nonterms st) lhs = Some (Some (Z.of_nat (length lin)));
  body_arities :
    forall seq tokens,
      Dict.get (sequences st) seq = Some (Some tokens) ->
      Dict.get (seq_arities st) seq = Some (collect_max_arities [] tokens);
  arities_body :
    forall seq items,
      Dict.get (seq_arities st) seq = Some items ->
      exists tokens, Dict.get (sequences st) seq = Some (Some tokens);
  refs_natural :
    forall seq tokens,
      Dict.get (sequences st) seq = Some (Some tokens) ->
      Forall (fun tok => natural_refs tok = true) tokens;
  functions_once : NoDup (Dict.keys (functions st))
}.

(** Every warning of a computation satisfies [P] and every exception it
    raises satisfies [Q]. *)
Definition sound {L A : Type} (P : L -> Prop) (Q : exn -> Prop)
  (c : effects L A) : Prop :=
  Forall P (fst c) /\ forall e, snd c = Raise e -> Q e.

(** A warning other than the one about an arity that does not match. *)
Definition no_arity_mismatch (w : warning) : Prop :=
  match w with
  | ArityMismatch _ _ _ _ => False
  | _ => True
  end.

(** An exception of a failed subscript: [KeyError] or [IndexError]. *)
Definition subscript_failure (e : exn) : Prop :=
  kind e = KeyError \/ kind e = IndexError.

(** The sweep raised [IndexError] right after warning that an argument
    is out of range. *)
Definition out_of_range (log : list warning) (e : exn) : Prop :=
  exists log' fn arg bound,
    log = log' ++ [ArgumentOutOfRange fn arg bound] /\ bound <= arg /\
    e = mkExn IndexError "list index out of range".

(** The arguments a dictionary of maximal references has entries for are
    natural numbers. *)
Definition natural_keys (d : Dict.t Z Z) : Prop :=
  forall arg m, In (arg, m) d -> 0 <= arg.

(** The sweep raised [KeyError] on a sequence that a linearization of a
    function with rules names and that has no body. *)
Definition missing_body (st : state) (e : exn) : Prop :=
  exists fn lin seq,
    Dict.mem fn (functions st) = true /\
    Dict.get (linearizations st) fn = Some lin /\ In seq lin /\
    Dict.get (seq_arities st) seq = None /\
    e = mkExn KeyError (Py.repr seq).

(** Every name the state holds is an identifier. *)
Record named (st : state) : Prop := {
  function_names :
    forall fn, Dict.mem fn (functions st) = true -> is_identifier fn = true;
  rule_names :
    forall fn rules lhs rhs,
      Dict.get (functions st) fn = Some rules -> In (lhs, rhs) rules ->
      is_identifier lhs = true /\
      Forall (fun nt => is_identifier nt = true) rhs;
  linearization_names :
    forall fn lin,
      Dict.get (linearizations st) fn = Some lin ->
      is_identifier fn = true /\
      Forall (fun seq => is_identifier seq = true) lin;
  sequence_names :
    forall seq, Dict.mem seq (sequences st) = true -> is_identifier seq = true;
  nonterm_names :
    forall nt, Dict.mem nt (nonterms st) = true -> is_identifier nt = true;
  score_names :
    forall fn, Dict.mem fn (scores st) = true -> is_identifier fn = true
}.

(** The right-hand-side nonterminals are apart from the functions: none
    of them is the name of a function with a rule or a linearization. *)
Definition apart (st : state) : Prop :=
  forall fn rules lhs rhs r,
    Dict.get (functions st) fn = Some rules -> In (lhs, rhs) rules ->
    In r rhs ->
    Dict.mem r (functions st) = false /\
    Dict.mem r (linearizations st) = false.

(** A sequence of the linearization [lin] has a body that holds the pair
    of [arg] and [ref]. *)
Definition referenced (st : state) (lin : list string) (arg ref : Z) : Prop :=
  exists seq tokens,
    In seq lin /\ Dict.get (sequences st) seq = Some (Some tokens) /\
    In (ArgRef arg ref) tokens.

(** A rule of the function [fn], which has the linearization [lin]. *)
Definition linearized_rule (st : state) (fn : string) (lin : list string)
  (r : rule) : Prop :=
  exists rules,
    Dict.get (functions st) fn = Some rules /\ In r rules /\
    Dict.get (linearizations st) fn = Some lin.

(** What a warning of the sweep says is the case in the state that the
    loop ended in. *)
Definition justified (st : state) (w : warning) : Prop :=
  match w with
  | UndefinedNonterminals nts =>
      nts = undefined (nonterms st) /\ nts <> []
  | UndefinedSequences seqs =>
      seqs = undefined (sequences st) /\ seqs <> []
  | MissingLinearization fn =>
      Dict.mem fn (functions st) = true /\
      Dict.get (linearizations st) fn = None
  | ArityMismatch _ _ _ _ => False
  | ArgumentOutOfRange fn arg bound =>
      exists lin lhs rhs ref,
        linearized_rule st fn lin (lhs, rhs) /\ referenced st lin arg ref /\
        bound = Z.of_nat (length rhs) /\ bound <= arg
  | MissingDefinition nt =>
      exists fn lin lhs rhs arg ref,
        linearized_rule st fn lin (lhs, rhs) /\ referenced st lin arg ref /\
        getitem rhs arg = Ok nt /\ Dict.get (nonterms st) nt = Some None
  | ReferenceMismatch arg maxref fn nt rhs_arity =>
      exists lin lhs rhs,
        linearized_rule st fn lin (lhs, rhs) /\
        referenced st lin arg maxref /\
        getitem rhs arg = Ok nt /\
        Dict.get (nonterms st) nt = Some (Some rhs_arity) /\
        rhs_arity <= maxref
  end.

(** The nonterminals record, for the left-hand side of the rule [r], an
    arity other than [fun_arity]: the case in which the reader raises the
    error of an arity that does not match. *)
Definition conflicting (nonterms : Dict.t string (option Z)) (fun_arity : Z)
  (r : rule) : bool :=
  match get_value nonterms (fst r) with
  | Some lhs_arity => negb (lhs_arity =? fun_arity)
  | None => false
  end.

(* ================================================================= *)
(** * Properties *)

(** ** The tokenizer *)

(** The positions the loop of [read_sequence] reaches: [rest] is what is
    left of [seqstr] there and [tokens] what has been appended so far. *)
Inductive reaches (seqstr : string) : string -> list token -> Prop :=
| reaches_start : reaches seqstr seqstr []
| reaches_next (rest : string) (tokens : list token) (m : re_match)
    (tok : token) :
    reaches seqstr rest tokens ->
    SEQ_REGEXP_match rest = Some m ->
    token_of_match m = Ok tok ->
    reaches seqstr (after m) (tokens ++ [tok]).

Lemma lstrip_length (s : string) :
  (String.length (Py.lstrip s) <= String.length s)%nat.
Proof.
  induction s as [|c s IH]; simpl; [lia|].
  destruct (Py.isspace c); simpl; lia.
Qed.

Lemma space_or_end_length (s r : string) :
  space_or_end s = Some r -> (String.length r <= String.length s)%nat.
Proof.
  destruct s as [|c s]; simpl.
  - intros [= <-]. simpl. lia.
  - destruct (Py.isspace c) eqn:E; [|discriminate].
    intros [= <-]. pose proof (lstrip_length s). lia.
Qed.

Lemma quoted_tail_length (q : ascii) (s t r : string) :
  quoted_tail q s = Some (t, r) -> (String.length r < String.length s)%nat.
Proof.
  revert t r. induction s as [s IH] using (well_founded_induction
    (Wf_nat.well_founded_ltof _ String.length)).
  unfold Wf_nat.ltof in IH. intros t r. destruct s as [|c s]; simpl; [discriminate|].
  destruct (Ascii.eqb c q).
  - intros [= <- <-]. lia.
  - destruct (Ascii.eqb c Py.backslash).
    + destruct s as [|d s]; [discriminate|].
      destruct (Ascii.eqb d Py.LF); [discriminate|].
      destruct (quoted_tail q s) as [[t' r']|] eqn:E; [|discriminate].
      intros [= <- <-]. apply IH in E; simpl in *; lia.
    + destruct (quoted_tail q s) as [[t' r']|] eqn:E; [|discriminate].
      intros [= <- <-]. apply IH in E; simpl in *; lia.
Qed.

Lemma digits_length (s d r : string) :
  digits s = (d, r) ->
  (String.length d + String.length r = String.length s)%nat.
Proof.
  revert d r. induction s as [|c s IH]; simpl; intros d r.
  - intros [= <- <-]. reflexivity.
  - destruct (Py.isdecimal c).
    + destruct (digits s) as [d' r'] eqn:E. intros [= <- <-].
      specialize (IH _ _ eq_refl). simpl. lia.
    + intros [= <- <-]. reflexivity.
Qed.

(** A match consumes at least one character. *)
Lemma SEQ_REGEXP_match_consumes (s : string) (m : re_match) :
  SEQ_REGEXP_match s = Some m ->
  (String.length (after m) < String.length s)%nat.
Proof.
  destruct s as [|c s]; [discriminate|]. unfold SEQ_REGEXP_match.
  destruct (Ascii.eqb c Py.dquote || Ascii.eqb c Py.squote)%bool.
  - destruct (quoted_tail c s) as [[t r]|] eqn:Q; [|discriminate].
    destruct (space_or_end r) as [r'|] eqn:E; [|discriminate].
    intros [= <-]. simpl.
    apply quoted_tail_length in Q. apply space_or_end_length in E. lia.
  - destruct (digits (String c s)) as [arg r1] eqn:D1.
    destruct arg as [|a arg]; [discriminate|].
    destruct r1 as [|colon r2]; [discriminate|].
    destruct (Ascii.eqb colon ":"); [|discriminate].
    destruct (digits r2) as [ref r3] eqn:D2.
    destruct ref as [|b ref]; [discriminate|].
    destruct (space_or_end r3) as [r'|] eqn:E; [|discriminate].
    intros [= <-]. simpl.
    apply digits_length in D1. apply digits_length in D2.
    apply space_or_end_length in E. simpl in *. lia.
Qed.

(** Fuel above the length of the text left is never used up: the result
    does not depend on it. *)
Lemma read_sequence_loop_fuel (fuel1 fuel2 : nat) (rest : string)
  (tokens : list token) :
  (String.length rest < fuel1)%nat -> (String.length rest < fuel2)%nat ->
  read_sequence_loop fuel1 rest tokens = read_sequence_loop fuel2 rest tokens.
Proof.
  revert fuel2 rest tokens.
  induction fuel1 as [|fuel1 IH]; intros fuel2 rest tokens H1 H2; [lia|].
  destruct fuel2 as [|fuel2]; [lia|].
  destruct rest as [|c rest]; [reflexivity|].
  cbn [read_sequence_loop].
  destruct (SEQ_REGEXP_match (String c rest)) as [m|] eqn:M; [|reflexivity].
  apply SEQ_REGEXP_match_consumes in M.
  destruct (token_of_match m) as [tok|e]; [|reflexivity].
  cbn [bind]. apply IH; simpl in *; lia.
Qed.

Lemma append_nil_r (s : string) : s +++ EmptyString = s.
Proof. induction s as [|c s IH]; simpl; [reflexivity|now rewrite IH]. Qed.

Lemma append_assoc (a b c : string) : (a +++ b) +++ c = a +++ b +++ c.
Proof. induction a as [|x a IH]; simpl; [reflexivity|now rewrite IH]. Qed.

Lemma lstrip_suffix (s : string) : exists p, s = p +++ Py.lstrip s.
Proof.
  induction s as [|c s [p IH]]; simpl.
  - now exists EmptyString.
  - destruct (Py.isspace c).
    + exists (String c p). simpl. now rewrite <- IH.
    + now exists EmptyString.
Qed.

Lemma space_or_end_suffix (s r : string) :
  space_or_end s = Some r -> exists p, s = p +++ r.
Proof.
  destruct s as [|c s]; simpl.
  - intros [= <-]. now exists EmptyString.
  - destruct (Py.isspace c); [|discriminate]. intros [= <-].
    destruct (lstrip_suffix s) as [p Hp].
    exists (String c p). simpl. now rewrite <- Hp.
Qed.

Lemma quoted_tail_suffix (q : ascii) (s t r : string) :
  quoted_tail q s = Some (t, r) -> s = t +++ r.
Proof.
  revert t r. induction s as [s IH] using (well_founded_induction
    (Wf_nat.well_founded_ltof _ String.length)).
  unfold Wf_nat.ltof in IH. intros t r.
  destruct s as [|c s]; simpl; [discriminate|].
  destruct (Ascii.eqb c q) eqn:Q.
  - apply Ascii.eqb_eq in Q. subst c. now intros [= <- <-].
  - destruct (Ascii.eqb c Py.backslash).
    + destruct s as [|d s]; [discriminate|].
      destruct (Ascii.eqb d Py.LF); [discriminate|].
      destruct (quoted_tail q s) as [[t' r']|] eqn:E; [|discriminate].
      intros [= <- <-]. apply IH in E; [|simpl; lia]. simpl. now rewrite <- E.
    + destruct (quoted_tail q s) as [[t' r']|] eqn:E; [|discriminate].
      intros [= <- <-]. apply IH in E; [|simpl; lia]. simpl. now rewrite <- E.
Qed.

Lemma digits_suffix (s d r : string) : digits s = (d, r) -> s = d +++ r.
Proof.
  revert d r. induction s as [|c s IH]; simpl; intros d r.
  - now intros [= <- <-].
  - destruct (Py.isdecimal c).
    + destruct (digits s) as [d' r'] eqn:E. intros [= <- <-].
      simpl. now rewrite <- (IH _ _ eq_refl).
    + now intros [= <- <-].
Qed.

(** What follows a match is a suffix of the text matched against. *)
Lemma SEQ_REGEXP_match_suffix (s : string) (m : re_match) :
  SEQ_REGEXP_match s = Some m -> exists p, s = p +++ after m.
Proof.
  destruct s as [|c s]; [discriminate|]. unfold SEQ_REGEXP_match.
  destruct (Ascii.eqb c Py.dquote || Ascii.eqb c Py.squote)%bool.
  - destruct (quoted_tail c s) as [[t r]|] eqn:Q; [|discriminate].
    destruct (space_or_end r) as [r'|] eqn:E; [|discriminate].
    intros [= <-]. simpl.
    apply quoted_tail_suffix in Q. apply space_or_end_suffix in E.
    destruct E as [p ->]. exists (String c (t +++ p)). simpl.
    now rewrite append_assoc, Q.
  - destruct (digits (String c s)) as [arg r1] eqn:D1.
    destruct arg as [|a arg]; [discriminate|].
    destruct r1 as [|colon r2]; [discriminate|].
    destruct (Ascii.eqb colon ":"); [|discriminate].
    destruct (digits r2) as [ref r3] eqn:D2.
    destruct ref as [|b ref]; [discriminate|].
    destruct (space_or_end r3) as [r'|] eqn:E; [|discriminate].
    intros [= <-]. cbn [after].
    apply digits_suffix in D1. apply digits_suffix in D2.
    apply space_or_end_suffix in E. destruct E as [p ->].
    exists (String a arg +++ String colon (String b ref +++ p)).
    rewrite D1, D2. rewrite !append_assoc. simpl. now rewrite !append_assoc.
Qed.

(** Every position the loop reaches is a suffix of the sequence string. *)
Lemma reaches_suffix (seqstr rest : string) (tokens : list token) :
  reaches seqstr rest tokens -> exists consumed, seqstr = consumed +++ rest.
Proof.
  induction 1 as [|rest tokens m tok _ [p IH] M _].
  - now exists EmptyString.
  - apply SEQ_REGEXP_match_suffix in M. destruct M as [p' M].
    exists (p +++ p'). now rewrite append_assoc, <- M.
Qed.

(** From a reached position the run of [read_sequence] goes on as the
    loop does from there, whatever fuel is enough for what is left. *)
Lemma reaches_loop (seqstr rest : string) (tokens : list token) :
  reaches seqstr rest tokens ->
  forall fuel, (String.length rest < fuel)%nat ->
  read_sequence seqstr = read_sequence_loop fuel rest tokens.
Proof.
  induction 1 as [|rest tokens m tok _ IH M T]; intros fuel Hf.
  - unfold read_sequence. apply read_sequence_loop_fuel; lia.
  - rewrite (IH (S (Nat.max fuel (String.length rest)))) by lia.
    destruct rest as [|c rest]; [discriminate|].
    cbn [read_sequence_loop]. rewrite M, T. cbn [bind].
    apply SEQ_REGEXP_match_consumes in M.
    apply read_sequence_loop_fuel; simpl in *; lia.
Qed.

(** [read_sequence] is total and does what its loop says: it returns the
    tokens of a run that reaches the end of the string, or raises at a
    reached position where nothing is left to do but fail; it never stops
    for lack of fuel. *)
Lemma read_sequence_run (seqstr : string) :
  match read_sequence seqstr with
  | Ok tokens => reaches seqstr EmptyString tokens
  | Raise e =>
      exists rest tokens,
        reaches seqstr rest tokens /\ rest <> EmptyString /\
        match SEQ_REGEXP_match rest with
        | None =>
            e = mkExn SyntaxError ("Not a sequence token: " +++ Py.repr rest)
        | Some m => token_of_match m = Raise e
        end
  end.
Proof.
  assert (G : forall fuel rest tokens,
             (String.length rest < fuel)%nat ->
             reaches seqstr rest tokens ->
             match read_sequence_loop fuel rest tokens with
             | Ok tokens => reaches seqstr EmptyString tokens
             | Raise e =>
                 exists rest tokens,
                   reaches seqstr rest tokens /\ rest <> EmptyString /\
                   match SEQ_REGEXP_match rest with
                   | None =>
                       e = mkExn SyntaxError
                             ("Not a sequence token: " +++ Py.repr rest)
                   | Some m => token_of_match m = Raise e
                   end
             end).
  { induction fuel as [|fuel IH]; intros rest tokens Hf R; [lia|].
    destruct rest as [|c rest]; [exact R|].
    cbn [read_sequence_loop].
    destruct (SEQ_REGEXP_match (String c rest)) as [m|] eqn:M.
    - destruct (token_of_match m) as [tok|e] eqn:T; cbn [bind].
      + apply IH.
        * apply SEQ_REGEXP_match_consumes in M. simpl in *; lia.
        * eapply reaches_next; eauto.
      + exists (String c rest), tokens. rewrite M.
        repeat split; [exact R|discriminate|exact T].
    - unfold raise. exists (String c rest), tokens. rewrite M.
      repeat split; [exact R|discriminate]. }
  apply G; [lia|constructor].
Qed.

(** *** What [repr] writes, [eval] reads back *)

Lemma repr_char_decodes (q c : ascii) (t : string) (pos : Z) :
  is_quote q ->
  exists pos',
    Py.decode_escapes pos (Py.repr_char q c +++ t)
    = (r <- Py.decode_escapes pos' t ;; Ok (String c r)).
Proof.
  intros [-> | ->];
    destruct c as [[|] [|] [|] [|] [|] [|] [|] [|]];
    eexists; cbn; reflexivity.
Qed.

Ltac each_char q c :=
  intros [-> | ->]; destruct c as [[|] [|] [|] [|] [|] [|] [|] [|]].

Lemma repr_char_no_nul (q c : ascii) (t : string) :
  is_quote q ->
  Py.char_in Py.NUL (Py.repr_char q c +++ t) = Py.char_in Py.NUL t.
Proof. each_char q c; reflexivity. Qed.

Lemma repr_char_newlines (q c : ascii) (t : string) :
  is_quote q ->
  Py.translate_newlines (Py.repr_char q c +++ t)
  = Py.repr_char q c +++ Py.translate_newlines t.
Proof. each_char q c; reflexivity. Qed.

Lemma repr_char_terminated (q c : ascii) (t : string) (line : Z) :
  is_quote q ->
  Py.unterminated_line line (Py.repr_char q c +++ t)
  = Py.unterminated_line line t.
Proof. each_char q c; reflexivity. Qed.

Lemma drop_last_append (a : string) (q : ascii) :
  Py.drop_last (a +++ Py.str1 q) = a.
Proof.
  induction a as [|c a IH]; [reflexivity|].
  simpl. rewrite IH. destruct a; reflexivity.
Qed.

Lemma repr_body_decodes (q : ascii) (s : string) :
  is_quote q ->
  forall pos, Py.decode_escapes pos (Py.repr_body q s) = Ok s.
Proof.
  intros Q. induction s as [|c s IH]; intros pos; [reflexivity|].
  simpl. destruct (repr_char_decodes q c (Py.repr_body q s) pos Q) as [p ->].
  now rewrite IH.
Qed.

Lemma repr_body_clean (q : ascii) (s : string) :
  is_quote q ->
  Py.char_in Py.NUL (Py.repr_body q s +++ Py.str1 q) = false /\
  Py.translate_newlines (Py.repr_body q s +++ Py.str1 q)
  = Py.repr_body q s +++ Py.str1 q /\
  forall line, Py.unterminated_line line (Py.repr_body q s) = None.
Proof.
  intros Q. induction s as [|c s [A [B C]]].
  - destruct Q as [-> | ->]; repeat split.
  - simpl. rewrite append_assoc. repeat split.
    + now rewrite repr_char_no_nul.
    + now rewrite repr_char_newlines, B.
    + intros line. now rewrite repr_char_terminated.
Qed.

Lemma repr_quote_is_quote (s : string) : is_quote (Py.repr_quote s).
Proof.
  unfold Py.repr_quote, is_quote.
  destruct (Py.char_in Py.squote s && negb (Py.char_in Py.dquote s))%bool; auto.
Qed.

(** What [repr] writes, [eval] reads back: the quoted text in an error
    message determines the string it was made from. *)
Lemma eval_repr (s : string) : Py.eval (Py.repr s) = Ok s.
Proof.
  unfold Py.repr, Py.eval. pose proof (repr_quote_is_quote s) as Q.
  set (q := Py.repr_quote s) in *.
  destruct (repr_body_clean q s Q) as [A [B C]].
  assert (N : Py.char_in Py.NUL (String q (Py.repr_body q s +++ Py.str1 q))
              = false).
  { simpl. rewrite A. destruct Q as [-> | ->]; reflexivity. }
  rewrite N.
  assert (T : Py.translate_newlines
                (String q (Py.repr_body q s +++ Py.str1 q))
              = String q (Py.repr_body q s +++ Py.str1 q)).
  { cbn [Py.translate_newlines]. rewrite B.
    destruct Q as [-> | ->]; reflexivity. }
  rewrite T, drop_last_append, C. now apply repr_body_decodes.
Qed.

(** C7: the sequence body with a double-quoted [hi there], the reference
    [0:1] and a single-quoted [x] tokenizes to those three tokens; and for
    every sequence string, when no token matches at a position the loop
    has reached, [read_sequence] raises a [SyntaxError] whose message is
    [Not a sequence token: ] followed by the exact remainder of the string
    at that position, written as Python's percent-r writes it: a quoted
    text that evaluates back to exactly that remainder.  The result is
    then the exception alone: no token list is returned. *)
Theorem read_sequence_tokens :
  read_sequence (String Py.dquote ("hi there" +++ String Py.dquote " 0:1 'x'"))
  = Ok [Terminal "hi there"; ArgRef 0 1; Terminal "x"]
  /\
  forall (seqstr rest : string) (tokens : list token),
    reaches seqstr rest tokens ->
    rest <> EmptyString ->
    SEQ_REGEXP_match rest = None ->
    (exists consumed, seqstr = consumed +++ rest) /\
    read_sequence seqstr
    = Raise (mkExn SyntaxError ("Not a sequence token: " +++ Py.repr rest)) /\
    Py.eval (Py.repr rest) = Ok rest.
Proof.
  split; [vm_compute; reflexivity|].
  intros seqstr rest tokens R Hne M. split; [|split].
  - eapply reaches_suffix; eauto.
  - rewrite (reaches_loop _ _ _ R (S (String.length rest))) by lia.
    destruct rest as [|c rest]; [contradiction|].
    cbn [read_sequence_loop]. now rewrite M.
  - apply eval_repr.
Qed.

Lemma read_sequence_tokens_witness :
  reaches "'a' foo" "foo" [Terminal "a"] /\
  ("foo"%string <> EmptyString /\ SEQ_REGEXP_match "foo" = None) /\
  read_sequence "'a' foo"
  = Raise (mkExn SyntaxError "Not a sequence token: 'foo'").
Proof.
  assert (R : reaches "'a' foo" "foo" [Terminal "a"]).
  { exact (reaches_next "'a' foo" "'a' foo" []
             {| group1 := Some "'a'"%string; group2 := None; group3 := None;
                after := "foo" |}
             (Terminal "a") (reaches_start _) eq_refl eq_refl). }
  assert (N : "foo"%string <> EmptyString) by discriminate.
  assert (M : SEQ_REGEXP_match "foo" = None) by reflexivity.
  split; [exact R|]. split; [split; [exact N|exact M]|].
  exact (proj1 (proj2 (proj2 read_sequence_tokens "'a' foo"%string
                         "foo"%string [Terminal "a"] R N M))).
Defined.

(** ** Pragma lines *)

Lemma split_go_word (t : string) (k : option nat) (f : string -> string) :
  Py.split_go k (Some f) t
  = f (Py.word t) :: Py.split_go (Py.dec k) None (Py.after_word t).
Proof.
  revert f. induction t as [|c t IH]; intros f; simpl; [reflexivity|].
  destruct (Py.isspace c) eqn:E; simpl.
  - now rewrite E.
  - apply IH.
Qed.

Lemma split_go_rest (s : string) :
  Py.split_go (Some O) None s
  = match Py.lstrip s with
    | EmptyString => []
    | r => [r]
    end.
Proof.
  induction s as [|c s IH]; simpl; [reflexivity|].
  destruct (Py.isspace c); [exact IH|reflexivity].
Qed.

Lemma lstrip_idem (s : string) : Py.lstrip (Py.lstrip s) = Py.lstrip s.
Proof.
  induction s as [|c s IH]; simpl; [reflexivity|].
  destruct (Py.isspace c) eqn:E; [exact IH|]. simpl. now rewrite E.
Qed.

(** Splitting once a text that does not start with white space gives its
    first word and the rest with leading white space dropped. *)
Lemma whitespace_split_once (tail : string) :
  Py.str_isspace (String.substring 0 1 tail) = false ->
  whitespace_split tail 1
  = [Py.word tail; Py.lstrip (Py.after_word tail)].
Proof.
  intros H. unfold whitespace_split, Py.split. simpl.
  destruct tail as [|c t]; [reflexivity|].
  assert (E : Py.isspace c = false).
  { simpl in H. destruct t; simpl in H;
      destruct (Py.isspace c); simpl in H; congruence. }
  cbn [Py.split_go]. rewrite E. rewrite split_go_word. cbn [Py.dec Nat.pred].
  rewrite split_go_rest. cbn [Py.word Py.after_word]. rewrite E.
  destruct (Py.lstrip (Py.after_word t)); reflexivity.
Qed.

(** ** Dictionaries *)

Section DictFacts.
Context {K V : Type} `{Key K}.
Implicit Types (d : Dict.t K V) (k : K) (v : V).

Lemma key_eqb_refl k : key_eqb k k = true.
Proof. now apply key_eqb_eq. Qed.

Lemma key_eqb_neq k k' : k <> k' -> key_eqb k k' = false.
Proof.
  intros N. destruct (key_eqb k k') eqn:E; [|reflexivity].
  apply key_eqb_eq in E. contradiction.
Qed.

Lemma get_app d d' k :
  Dict.get (d ++ d') k
  = match Dict.get d k with
    | Some v => Some v
    | None => Dict.get d' k
    end.
Proof.
  induction d as [|[k' v'] d IH]; simpl; [reflexivity|].
  destruct (key_eqb k k'); [reflexivity|exact IH].
Qed.

Lemma get_set_same d k v : Dict.get (Dict.set d k v) k = Some v.
Proof.
  induction d as [|[k' v'] d IH]; simpl.
  - now rewrite key_eqb_refl.
  - destruct (key_eqb k k') eqn:E; simpl; rewrite E; [reflexivity|exact IH].
Qed.

Lemma get_set_other d k k' v :
  k' <> k -> Dict.get (Dict.set d k v) k' = Dict.get d k'.
Proof.
  intros N. induction d as [|[k0 v0] d IH]; simpl.
  - now rewrite key_eqb_neq.
  - destruct (key_eqb k k0) eqn:E; simpl.
    + apply key_eqb_eq in E. subst k0. now rewrite (key_eqb_neq _ _ N).
    + destruct (key_eqb k' k0); [reflexivity|exact IH].
Qed.

(** After [d[k] = v] a key reads [v] if it is [k], and as before
    otherwise. *)
Lemma get_set d k k' v :
  Dict.get (Dict.set d k v) k'
  = if key_eqb k' k then Some v else Dict.get d k'.
Proof.
  destruct (key_eqb k' k) eqn:E.
  - apply key_eqb_eq in E. subst. apply get_set_same.
  - apply get_set_other. intros ->. now rewrite key_eqb_refl in E.
Qed.

Lemma get_setdefault d k k' v :
  Dict.get (Dict.setdefault d k v) k'
  = match Dict.get d k' with
    | Some x => Some x
    | None => if key_eqb k' k then Some v else None
    end.
Proof.
  unfold Dict.setdefault, Dict.mem.
  destruct (Dict.get d k) as [x|] eqn:G.
  - destruct (Dict.get d k') eqn:G'; [reflexivity|].
    destruct (key_eqb k' k) eqn:E; [|reflexivity].
    apply key_eqb_eq in E. congruence.
  - rewrite get_app. destruct (Dict.get d k'); [reflexivity|].
    simpl. now destruct (key_eqb k' k).
Qed.

Lemma mem_set d k k' v :
  Dict.mem k' (Dict.set d k v) = (key_eqb k' k || Dict.mem k' d)%bool.
Proof.
  unfold Dict.mem. rewrite get_set. now destruct (key_eqb k' k).
Qed.

Lemma mem_setdefault d k k' v :
  Dict.mem k' (Dict.setdefault d k v) = (key_eqb k' k || Dict.mem k' d)%bool.
Proof.
  unfold Dict.mem. rewrite get_setdefault.
  destruct (Dict.get d k'); [now rewrite orb_true_r|].
  now destruct (key_eqb k' k).
Qed.

End DictFacts.

Lemma get_append_to {K V : Type} `{Key K} (d : Dict.t K (list V)) (k k' : K)
  (x : V) :
  Dict.get (append_to d k x) k'
  = if key_eqb k' k
    then Some (match Dict.get d k with
               | Some l => l ++ [x]
               | None => [x]
               end)
    else Dict.get d k'.
Proof.
  unfold append_to. destruct (Dict.get d k) as [l|] eqn:G.
  - apply get_set.
  - rewrite get_app. simpl. destruct (key_eqb k' k) eqn:E.
    + apply key_eqb_eq in E. subst. now rewrite G.
    + now destruct (Dict.get d k').
Qed.

(** The naming of pragmas: the line [: encoding utf8] is recorded under
    the no-name key [None] with the payload list holding [encoding utf8].
    For every pragma line, a marker followed by a white-space character
    records the stripped remainder under [None]; a marker followed by
    nothing records an empty payload under the empty name, not under
    [None]; a marker followed by any other character records a named
    pragma, the name being the text up to the first white space and the
    payload the stripped rest. *)
Theorem pragma_naming :
  (forall validate : bool,
     read_grammar (plain [": encoding utf8"%string]) validate
     = ([], Ok [ ("pragmas", Pragmas [(None, ["encoding utf8"])]);
                 ("functions", Functions []);
                 ("linearizations", Linearizations []);
                 ("sequences", Sequences []);
                 ("scores", Scores []);
                 ("nonterms", Nonterms []) ]%string))
  /\
  forall (st : state) (line tail : string),
    Py.lstrip line = String ":" tail ->
    (forall c t, tail = String c t -> Py.isspace c = true ->
       process_line st line = Ok (add_pragma st None (Py.strip tail)))
    /\
    (tail = EmptyString ->
       process_line st line
       = Ok (add_pragma st (Some EmptyString) EmptyString))
    /\
    (forall c t, tail = String c t -> Py.isspace c = false ->
       process_line st line
       = Ok (add_pragma st (Some (Py.word tail))
               (Py.strip (Py.after_word tail)))
       /\ Py.word tail <> EmptyString).
Proof.
  split; [intros []; reflexivity|].
  intros st line tail H.
  assert (P : process_line st line = pragma_line st tail).
  { unfold process_line. rewrite H. reflexivity. }
  rewrite P. unfold pragma_line. repeat split.
  - intros c t -> E. simpl. rewrite E. destruct t; reflexivity.
  - intros ->. reflexivity.
  - subst tail.
    assert (S : Py.str_isspace (String.substring 0 1 (String c t)) = false).
    { simpl. destruct t; simpl; rewrite H1; reflexivity. }
    rewrite S, (whitespace_split_once _ S). cbn [unpack2 bind].
    unfold Py.strip. now rewrite lstrip_idem.
  - subst tail. simpl. rewrite H1. discriminate.
Qed.

(** ** Score lines *)

Lemma read_lines_app (st : state) (a b : list input_line) :
  read_lines st (a ++ b) = st' <- read_lines st a ;; read_lines st' b.
Proof.
  revert st. induction a as [|l a IH]; intros st; simpl; [reflexivity|].
  destruct (step st l); simpl; [apply IH|reflexivity].
Qed.

(** An exception raised at a line ends the whole read with that
    exception and no warning. *)
Lemma read_grammar_raise (pre post : list input_line) (l : input_line)
  (st : state) (e : exn) (validate : bool) :
  read_lines initial pre = Ok st ->
  step st l = Raise e ->
  read_grammar (pre ++ l :: post) validate = ([], Raise e).
Proof.
  intros Hpre Hl. unfold read_grammar.
  rewrite read_lines_app, Hpre. simpl. now rewrite Hl.
Qed.

Lemma split_go_length (s : string) :
  forall (k : nat) (w : option (string -> string)),
    (length (Py.split_go (Some k) w s)
     <= match w with
        | None => S k
        | Some _ => S (Nat.max k 1)
        end)%nat.
Proof.
  induction s as [|c s IH]; intros k w; simpl.
  - destruct w; simpl; lia.
  - destruct w as [f|].
    + destruct (Py.isspace c); simpl.
      * specialize (IH (Nat.pred k) None). simpl in IH. lia.
      * apply (IH k (Some (fun r => f (String c r)))).
    + destruct (Py.isspace c).
      * apply (IH k None).
      * destruct k as [|k]; simpl; [lia|].
        specialize (IH (S k) (Some (String c))). simpl in IH. lia.
Qed.

(** With a limit, [whitespace_split] always returns that many pieces plus
    one: the unpacking into identifier, keyword and rest cannot fail. *)
Lemma whitespace_split_length (s : string) (nrsplits : Z) :
  0 <= nrsplits ->
  length (whitespace_split s nrsplits) = Z.to_nat (nrsplits + 1).
Proof.
  intros H. unfold whitespace_split, Py.split.
  destruct (nrsplits <? 0) eqn:N; [lia|].
  pose proof (split_go_length s (Z.to_nat nrsplits) None) as L.
  cbn beta iota in L.
  destruct (nrsplits >=? 0) eqn:G; [|lia]. simpl.
  destruct (Z.of_nat (length (Py.split_go (Some (Z.to_nat nrsplits)) None s))
            <=? nrsplits) eqn:E.
  - rewrite length_app, repeat_length. lia.
  - lia.
Qed.

Lemma whitespace_split_three (s : string) :
  exists ident keyword rest, whitespace_split s 2 = [ident; keyword; rest].
Proof.
  pose proof (whitespace_split_length s 2 ltac:(lia)) as L.
  destruct (whitespace_split s 2) as [|a [|b [|c [|d l]]]]; try discriminate.
  now exists a, b, c.
Qed.

(** C9: on a declaration line whose keyword is none of the three markers,
    the keyword is read as a score, by [int] first and by [float] second.
    If neither accepts it the read ends with a [SyntaxError]; if one does
    and the rest of the line is not empty the read ends with a
    [SyntaxError] as well.  (A line whose first field is no identifier
    ends with a [SyntaxError] before the keyword is looked at.)  With an
    empty rest and no score yet for the identifier, the score recorded is
    the integer when [int] accepts the keyword, otherwise the float. *)
Theorem score_keyword
  (pre : list input_line) (st : state) (l : input_line) (c : ascii)
  (tail ident keyword rest : string) :
  read_lines initial pre = Ok st ->
  Py.lstrip (text l) = String c tail ->
  Py.char_in c COMMENT = false ->
  Py.str1 c <> PRAGMA ->
  whitespace_split (String c tail) 2 = [ident; keyword; rest] ->
  keyword <> RULE -> keyword <> LINEARIZATION -> keyword <> SEQUENCE ->
  (Py.int keyword = None -> Binary64.parse keyword = None ->
   forall post validate,
     read_grammar (pre ++ l :: post) validate
     = ([], Raise (mkExn SyntaxError
                     ((if is_identifier ident
                       then "Not a correct score: " +++ Py.repr keyword
                       else "Not an identifier: " +++ Py.repr ident)
                      +++ " " +++ context l))))
  /\
  (rest <> EmptyString ->
   Py.int keyword <> None \/ Binary64.parse keyword <> None ->
   forall post validate,
     read_grammar (pre ++ l :: post) validate
     = ([], Raise (mkExn SyntaxError
                     ((if is_identifier ident
                       then "Extra information in score declaration: "
                            +++ Py.repr rest
                       else "Not an identifier: " +++ Py.repr ident)
                      +++ " " +++ context l))))
  /\
  (is_identifier ident = true -> rest = EmptyString ->
   Dict.mem ident (scores st) = false ->
   (forall n, Py.int keyword = Some n ->
      read_lines initial (pre ++ [l]) = Ok (add_score st ident (IntScore n)))
   /\
   (forall x, Py.int keyword = None -> Binary64.parse keyword = Some x ->
      read_lines initial (pre ++ [l])
      = Ok (add_score st ident (FloatScore x)))).
Proof.
  intros Hpre Hl Hc Hp Hs Hr Hlin Hseq.
  assert (P : process_line st (text l)
              = if negb (is_identifier ident)
                then raise SyntaxError ("Not an identifier: " +++ Py.repr ident)
                else score_declaration st ident keyword rest).
  { unfold process_line. rewrite Hl, Hc.
    apply String.eqb_neq in Hp. rewrite Hp.
    unfold declaration_line. rewrite Hs. cbn [unpack3 bind].
    apply String.eqb_neq in Hr, Hlin, Hseq. now rewrite Hr, Hlin, Hseq. }
  repeat split.
  - intros Hi Hf post validate. eapply read_grammar_raise; [exact Hpre|].
    unfold step. rewrite P.
    destruct (is_identifier ident); [|reflexivity]. simpl.
    unfold score_declaration, parse_score. now rewrite Hi, Hf.
  - intros Hne Hsome post validate.
    eapply read_grammar_raise; [exact Hpre|].
    unfold step. rewrite P.
    destruct (is_identifier ident); [|reflexivity]. simpl.
    unfold score_declaration, parse_score.
    destruct (Py.int keyword) as [n|].
    + destruct rest; [contradiction|reflexivity].
    + destruct (Binary64.parse keyword) as [x|].
      * destruct rest; [contradiction|reflexivity].
      * destruct Hsome; contradiction.
  - intros n Hn. rewrite read_lines_app, Hpre. simpl.
    unfold step. rewrite P, H. simpl.
    unfold score_declaration, parse_score. rewrite Hn, H0. simpl.
    now rewrite H1.
  - intros x Hn Hx. rewrite read_lines_app, Hpre. simpl.
    unfold step. rewrite P, H. simpl.
    unfold score_declaration, parse_score. rewrite Hn, Hx, H0. simpl.
    now rewrite H1.
Qed.

(** ** What a successful read has registered *)

(** The invariant of the loop, after the lines [seen]: every sequence a
    linearization names and every right-hand-side nonterminal of a rule is
    a key; a sequence has a body only if a line declared one; a
    nonterminal has an arity only if it is the left-hand side of a rule of
    a function whose linearization has that length. *)
Record registered (seen : list input_line) (st : state) : Prop := {
  sequences_present :
    forall fn lin seq,
      Dict.get (linearizations st) fn = Some lin -> In seq lin ->
      Dict.mem seq (sequences st) = true;
  rhs_present :
    forall fn rules lhs rhs r,
      Dict.get (functions st) fn = Some rules -> In (lhs, rhs) rules ->
      In r rhs -> Dict.mem r (nonterms st) = true;
  body_declared :
    forall seq tokens,
      Dict.get (sequences st) seq = Some (Some tokens) ->
      exists l, In l seen /\ declared_sequence (text l) = Some seq;
  arity_inferred :
    forall nt a,
      Dict.get (nonterms st) nt = Some (Some a) ->
      exists fn lin rules rhs,
        Dict.get (linearizations st) fn = Some lin /\
        Z.of_nat (length lin) = a /\
        Dict.get (functions st) fn = Some rules /\ In (nt, rhs) rules;
  fun_arity_length :
    forall fn a,
      Dict.get (fun_arities st) fn = Some a ->
      exists lin,
        Dict.get (linearizations st) fn = Some lin /\
        Z.of_nat (length lin) = a
}.

Lemma registered_initial : registered [] initial.
Proof. split; simpl; intros; discriminate. Qed.

Lemma registered_seen (seen seen' : list input_line) (st : state) :
  incl seen seen' -> registered seen st -> registered seen' st.
Proof.
  intros I [A B C D E]. split; auto.
  intros seq tokens G. destruct (C _ _ G) as [l [L1 L2]]. eauto.
Qed.

Lemma mem_true_get {V : Type} (d : Dict.t string V) (k : string) :
  Dict.mem k d = true <-> exists v, Dict.get d k = Some v.
Proof.
  unfold Dict.mem. destruct (Dict.get d k) as [v|].
  - split; eauto.
  - split; [discriminate|intros [v E]; discriminate].
Qed.

Lemma match_arity_cases (nts nts' : Dict.t string (option Z))
  (lhs fn : string) (fa : Z) :
  match_arity nts lhs fn fa = Ok nts' ->
  nts' = nts \/ nts' = Dict.set nts lhs (Some fa).
Proof.
  unfold match_arity. destruct (get_value nts lhs) as [la|].
  - destruct (negb (la =? fa)); [discriminate|]. intros [= <-]. now left.
  - intros [= <-]. now right.
Qed.

Lemma match_arity_mem (nts nts' : Dict.t string (option Z))
  (lhs fn : string) (fa : Z) (k : string) :
  match_arity nts lhs fn fa = Ok nts' ->
  Dict.mem k nts = true -> Dict.mem k nts' = true.
Proof.
  intros M Hk. destruct (match_arity_cases _ _ _ _ _ M) as [->| ->]; auto.
  rewrite mem_set, Hk. apply orb_true_r.
Qed.

Lemma match_arity_get (nts nts' : Dict.t string (option Z))
  (lhs fn : string) (fa : Z) (k : string) (a : Z) :
  match_arity nts lhs fn fa = Ok nts' ->
  Dict.get nts' k = Some (Some a) ->
  Dict.get nts k = Some (Some a) \/ (k = lhs /\ a = fa).
Proof.
  intros M G. destruct (match_arity_cases _ _ _ _ _ M) as [->| ->]; auto.
  rewrite get_set in G. destruct (key_eqb k lhs) eqn:E; auto.
  apply key_eqb_eq in E. right. split; congruence.
Qed.

Lemma propagate_arity_mem (rules : list rule) :
  forall (nts nts' : Dict.t string (option Z)) (fn : string) (fa : Z)
    (k : string),
    propagate_arity nts rules fn fa = Ok nts' ->
    Dict.mem k nts = true -> Dict.mem k nts' = true.
Proof.
  induction rules as [|[lhs rhs] rules IH]; intros nts nts' fn fa k; simpl.
  - now intros [= <-].
  - destruct (match_arity nts lhs fn fa) as [nts1|] eqn:M; [|discriminate].
    simpl. intros P Hk. eapply IH; eauto. eapply match_arity_mem; eauto.
Qed.

Lemma propagate_arity_get (rules : list rule) :
  forall (nts nts' : Dict.t string (option Z)) (fn : string) (fa : Z)
    (k : string) (a : Z),
    propagate_arity nts rules fn fa = Ok nts' ->
    Dict.get nts' k = Some (Some a) ->
    Dict.get nts k = Some (Some a)
    \/ (a = fa /\ exists rhs, In (k, rhs) rules).
Proof.
  induction rules as [|[lhs rhs] rules IH]; intros nts nts' fn fa k a; simpl.
  - intros [= <-]. now left.
  - destruct (match_arity nts lhs fn fa) as [nts1|] eqn:M; [|discriminate].
    simpl. intros P G.
    destruct (IH _ _ _ _ _ _ P G) as [G1|[-> [rhs' I]]].
    + destruct (match_arity_get _ _ _ _ _ _ _ M G1) as [G0|[-> ->]]; auto.
      right. split; [reflexivity|]. exists rhs. now left.
    + right. split; [reflexivity|]. exists rhs'. now right.
Qed.

Lemma register_rhs_facts (st : state) (rhs : list string) :
  forall nts nts' : Dict.t string (option Z),
    register_rhs st nts rhs = Ok nts' ->
    (forall k, Dict.mem k nts = true -> Dict.mem k nts' = true) /\
    (forall r, In r rhs -> Dict.mem r nts' = true) /\
    (forall k a, Dict.get nts' k = Some (Some a) ->
                 Dict.get nts k = Some (Some a)).
Proof.
  induction rhs as [|r rhs IH]; intros nts nts'; simpl.
  - intros [= <-]. repeat split; auto; intros ? [].
  - destruct (Dict.mem r (linearizations st) || Dict.mem r (functions st)
              || Dict.mem r (sequences st))%bool; [discriminate|].
    intros R. destruct (IH _ _ R) as [A [B C]]. repeat split.
    + intros k Hk. apply A. rewrite mem_setdefault, Hk. apply orb_true_r.
    + intros r' [<-|I]; [|now apply B].
      apply A. rewrite mem_setdefault.
      change (key_eqb r r) with (String.eqb r r). now rewrite String.eqb_refl.
    + intros k a G. apply C in G. rewrite get_setdefault in G.
      destruct (Dict.get nts k); [exact G|].
      destruct (key_eqb k r); discriminate.
Qed.

Lemma register_sequences_facts (lin : list string) :
  forall seqs : Dict.t string (option (list token)),
    let seqs' :=
      fold_left (fun sequences seq => Dict.setdefault sequences seq None)
        lin seqs in
    (forall k, Dict.mem k seqs = true -> Dict.mem k seqs' = true) /\
    (forall s, In s lin -> Dict.mem s seqs' = true) /\
    (forall k t, Dict.get seqs' k = Some (Some t) ->
                 Dict.get seqs k = Some (Some t)).
Proof.
  induction lin as [|s lin IH]; intros seqs; simpl.
  - repeat split; auto; intros ? [].
  - destruct (IH (Dict.setdefault seqs s None)) as [A [B C]]. repeat split.
    + intros k Hk. apply A. rewrite mem_setdefault, Hk. apply orb_true_r.
    + intros s' [<-|I]; [|now apply B].
      apply A. rewrite mem_setdefault.
      change (key_eqb s s) with (String.eqb s s). now rewrite String.eqb_refl.
    + intros k t G. apply C in G. rewrite get_setdefault in G.
      destruct (Dict.get seqs k); [exact G|].
      destruct (key_eqb k s); discriminate.
Qed.

Lemma rule_declaration_registered (seen : list input_line) (st st' : state)
  (ident rest : string) :
  registered seen st -> rule_declaration st ident rest = Ok st' ->
  registered seen st'.
Proof.
  intros [A B C D E]. unfold rule_declaration.
  destruct (read_rule rest) as [[lhs rhs]|]; [|discriminate].
  cbn [bind]. cbv zeta. cbn [fun_arities nonterms linearizations sequences functions].
  set (fs := append_to (functions st) ident (lhs, rhs)).
  match goal with |- context [register_rhs ?s _ _] => set (st1 := s) end.
  destruct (match Dict.get (fun_arities st) ident with
            | Some fun_arity => match_arity (nonterms st) lhs ident fun_arity
            | None => Ok (nonterms st)
            end) as [nts1|] eqn:M; [|discriminate].
  cbn [bind].
  destruct (register_rhs st1 nts1 rhs) as [nts2|] eqn:R; [|discriminate].
  cbn [bind].
  destruct (Dict.mem lhs (linearizations st) || Dict.mem lhs fs
            || Dict.mem lhs (sequences st))%bool; [discriminate|].
  destruct (Dict.mem ident nts2 || Dict.mem ident (sequences st))%bool;
    [discriminate|].
  intros [= <-].
  destruct (register_rhs_facts _ _ _ _ R) as [R1 [R2 R3]].
  assert (M1 : forall k, Dict.mem k (nonterms st) = true -> Dict.mem k nts1 = true).
  { destruct (Dict.get (fun_arities st) ident).
    - intros k. eapply match_arity_mem; eauto.
    - injection M as <-. auto. }
  assert (F : forall fn rules, Dict.get (functions st) fn = Some rules ->
              exists rules', Dict.get fs fn = Some rules' /\ incl rules rules').
  { intros fn rules G. unfold fs. rewrite get_append_to.
    destruct (key_eqb fn ident) eqn:K.
    - apply key_eqb_eq in K. subst fn. rewrite G.
      eexists; split; [reflexivity|]. apply incl_appl, incl_refl.
    - eexists; split; [exact G|apply incl_refl]. }
  split; cbn [linearizations sequences functions nonterms fun_arities].
  - exact A.
  - intros fn rules l0 r0 r G I Ir. unfold fs in G. rewrite get_append_to in G.
    destruct (key_eqb fn ident) eqn:K.
    + apply key_eqb_eq in K. subst fn. injection G as <-.
      assert (I' : (exists old, Dict.get (functions st) ident = Some old /\ In (l0, r0) old)
                   \/ (l0, r0) = (lhs, rhs)).
      { destruct (Dict.get (functions st) ident) as [old|].
        - apply in_app_or in I. destruct I as [I|[I|[]]]; [left; eauto|right; auto].
        - destruct I as [I|[]]. right; auto. }
      destruct I' as [[old [G I']]|[= -> ->]].
      * apply R1, M1. eapply B; eauto.
      * now apply R2.
    + apply R1, M1. eapply B; eauto.
  - exact C.
  - intros nt a G. apply R3 in G.
    assert (G' : Dict.get (nonterms st) nt = Some (Some a)
                 \/ exists fa, Dict.get (fun_arities st) ident = Some fa /\ nt = lhs /\ a = fa).
    { destruct (Dict.get (fun_arities st) ident) as [fa|].
      - destruct (match_arity_get _ _ _ _ _ _ _ M G) as [G0|[-> ->]]; eauto.
      - injection M as <-. auto. }
    destruct G' as [G0|[fa [Hfa [-> ->]]]].
    + destruct (D _ _ G0) as [fn [lin [rules [rhs0 [L [Len [Fn I]]]]]]].
      destruct (F _ _ Fn) as [rules' [Fn' Inc]].
      exists fn, lin, rules', rhs0. auto.
    + destruct (E _ _ Hfa) as [lin [L Len]].
      exists ident, lin. eexists. exists rhs.
      repeat split; [exact L|exact Len| |].
      * unfold fs. rewrite get_append_to.
        change (key_eqb ident ident) with (String.eqb ident ident).
        rewrite String.eqb_refl. reflexivity.
      * destruct (Dict.get (functions st) ident); [apply in_or_app; right|]; now left.
  - exact E.
Qed.

Lemma linearization_declaration_registered (seen : list input_line)
  (st st' : state) (ident rest : string) :
  registered seen st -> linearization_declaration st ident rest = Ok st' ->
  registered seen st'.
Proof.
  intros [A B C D E]. unfold linearization_declaration.
  destruct (read_linearization rest) as [lin|]; [|discriminate].
  cbn [bind].
  destruct (Dict.get (linearizations st) ident) as [old|] eqn:L0;
    [discriminate|].
  cbv zeta.
  set (rules := match Dict.get (functions st) ident with
                | Some rules => rules
                | None => []
                end).
  destruct (propagate_arity (nonterms st) rules ident
              (Z.of_nat (length lin))) as [nts|] eqn:P; [|discriminate].
  cbn [bind].
  set (seqs := fold_left _ lin (sequences st)).
  destruct (Dict.mem ident nts || Dict.mem ident seqs)%bool; [discriminate|].
  intros [= <-].
  destruct (register_sequences_facts lin (sequences st)) as [S1 [S2 S3]].
  fold seqs in S1, S2, S3.
  assert (L : forall fn l, fn <> ident ->
              Dict.get (Dict.set (linearizations st) ident lin) fn = Some l
              <-> Dict.get (linearizations st) fn = Some l).
  { intros fn l N. now rewrite get_set_other. }
  assert (N : forall fn l, Dict.get (linearizations st) fn = Some l ->
              fn <> ident) by (intros fn l G ->; congruence).
  split; cbn [linearizations sequences functions nonterms fun_arities].
  - intros fn l seq G I. rewrite get_set in G.
    destruct (key_eqb fn ident) eqn:K.
    + injection G as <-. now apply S2.
    + apply S1. eapply A; eauto.
  - intros fn rs l0 r0 r G I Ir. eapply propagate_arity_mem; eauto.
  - intros seq tokens G. apply S3 in G. eauto.
  - intros nt a G.
    destruct (propagate_arity_get _ _ _ _ _ _ _ P G) as [G0|[-> [rhs I]]].
    + destruct (D _ _ G0) as [fn [l [rs [rhs0 [Lf [Len [Fn I]]]]]]].
      exists fn, l, rs, rhs0. repeat split; auto.
      apply L; eauto.
    + exists ident, lin, rules, rhs. repeat split; auto.
      * apply get_set_same.
      * unfold rules in *. destruct (Dict.get (functions st) ident);
          [reflexivity|destruct I].
  - intros fn a G. rewrite get_set in G.
    destruct (key_eqb fn ident) eqn:K.
    + apply key_eqb_eq in K. subst fn. injection G as <-.
      exists lin. split; [apply get_set_same|reflexivity].
    + destruct (E _ _ G) as [l [Lf Len]]. exists l. split; [|exact Len].
      apply L; eauto.
Qed.

Lemma sequence_declaration_registered (seen : list input_line)
  (st st' : state) (ident rest : string) :
  registered seen st ->
  (exists l, In l seen /\ declared_sequence (text l) = Some ident) ->
  sequence_declaration st ident rest = Ok st' ->
  registered seen st'.
Proof.
  intros [A B C D E] Hl. unfold sequence_declaration.
  destruct (read_sequence rest) as [tokens|]; [|discriminate].
  cbn [bind].
  destruct (get_value (sequences st) ident); [discriminate|].
  cbv zeta.
  destruct (Dict.mem ident (nonterms st) || Dict.mem ident (linearizations st)
            || Dict.mem ident (functions st))%bool; [discriminate|].
  intros [= <-].
  split; cbn [linearizations sequences functions nonterms fun_arities]; auto.
  - intros fn l seq G I. rewrite mem_set. erewrite A by eauto.
    apply orb_true_r.
  - intros seq toks G. rewrite get_set in G.
    destruct (key_eqb seq ident) eqn:K.
    + apply key_eqb_eq in K. now subst seq.
    + eauto.
Qed.

Lemma score_declaration_registered (seen : list input_line)
  (st st' : state) (ident keyword rest : string) :
  registered seen st -> score_declaration st ident keyword rest = Ok st' ->
  registered seen st'.
Proof.
  intros [A B C D E]. unfold score_declaration.
  destruct (parse_score keyword); [|discriminate]. cbn [bind].
  destruct rest; [|discriminate].
  destruct (Dict.mem ident (scores st)); [discriminate|].
  intros [= <-]. now split.
Qed.

Lemma pragma_line_registered (seen : list input_line) (st st' : state)
  (tail : string) :
  registered seen st -> pragma_line st tail = Ok st' -> registered seen st'.
Proof.
  intros [A B C D E]. unfold pragma_line.
  destruct (if Py.str_isspace (String.substring 0 1 tail) then _ else _)
    as [[pragma info]|]; [|discriminate].
  cbn [bind]. intros [= <-]. now split.
Qed.

(** One line keeps the invariant. *)
Lemma process_line_registered (seen : list input_line) (st st' : state)
  (l : input_line) :
  registered seen st -> process_line st (text l) = Ok st' ->
  registered (seen ++ [l]) st'.
Proof.
  intros R. apply (registered_seen seen (seen ++ [l]) st) in R;
    [|apply incl_appl, incl_refl].
  unfold process_line.
  destruct (Py.lstrip (text l)) as [|c tail] eqn:Hl.
  - now intros [= <-].
  - destruct (Py.char_in c COMMENT) eqn:Hc; [now intros [= <-]|].
    destruct (String.eqb (Py.str1 c) PRAGMA) eqn:Hp.
    + apply (pragma_line_registered _ _ _ _ R).
    + unfold declaration_line.
      destruct (whitespace_split (String c tail) 2)
        as [|ident [|keyword [|rest [|x fields]]]] eqn:Hs;
        try discriminate.
      cbn [unpack3 bind].
      destruct (negb (is_identifier ident)); [discriminate|].
      destruct (String.eqb keyword RULE);
        [apply (rule_declaration_registered _ _ _ _ _ R)|].
      destruct (String.eqb keyword LINEARIZATION);
        [apply (linearization_declaration_registered _ _ _ _ _ R)|].
      destruct (String.eqb keyword SEQUENCE) eqn:Hq;
        [|apply (score_declaration_registered _ _ _ _ _ _ R)].
      apply sequence_declaration_registered; [exact R|].
      exists l. split; [apply in_or_app; right; now left|].
      unfold declared_sequence. now rewrite Hl, Hc, Hp, Hs, Hq.
Qed.

Lemma step_ok (st st' : state) (l : input_line) :
  step st l = Ok st' <-> process_line st (text l) = Ok st'.
Proof.
  unfold step. destruct (process_line st (text l)); split; congruence.
Qed.

Lemma read_lines_registered (lines : list input_line) :
  forall (seen : list input_line) (st st' : state),
    registered seen st -> read_lines st lines = Ok st' ->
    registered (seen ++ lines) st'.
Proof.
  induction lines as [|l lines IH]; intros seen st st' R; simpl.
  - intros [= <-]. now rewrite app_nil_r.
  - destruct (step st l) as [st1|] eqn:S; [|discriminate]. cbn [bind].
    intros H. apply step_ok in S.
    replace (seen ++ l :: lines) with ((seen ++ [l]) ++ lines)
      by (now rewrite <- app_assoc).
    eapply IH; [|exact H]. eapply process_line_registered; eauto.
Qed.

(** The value [read_grammar] returns is the model of the state the loop
    ended in; the sweep changes nothing. *)
Lemma read_grammar_ok (lines : list input_line) (validate : bool)
  (warnings : list warning) (g : grammar) :
  read_grammar lines validate = (warnings, Ok g) ->
  exists st, read_lines initial lines = Ok st /\ g = grammar_of st.
Proof.
  unfold read_grammar, lift, and_then, ret.
  destruct (read_lines initial lines) as [st|]; [|discriminate].
  destruct (if validate then sweep st else ([], Ok tt)) as [w [[]|e]];
    [|discriminate].
  intros [= _ <-]. eauto.
Qed.

(** C10: the dictionary a successful [read_grammar] returns has exactly
    the six keys pragmas, functions, linearizations, sequences, scores and
    nonterms.  Every sequence identifier a linearization names is a key of
    the sequences mapping, with value [None] when no line of the input
    declared a body for it; every right-hand-side nonterminal of a rule is
    a key of the nonterms mapping, with value [None] when its arity was
    never inferred, that is when it is the left-hand side of no rule of a
    function that has a linearization. *)
Theorem read_grammar_placeholders
  (lines : list input_line) (validate : bool) (warnings : list warning)
  (g : grammar) :
  read_grammar lines validate = (warnings, Ok g) ->
  Dict.keys g
  = ["pragmas"; "functions"; "linearizations"; "sequences"; "scores";
     "nonterms"]%string
  /\
  exists p f l s sc n,
    g = [ ("pragmas", Pragmas p); ("functions", Functions f);
          ("linearizations", Linearizations l); ("sequences", Sequences s);
          ("scores", Scores sc); ("nonterms", Nonterms n) ]%string
    /\
    (forall fn lin seq,
       Dict.get l fn = Some lin -> In seq lin ->
       Dict.mem seq s = true /\
       ((forall line, In line lines ->
           declared_sequence (text line) <> Some seq) ->
        Dict.get s seq = Some None))
    /\
    (forall fn rules lhs rhs r,
       Dict.get f fn = Some rules -> In (lhs, rhs) rules -> In r rhs ->
       Dict.mem r n = true /\
       ((forall fn' lin' rules' rhs',
           Dict.get l fn' = Some lin' -> Dict.get f fn' = Some rules' ->
           ~ In (r, rhs') rules') ->
        Dict.get n r = Some None)).
Proof.
  intros H. destruct (read_grammar_ok _ _ _ _ H) as [st [L ->]].
  split; [reflexivity|].
  pose proof (read_lines_registered lines [] initial st registered_initial L)
    as [A B C D E].
  simpl in C.
  exists (pragmas st), (functions st), (linearizations st), (sequences st),
    (scores st), (nonterms st).
  split; [reflexivity|]. split.
  - intros fn lin seq G I. pose proof (A _ _ _ G I) as M.
    split; [exact M|]. intros Hno.
    apply mem_true_get in M. destruct M as [[tokens|] M]; [|exact M].
    destruct (C _ _ M) as [line [I1 I2]]. now apply Hno in I2.
  - intros fn rules lhs rhs r G I Ir. pose proof (B _ _ _ _ _ G I Ir) as M.
    split; [exact M|]. intros Hno.
    apply mem_true_get in M. destruct M as [[a|] M]; [|exact M].
    destruct (D _ _ M) as [fn' [lin' [rules' [rhs' [G1 [_ [G2 I']]]]]]].
    now apply (Hno _ _ _ _ G1 G2) in I'.
Qed.


(** ** Errors and their context *)

Lemma and_then_raise {L A B : Type} (c : effects L A) (k : A -> effects L B)
  (log : list L) (e : exn) :
  and_then c k = (log, Raise e) ->
  (exists log', c = (log', Raise e))
  \/ (exists log1 a log2, c = (log1, Ok a) /\ k a = (log2, Raise e)).
Proof.
  unfold and_then. destruct c as [log1 [a|e']].
  - destruct (k a) as [log2 r] eqn:K. intros [= _ ->]. right. eauto.
  - intros [= _ ->]. left. eauto.
Qed.

Lemma for_each_raise {L A : Type} (f : A -> effects L unit) (l : list A)
  (log : list L) (e : exn) :
  for_each f l = (log, Raise e) ->
  exists x log', In x l /\ f x = (log', Raise e).
Proof.
  revert log. induction l as [|x l IH]; intros log; simpl.
  - discriminate.
  - intros H. apply and_then_raise in H.
    destruct H as [[log' H]|[log1 [[] [log2 [H1 H2]]]]].
    + exists x, log'. auto.
    + destruct (IH _ H2) as [y [log' [I F]]]. exists y, log'. auto.
Qed.

Lemma lookup_raise {V : Type} (d : Dict.t string V) (k : string) (e : exn) :
  lookup d k = Raise e -> lookup_failure e.
Proof.
  unfold lookup. destruct (Dict.get d k); [discriminate|].
  intros [= <-]. now left.
Qed.

Lemma getitem_raise {A : Type} (l : list A) (i : Z) (e : exn) :
  getitem l i = Raise e -> lookup_failure e.
Proof.
  unfold getitem.
  destruct (if (if i <? 0 then i + Z.of_nat (length l) else i) <? 0
            then None
            else nth_error l
                   (Z.to_nat (if i <? 0 then i + Z.of_nat (length l) else i)));
    [discriminate|].
  intros [= <-]. right. now left.
Qed.

Lemma merge_arities_raise (seq_arities : Dict.t string (Dict.t Z Z))
  (lin : list string) :
  forall (arities : Dict.t Z Z) (e : exn),
    merge_arities seq_arities arities lin = Raise e -> lookup_failure e.
Proof.
  induction lin as [|seq lin IH]; intros arities e; simpl; [discriminate|].
  destruct (lookup seq_arities seq) as [items|e'] eqn:L; simpl.
  - apply IH.
  - intros [= <-]. eapply lookup_raise; eauto.
Qed.

Lemma check_reference_raise (st : state) (fn : string) (rhs : list string)
  (item : Z * Z) (log : list warning) (e : exn) :
  check_reference st fn rhs item = (log, Raise e) -> lookup_failure e.
Proof.
  unfold check_reference. destruct item as [arg maxref]. intros H.
  apply and_then_raise in H.
  destruct H as [[log' H]|[log1 [[] [log2 [_ H]]]]].
  - destruct (arg >=? Z.of_nat (length rhs)); discriminate.
  - apply and_then_raise in H.
    destruct H as [[log' H]|[log3 [nt [log4 [_ H]]]]].
    + injection H as _ H. eapply getitem_raise; eauto.
    + destruct (get_value (nonterms st) nt) as [a|]; [|discriminate].
      destruct (a <=? maxref); discriminate.
Qed.

Lemma check_rule_raise (st : state) (fn : string) (fun_arity : Z)
  (arities : Dict.t Z Z) (r : rule) (log : list warning) (e : exn) :
  check_rule st fn fun_arity arities r = (log, Raise e) -> lookup_failure e.
Proof.
  unfold check_rule. destruct r as [lhs rhs]. intros H.
  apply and_then_raise in H.
  destruct H as [[log' H]|[log1 [lhs_arity [log2 [_ H]]]]].
  - injection H as _ H. eapply lookup_raise; eauto.
  - apply and_then_raise in H.
    destruct H as [[log' H]|[log3 [[] [log4 [_ H]]]]].
    + destruct (match lhs_arity with
                | Some a => negb (fun_arity =? a)
                | None => true
                end); [|discriminate].
      destruct (ident st); [discriminate|].
      injection H as _ <-. right. now right.
    + apply for_each_raise in H. destruct H as [item [log' [_ H]]].
      eapply check_reference_raise; eauto.
Qed.

(** The exceptions of the sweep are look-up failures, never the errors
    the handler of the loop deals with. *)
Lemma sweep_raise (st : state) (log : list warning) (e : exn) :
  sweep st = (log, Raise e) -> lookup_failure e.
Proof.
  unfold sweep. intros H.
  apply and_then_raise in H.
  destruct H as [[log' H]|[log1 [[] [log2 [_ H]]]]].
  { destruct (undefined (nonterms st)); discriminate. }
  apply and_then_raise in H.
  destruct H as [[log' H]|[log3 [[] [log4 [_ H]]]]].
  { destruct (undefined (sequences st)); discriminate. }
  apply for_each_raise in H. destruct H as [[fn rules] [log' [_ H]]].
  unfold check_function in H.
  destruct (Dict.get (linearizations st) fn) as [lin|]; [|discriminate].
  apply and_then_raise in H.
  destruct H as [[log5 H]|[log5 [arities [log6 [_ H]]]]].
  { injection H as _ H. eapply merge_arities_raise; eauto. }
  apply and_then_raise in H.
  destruct H as [[log7 H]|[log7 [fa [log8 [_ H]]]]].
  { injection H as _ H. eapply lookup_raise; eauto. }
  apply for_each_raise in H. destruct H as [r [log9 [_ H]]].
  eapply check_rule_raise; eauto.
Qed.

Lemma read_lines_raise (lines : list input_line) :
  forall (st : state) (e : exn),
    read_lines st lines = Raise e ->
    exists pre l post st',
      lines = pre ++ l :: post /\ read_lines st pre = Ok st' /\
      step st' l = Raise e.
Proof.
  induction lines as [|l lines IH]; intros st e; simpl; [discriminate|].
  destruct (step st l) as [st1|e'] eqn:S; simpl.
  - intros H. destruct (IH _ _ H) as [pre [l' [post [st' [-> [P Q]]]]]].
    exists (l :: pre), l', post, st'. simpl. rewrite S. auto.
  - intros [= <-]. exists [], l, lines, st. auto.
Qed.

(** X22: a [SyntaxError] or a [ValueError] that leaves [read_grammar]
    was raised while some line was processed, and is that error with its
    kind kept and the context of the line appended to its message. *)
Lemma read_grammar_error_context (lines : list input_line) (validate : bool)
  (log : list warning) (e : exn) :
  read_grammar lines validate = (log, Raise e) ->
  kind e = SyntaxError \/ kind e = ValueError ->
  exists pre l post st err,
    lines = pre ++ l :: post /\ read_lines initial pre = Ok st /\
    process_line st (text l) = Raise err /\
    e = mkExn (kind err) (message err +++ " " +++ context l).
Proof.
  unfold read_grammar. intros H K.
  apply and_then_raise in H.
  destruct H as [[log' H]|[log1 [st [log2 [_ H]]]]].
  - injection H as _ H.
    destruct (read_lines_raise _ _ _ H) as [pre [l [post [st [-> [P S]]]]]].
    exists pre, l, post, st. unfold step in S.
    destruct (process_line st (text l)) as [st'|err]; [discriminate|].
    injection S as <-. exists err. repeat split; auto.
    unfold handler in *.
    destruct (kind err) eqn:E; try reflexivity;
      simpl in K; rewrite E in K; destruct K; discriminate.
  - apply and_then_raise in H.
    destruct H as [[log' H]|[log3 [[] [log4 [_ H]]]]]; [|discriminate].
    destruct validate; [|discriminate].
    apply sweep_raise in H. destruct H as [H|[H|H]], K as [K|K]; congruence.
Qed.

(** ** Duplicate declarations *)

Lemma duplicate_linearization (st : state) (ident rest : string)
  (lin old : list string) :
  read_linearization rest = Ok lin ->
  Dict.get (linearizations st) ident = Some old ->
  linearization_declaration st ident rest = Raise str_not_callable.
Proof.
  intros R G. unfold linearization_declaration. now rewrite R, G.
Qed.

Lemma duplicate_score (st : state) (ident keyword : string) (x : score) :
  parse_score keyword = Ok x ->
  Dict.mem ident (scores st) = true ->
  score_declaration st ident keyword EmptyString = Raise str_not_callable.
Proof.
  intros P M. unfold score_declaration. now rewrite P, M.
Qed.

Lemma duplicate_sequence (st : state) (ident rest : string)
  (tokens old : list token) :
  read_sequence rest = Ok tokens ->
  Dict.get (sequences st) ident = Some (Some old) ->
  sequence_declaration st ident rest
  = raise ValueError ("Duplicate sequence for " +++ Py.repr ident).
Proof.
  intros R G. unfold sequence_declaration, get_value. now rewrite R, G.
Qed.

(* ================================================================= *)
(** * Runs on concrete inputs *)

Lemma pragma_naming_witness :
  Py.lstrip ":abc  def ghi " = String ":" "abc  def ghi " /\
  process_line initial ":abc  def ghi "
  = Ok (add_pragma initial (Some "abc"%string) "def ghi").
Proof.
  split; [reflexivity|].
  exact (proj1 (proj2 (proj2 (proj2 pragma_naming initial
                                 ":abc  def ghi "%string
                                 "abc  def ghi "%string eq_refl))
                 "a"%char "bc  def ghi "%string eq_refl eq_refl)).
Defined.

Lemma score_keyword_witness :
  read_grammar (plain ["f 1.5x"%string]) true
  = ([], Raise (mkExn SyntaxError
                  "Not a correct score: '1.5x' [happened on input line: 'f 1.5x']"))
  /\
  read_grammar (plain ["g 2"; "f 1.5 x"]%string) true
  = ([], Raise (mkExn SyntaxError
                  "Extra information in score declaration: 'x' [happened on input line: 'f 1.5 x']"))
  /\
  read_lines initial (plain ["g 2"; "f 7"]%string)
  = Ok (add_score (add_score initial "g" (IntScore 2)) "f" (IntScore 7)).
Proof.
  pose proof (score_keyword [] initial
                (mkLine None 0 "f 1.5x") "f" " 1.5x" "f" "1.5x" ""
                eq_refl eq_refl eq_refl ltac:(discriminate) eq_refl
                ltac:(discriminate) ltac:(discriminate) ltac:(discriminate))
    as [A _].
  pose proof (score_keyword (plain ["g 2"%string])
                (add_score initial "g" (IntScore 2))
                (mkLine None 0 "f 1.5 x") "f" " 1.5 x" "f" "1.5" "x"
                eq_refl eq_refl eq_refl ltac:(discriminate) eq_refl
                ltac:(discriminate) ltac:(discriminate) ltac:(discriminate))
    as [_ [B _]].
  pose proof (score_keyword (plain ["g 2"%string])
                (add_score initial "g" (IntScore 2))
                (mkLine None 0 "f 7") "f" " 7" "f" "7" ""
                eq_refl eq_refl eq_refl ltac:(discriminate) eq_refl
                ltac:(discriminate) ltac:(discriminate) ltac:(discriminate))
    as [_ [_ C]].
  split; [exact (A eq_refl eq_refl [] true)|].
  split.
  - assert (F : Binary64.parse "1.5" <> None) by (vm_compute; discriminate).
    exact (B ltac:(discriminate) (or_intror F) [] true).
  - exact (proj1 (C eq_refl eq_refl eq_refl) 7 eq_refl).
Defined.

Lemma read_grammar_placeholders_witness :
  read_grammar (plain ["g : S <- A"; "f = l1"]%string) true
  = ([UndefinedNonterminals ["A"%string];
      UndefinedSequences ["l1"%string]; MissingLinearization "g"],
     Ok [ ("pragmas", Pragmas []);
          ("functions", Functions [("g", [("S", ["A"])])]);
          ("linearizations", Linearizations [("f", ["l1"])]);
          ("sequences", Sequences [("l1", None)]);
          ("scores", Scores []);
          ("nonterms", Nonterms [("A", None)]) ]%string)
  /\
  Dict.keys
    [ ("pragmas", Pragmas []);
      ("functions", Functions [("g", [("S", ["A"])])]);
      ("linearizations", Linearizations [("f", ["l1"])]);
      ("sequences", Sequences [("l1", None)]);
      ("scores", Scores []);
      ("nonterms", Nonterms [("A", None)]) ]%string
  = ["pragmas"; "functions"; "linearizations"; "sequences"; "scores";
     "nonterms"]%string.
Proof.
  assert (H : read_grammar (plain ["g : S <- A"; "f = l1"]%string) true
              = ([UndefinedNonterminals ["A"%string];
                  UndefinedSequences ["l1"%string]; MissingLinearization "g"],
                 Ok [ ("pragmas", Pragmas []);
                      ("functions", Functions [("g", [("S", ["A"])])]);
                      ("linearizations", Linearizations [("f", ["l1"])]);
                      ("sequences", Sequences [("l1", None)]);
                      ("scores", Scores []);
                      ("nonterms", Nonterms [("A", None)]) ]%string))
    by (vm_compute; reflexivity).
  split; [exact H|].
  exact (proj1 (read_grammar_placeholders _ _ _ _ H)).
Defined.

(** The rule [f : S <- A] followed by the linearization [f = l1 l2] is
    read without error: the arity of [S] is 2 afterwards. *)
Lemma arity_example_is_accepted :
  read_lines initial (plain ["f : S <- A"; "f = l1 l2"]%string)
  = Ok {| pragmas := [];
          functions := [("f", [("S", ["A"])])];
          linearizations := [("f", ["l1"; "l2"])];
          sequences := [("l1", None); ("l2", None)];
          scores := [];
          nonterms := [("A", None); ("S", Some 2)];
          fun_arities := [("f", 2)];
          seq_arities := [];
          ident := Some "f" |}%string.
Proof. vm_compute. reflexivity. Qed.

(** ** Where the code departs from its specification *)

(** C1 (defect in [write_grammar]): a grammar read with no warning is
    written with its Sequences section twice, so every sequence has two
    lines, and reading the text back is refused with a [ValueError] about
    a duplicate sequence: the round trip does not give the model back. *)
Theorem round_trip_duplicates_sequences :
  read_grammar (plain ["f : S <- S"; "f = l1"; "l1 -> 'a' 0:0"]%string) true
  = ([], Ok [ ("pragmas", Pragmas []);
              ("functions", Functions [("f", [("S", ["S"])])]);
              ("linearizations", Linearizations [("f", ["l1"])]);
              ("sequences", Sequences [("l1", Some [Terminal "a"; ArgRef 0 0])]);
              ("scores", Scores []);
              ("nonterms", Nonterms [("S", Some 1)]) ]%string)
  /\
  write_grammar_of
    [ ("pragmas", Pragmas []);
      ("functions", Functions [("f", [("S", ["S"])])]);
      ("linearizations", Linearizations [("f", ["l1"])]);
      ("sequences", Sequences [("l1", Some [Terminal "a"; ArgRef 0 0])]);
      ("scores", Scores []);
      ("nonterms", Nonterms [("S", Some 1)]) ]%string
  = ([ ""; "# Functions/rules"; "f : S <- S"; ""; "# Linearizations";
       "f = l1"; ""; "# Sequences"; "l1 -> 'a' 0:0"; ""; "# Sequences";
       "l1 -> 'a' 0:0"; "" ]%string, Ok tt)
  /\
  read_grammar
    (plain
       (text_lines
          (stdout
             [ ""; "# Functions/rules"; "f : S <- S"; ""; "# Linearizations";
               "f = l1"; ""; "# Sequences"; "l1 -> 'a' 0:0"; "";
               "# Sequences"; "l1 -> 'a' 0:0"; "" ]%string)))
    true
  = ([], Raise (mkExn ValueError
                  ("Duplicate sequence for 'l1' "
                   +++ context (mkLine None 0
                                  ("l1 -> 'a' 0:0" +++ Py.str1 Py.LF))))).
Proof. repeat split; vm_compute; reflexivity. Qed.

(** C2 (defect in [read_grammar]): a second linearization and a second
    score end the read with a [TypeError], the format string being called
    instead of formatted; only a second sequence body raises the
    [ValueError] meant for all three. *)
Theorem duplicate_declarations :
  read_grammar (plain ["f = a"; "f = b"]%string) true
  = ([], Raise (mkExn TypeError "'str' object is not callable"))
  /\
  read_grammar (plain ["f 1"; "f 2"]%string) true
  = ([], Raise (mkExn TypeError "'str' object is not callable"))
  /\
  read_grammar (plain ["s -> 'a'"; "s -> 'b'"]%string) true
  = ([], Raise (mkExn ValueError
                  ("Duplicate sequence for 's' "
                   +++ context (mkLine None 0 "s -> 'b'")))).
Proof. repeat split; vm_compute; reflexivity. Qed.

(** C4 (defect in [read_grammar]): the left-hand side of a rule is not
    registered as a nonterminal until its function has a linearization, so
    the namespace checks miss it.  In the first read [S] ends both as a
    nonterminal with an arity and as a sequence with a body; in the second
    [S] is the left-hand side of a rule and has a linearization.  Both
    reads succeed. *)
Theorem namespaces_overlap :
  read_grammar (plain ["f : S <- A"; "S -> 'x'"; "f = S"]%string) true
  = ([UndefinedNonterminals ["A"%string]],
     Ok [ ("pragmas", Pragmas []);
          ("functions", Functions [("f", [("S", ["A"])])]);
          ("linearizations", Linearizations [("f", ["S"])]);
          ("sequences", Sequences [("S", Some [Terminal "x"])]);
          ("scores", Scores []);
          ("nonterms", Nonterms [("A", None); ("S", Some 1)]) ]%string)
  /\
  read_grammar (plain ["f : S <- A"; "S = x"]%string) true
  = ([UndefinedNonterminals ["A"%string]; UndefinedSequences ["x"%string];
      MissingLinearization "f"],
     Ok [ ("pragmas", Pragmas []);
          ("functions", Functions [("f", [("S", ["A"])])]);
          ("linearizations", Linearizations [("S", ["x"])]);
          ("sequences", Sequences [("x", None)]);
          ("scores", Scores []);
          ("nonterms", Nonterms [("A", None)]) ]%string).
Proof. split; vm_compute; reflexivity. Qed.

(** C5 (defect in the sweep): a linearization that names a sequence with
    no body makes the sweep raise [KeyError], and a reference to an
    argument the rule does not have makes it raise [IndexError] right
    after the out-of-range warning: the sweep does not only warn. *)
Theorem sweep_raises :
  read_grammar (plain ["f : S <- A"; "f = l1"]%string) true
  = ([UndefinedNonterminals ["A"%string]; UndefinedSequences ["l1"%string]],
     Raise (mkExn KeyError "'l1'"))
  /\
  read_grammar (plain ["f : S <- A"; "f = l1"; "l1 -> 1:0"]%string) true
  = ([UndefinedNonterminals ["A"%string]; ArgumentOutOfRange "f" 1 1],
     Raise (mkExn IndexError "list index out of range")).
Proof. split; vm_compute; reflexivity. Qed.

(** C6 (defect in [read_grammar]): the error of a duplicate linearization
    leaves [read_grammar] as a [TypeError] that the handler does not
    catch, with no positional context, where the duplicate sequence on the
    same line of the same file is reported with file name and line. *)
Theorem duplicate_escapes_without_context :
  read_grammar [mkLine (Some "g.pmcfg"%string) 1 "f = a";
                mkLine (Some "g.pmcfg"%string) 2 "f = b"] true
  = ([], Raise (mkExn TypeError "'str' object is not callable"))
  /\
  read_grammar [mkLine (Some "g.pmcfg"%string) 1 "s -> 'a'";
                mkLine (Some "g.pmcfg"%string) 2 "s -> 'b'"] true
  = ([], Raise (mkExn ValueError
                  ("Duplicate sequence for 's' [happened in input file 'g.pmcfg', line 2: "
                   +++ Py.repr "s -> 'b'" +++ "]"))).
Proof. split; vm_compute; reflexivity. Qed.

(** C8 (defect in [read_grammar]): a pragma line that is the marker alone,
    with nothing behind it, is recorded under the empty name and not
    under the no-name key [None], which is absent from the pragmas of the
    result.  The test on the character behind the marker is false on the
    empty slice, so the line takes the branch of the named pragmas, where
    the split is padded with two empty strings.  A marker followed by a
    space or by the end of the line is recorded under [None], as the line
    [: encoding utf8] is.  The writer prints the two keys alike. *)
Theorem bare_marker_is_named :
  read_grammar (plain [":"%string]) true
  = ([], Ok [ ("pragmas", Pragmas [(Some EmptyString, [EmptyString])]);
              ("functions", Functions []);
              ("linearizations", Linearizations []);
              ("sequences", Sequences []);
              ("scores", Scores []);
              ("nonterms", Nonterms []) ]%string)
  /\
  Dict.get [(Some EmptyString, [EmptyString])] None = None
  /\
  read_lines initial (plain [": "%string])
  = Ok (add_pragma initial None EmptyString)
  /\
  read_lines initial (plain [":" +++ Py.str1 Py.LF])
  = Ok (add_pragma initial None EmptyString)
  /\
  read_lines initial (plain [": encoding utf8"%string])
  = Ok (add_pragma initial None "encoding utf8")
  /\
  read_lines initial (plain [":"%string])
  = Ok (add_pragma initial (Some EmptyString) EmptyString)
  /\
  write_pragmas (Some EmptyString, [EmptyString]) = ([": "%string], Ok tt)
  /\
  write_pragmas (None, [EmptyString]) = ([": "%string], Ok tt).
Proof. repeat split; vm_compute; reflexivity. Qed.

(* ================================================================= *)
(** * Facts behind the further properties *)

(** ** Words and fields *)

Lemma identifier_head (c : ascii) :
  (Py.isalnum c || Ascii.eqb c "_")%bool = true ->
  Py.isspace c = false /\ Py.char_in c COMMENT = false /\
  String.eqb (Py.str1 c) PRAGMA = false.
Proof.
  destruct c as [[|] [|] [|] [|] [|] [|] [|] [|]];
    vm_compute; intros H; try discriminate H; repeat split.
Qed.

Lemma no_space_cons (c : ascii) (s : string) :
  no_space (String c s) = (negb (Py.isspace c) && no_space s)%bool.
Proof. unfold no_space. simpl. now rewrite negb_orb. Qed.

Lemma is_identifier_word (s : string) :
  is_identifier s = true -> is_word s = true.
Proof.
  destruct s as [|c s]; [discriminate|]. unfold is_identifier, is_word.
  intros H. apply andb_true_iff in H. destruct H as [H1 H2].
  rewrite no_space_cons. fold (no_space s) in H2.
  destruct (identifier_head c H1) as [E _]. now rewrite E, H2.
Qed.

Lemma word_app (t r : string) :
  no_space t = true -> Py.word (t +++ r) = t +++ Py.word r.
Proof.
  induction t as [|c t IH]; [reflexivity|].
  rewrite no_space_cons. intros H. apply andb_true_iff in H.
  destruct H as [H1 H2]. simpl.
  destruct (Py.isspace c); [discriminate|]. now rewrite IH.
Qed.

Lemma after_word_app (t r : string) :
  no_space t = true -> Py.after_word (t +++ r) = Py.after_word r.
Proof.
  induction t as [|c t IH]; [reflexivity|].
  rewrite no_space_cons. intros H. apply andb_true_iff in H.
  destruct H as [H1 H2]. simpl.
  destruct (Py.isspace c); [discriminate|]. now apply IH.
Qed.

Lemma lstrip_word (w r : string) :
  is_word w = true -> Py.lstrip (w +++ r) = w +++ r.
Proof.
  destruct w as [|c w]; [discriminate|]. unfold is_word.
  rewrite no_space_cons. intros H. apply andb_true_iff in H.
  destruct H as [H1 H2]. simpl. now destruct (Py.isspace c).
Qed.

(** The first word of a text is the first piece of its split. *)
Lemma split_go_first (w r : string) (k : option nat) :
  is_word w = true -> k <> Some O ->
  Py.split_go k None (w +++ r)
  = (w +++ Py.word r) :: Py.split_go (Py.dec k) None (Py.after_word r).
Proof.
  destruct w as [|c w]; [discriminate|]. unfold is_word.
  rewrite no_space_cons. intros H K. apply andb_true_iff in H.
  destruct H as [H1 H2]. cbn [String.append Py.split_go].
  destruct (Py.isspace c); [discriminate|].
  destruct k as [[|n]|]; [congruence| |];
    rewrite split_go_word, word_app, after_word_app by assumption;
    reflexivity.
Qed.

Lemma split_go_cons (w r : string) (k : option nat) :
  is_word w = true -> k <> Some O ->
  Py.split_go k None (w +++ " " +++ r)
  = w :: Py.split_go (Py.dec k) None r.
Proof.
  intros W K. rewrite split_go_first by assumption.
  cbn. now rewrite append_nil_r.
Qed.

Lemma split_go_single (w : string) (k : option nat) :
  is_word w = true -> Py.split_go k None w = [w].
Proof.
  intros W. destruct k as [[|n]|].
  - rewrite split_go_rest. rewrite <- (append_nil_r w) at 1.
    rewrite lstrip_word by assumption. rewrite append_nil_r.
    destruct w; [discriminate|reflexivity].
  - rewrite <- (append_nil_r w) at 1. rewrite split_go_first by (auto; discriminate).
    cbn. now rewrite append_nil_r.
  - rewrite <- (append_nil_r w) at 1. rewrite split_go_first by (auto; discriminate).
    cbn. now rewrite append_nil_r.
Qed.

Lemma lstrip_all_space (t : string) :
  Py.all_space t = true -> Py.lstrip t = EmptyString.
Proof.
  induction t as [|c t IH]; [reflexivity|]. simpl. intros H.
  apply andb_true_iff in H. destruct H as [H1 H2]. rewrite H1. now apply IH.
Qed.

Lemma word_all_space (t : string) :
  Py.all_space t = true -> Py.word t = EmptyString.
Proof.
  destruct t as [|c t]; [reflexivity|]. simpl. intros H.
  apply andb_true_iff in H. destruct H as [H _]. now rewrite H.
Qed.

Lemma after_word_all_space (t : string) :
  Py.all_space t = true -> Py.after_word t = t.
Proof.
  destruct t as [|c t]; [reflexivity|]. simpl. intros H.
  apply andb_true_iff in H. destruct H as [H _]. now rewrite H.
Qed.

Lemma split_go_all_space (t : string) (k : option nat) :
  Py.all_space t = true -> Py.split_go k None t = [].
Proof.
  induction t as [|c t IH]; [reflexivity|]. simpl. intros H.
  apply andb_true_iff in H. destruct H as [H1 H2]. rewrite H1. now apply IH.
Qed.

(** The last word of a text, white space behind it or not. *)
Lemma split_go_last (w t : string) (k : option nat) :
  is_word w = true -> k <> Some O -> Py.all_space t = true ->
  Py.split_go k None (w +++ t) = [w].
Proof.
  intros W K T. rewrite split_go_first by assumption.
  rewrite word_all_space, after_word_all_space, append_nil_r by assumption.
  now rewrite split_go_all_space.
Qed.

Lemma split_go_lstrip (s : string) (k : option nat) :
  Py.split_go k None (Py.lstrip s) = Py.split_go k None s.
Proof.
  induction s as [|c s IH]; [reflexivity|]. cbn [Py.lstrip].
  destruct (Py.isspace c) eqn:E; [|reflexivity].
  rewrite IH. cbn [Py.split_go]. now rewrite E.
Qed.

(** Words joined by single spaces, with white space behind them or not,
    split into these words. *)
Lemma split_join_trailing (ws : list string) (t : string) :
  Forall (fun w => is_word w = true) ws -> Py.all_space t = true ->
  Py.split_go None None (Py.join " " ws +++ t) = ws.
Proof.
  intros F T. induction F as [|w ws W _ IH].
  - now apply split_go_all_space.
  - destruct ws as [|w' ws].
    + cbn [Py.join]. apply split_go_last; auto. discriminate.
    + change (Py.join " " (w :: w' :: ws))
        with (w +++ " " +++ Py.join " " (w' :: ws)).
      rewrite !append_assoc.
      rewrite split_go_cons by (auto; discriminate). cbn [Py.dec].
      now rewrite IH.
Qed.

Lemma whitespace_split_all (s : string) :
  whitespace_split s (-1) = Py.split_go None None s.
Proof. reflexivity. Qed.

Lemma first_non_identifier_none (l : list string) :
  first_non_identifier l = None <-> Forall (fun s => is_identifier s = true) l.
Proof.
  induction l as [|x l IH]; simpl.
  - split; auto.
  - destruct (is_identifier x) eqn:E.
    + rewrite IH. split; [now constructor|now inversion 1].
    + split; [discriminate|]. inversion 1; congruence.
Qed.

Lemma identifiers_words (l : list string) :
  Forall (fun s => is_identifier s = true) l ->
  Forall (fun w => is_word w = true) l.
Proof. apply Forall_impl. exact is_identifier_word. Qed.

(** A line made of a word, a keyword and a body splits into these three,
    the body losing its leading white space only. *)
Lemma whitespace_split_fields (a b body : string) :
  is_word a = true -> is_word b = true ->
  whitespace_split (a +++ " " +++ b +++ " " +++ body) 2
  = [a; b; Py.lstrip body].
Proof.
  intros A B. unfold whitespace_split, Py.split.
  change (2 <? 0) with false. cbv iota.
  change (Z.to_nat 2) with 2%nat.
  rewrite split_go_cons by (auto; discriminate). cbn [Py.dec Nat.pred].
  rewrite split_go_cons by (auto; discriminate). cbn [Py.dec Nat.pred].
  rewrite split_go_rest.
  destruct (Py.lstrip body); reflexivity.
Qed.

Lemma process_declaration (st : state) (fid kw body : string) :
  is_identifier fid = true -> is_word kw = true ->
  process_line st (fid +++ " " +++ kw +++ " " +++ body)
  = (if String.eqb kw RULE then rule_declaration st fid (Py.lstrip body)
     else if String.eqb kw LINEARIZATION
     then linearization_declaration st fid (Py.lstrip body)
     else if String.eqb kw SEQUENCE
     then sequence_declaration st fid (Py.lstrip body)
     else score_declaration st fid kw (Py.lstrip body)).
Proof.
  intros I W. pose proof (is_identifier_word _ I) as Wf.
  unfold process_line. rewrite lstrip_word by assumption.
  destruct fid as [|c t]; [discriminate|].
  assert (H : (Py.isalnum c || Ascii.eqb c "_")%bool = true).
  { unfold is_identifier in I. now apply andb_true_iff in I. }
  destruct (identifier_head c H) as [_ [C P]].
  set (tail := t +++ " " +++ kw +++ " " +++ body).
  change (String c t +++ " " +++ kw +++ " " +++ body) with (String c tail).
  cbv iota. rewrite C, P. unfold tail.
  change (String c (t +++ " " +++ kw +++ " " +++ body))
    with (String c t +++ " " +++ kw +++ " " +++ body).
  unfold declaration_line. rewrite whitespace_split_fields by assumption.
  cbn [unpack3 bind]. now rewrite I.
Qed.

(** ** Integers written and read *)

Lemma digitpart_uint_acc (d : Decimal.uint) :
  forall acc : positive,
    Py.digitpart (Z.pos acc) true (NilEmpty.string_of_uint d)
    = Some (Z.pos (Pos.of_uint_acc d acc)).
Proof.
  induction d; intros acc;
    cbn [NilEmpty.string_of_uint Py.digitpart Pos.of_uint_acc];
    try reflexivity;
    match goal with
    | |- context [Py.isdecimal ?c] => change (Py.isdecimal c) with true
    end; cbv iota;
    match goal with
    | |- Py.digitpart ?z true _ = Some (Z.pos (Pos.of_uint_acc _ ?p)) =>
        replace z with (Z.pos p)
          by (match goal with
              | |- context [Z.of_N (Py.code ?c)] =>
                  let v := eval vm_compute in (Z.of_N (Py.code c)) in
                  change (Z.of_N (Py.code c)) with v
              end; lia)
    end; apply IHd.
Qed.

Lemma digitpart_uint (d : Decimal.uint) :
  forall after_digit : bool,
    d <> Decimal.Nil \/ after_digit = true ->
    Py.digitpart 0 after_digit (NilEmpty.string_of_uint d)
    = Some (Z.of_N (Pos.of_uint d)).
Proof.
  induction d; intros b H;
    cbn [NilEmpty.string_of_uint Py.digitpart Pos.of_uint];
    try (destruct H as [H|H]; [congruence|subst b; reflexivity]);
    match goal with
    | |- context [Py.isdecimal ?c] => change (Py.isdecimal c) with true
    end; cbv iota.
  - apply IHd. now right.
  - apply (digitpart_uint_acc d 1).
  - apply (digitpart_uint_acc d 2).
  - apply (digitpart_uint_acc d 3).
  - apply (digitpart_uint_acc d 4).
  - apply (digitpart_uint_acc d 5).
  - apply (digitpart_uint_acc d 6).
  - apply (digitpart_uint_acc d 7).
  - apply (digitpart_uint_acc d 8).
  - apply (digitpart_uint_acc d 9).
Qed.

Lemma all_digits_uint (d : Decimal.uint) :
  all_digits (NilEmpty.string_of_uint d) = true.
Proof. induction d; simpl; auto. Qed.

Lemma all_digits_no_space (s : string) :
  all_digits s = true -> no_space s = true.
Proof.
  induction s as [|c s IH]; [reflexivity|]. simpl. rewrite no_space_cons.
  intros H. apply andb_true_iff in H. destruct H as [H1 H2].
  rewrite IH by assumption.
  destruct c as [[|] [|] [|] [|] [|] [|] [|] [|]];
    try discriminate H1; reflexivity.
Qed.

Lemma rstrip_no_space (s : string) : no_space s = true -> Py.rstrip s = s.
Proof.
  induction s as [|c s IH]; [reflexivity|]. rewrite no_space_cons.
  intros H. apply andb_true_iff in H. destruct H as [H1 H2].
  simpl. rewrite IH by assumption.
  destruct s; [|reflexivity]. now destruct (Py.isspace c).
Qed.

Lemma strip_no_space (s : string) : no_space s = true -> Py.strip s = s.
Proof.
  intros H. unfold Py.strip.
  assert (L : Py.lstrip s = s).
  { destruct s as [|c s]; [reflexivity|]. rewrite no_space_cons in H.
    apply andb_true_iff in H. destruct H as [H1 H2]. simpl.
    now destruct (Py.isspace c). }
  rewrite L. now apply rstrip_no_space.
Qed.

Lemma rstrip_all_space (t : string) :
  Py.all_space t = true -> Py.rstrip t = EmptyString.
Proof.
  induction t as [|c t IH]; [reflexivity|]. simpl. intros H.
  apply andb_true_iff in H. destruct H as [H1 H2].
  now rewrite (IH H2), H1.
Qed.

Lemma rstrip_trailing (s t : string) :
  Py.all_space t = true -> Py.rstrip (s +++ t) = Py.rstrip s.
Proof.
  intros T. induction s as [|c s IH]; simpl.
  - now apply rstrip_all_space.
  - now rewrite IH.
Qed.

Lemma lstrip_app (s t : string) :
  Py.lstrip s <> EmptyString -> Py.lstrip (s +++ t) = Py.lstrip s +++ t.
Proof.
  induction s as [|c s IH]; simpl; [contradiction|].
  destruct (Py.isspace c); [exact IH|reflexivity].
Qed.

(** White space behind a text does not survive [strip]. *)
Lemma strip_trailing (s t : string) :
  Py.all_space t = true -> Py.strip (s +++ t) = Py.strip s.
Proof.
  intros T. unfold Py.strip.
  destruct (Py.lstrip s) as [|c r] eqn:L.
  - assert (E : Py.lstrip (s +++ t) = EmptyString).
    { clear - L T. induction s as [|c s IH]; simpl in *.
      - now apply lstrip_all_space.
      - destruct (Py.isspace c); [now apply IH|discriminate]. }
    now rewrite E.
  - rewrite lstrip_app by (rewrite L; discriminate).
    rewrite L. now apply rstrip_trailing.
Qed.

(** The decimal text of a positive number. *)
Lemma str_int_pos (p : positive) :
  Py.str_int (Z.pos p) = NilEmpty.string_of_uint (Pos.to_uint p).
Proof.
  unfold Py.str_int. simpl.
  pose proof (DecimalPos.Unsigned.to_uint_nonnil p) as N.
  now destruct (Pos.to_uint p).
Qed.

Lemma str_int_neg (p : positive) :
  Py.str_int (Z.neg p)
  = String "-" (NilEmpty.string_of_uint (Pos.to_uint p)).
Proof.
  unfold Py.str_int. simpl.
  pose proof (DecimalPos.Unsigned.to_uint_nonnil p) as N.
  now destruct (Pos.to_uint p).
Qed.

Lemma int_digits (s : string) :
  s <> EmptyString -> all_digits s = true ->
  Py.int s = Py.digitpart 0 false s.
Proof.
  intros N D. unfold Py.int. rewrite strip_no_space
    by now apply all_digits_no_space.
  destruct s as [|c s]; [contradiction|]. simpl in D.
  apply andb_true_iff in D. destruct D as [D _].
  destruct c as [[|] [|] [|] [|] [|] [|] [|] [|]];
    try discriminate D; reflexivity.
Qed.

(** [int(str(n))] is [n]. *)
Lemma int_str_int (n : Z) : Py.int (Py.str_int n) = Some n.
Proof.
  destruct n as [|p|p].
  - reflexivity.
  - rewrite str_int_pos.
    pose proof (DecimalPos.Unsigned.to_uint_nonnil p) as N.
    rewrite int_digits.
    + rewrite digitpart_uint by now left.
      now rewrite DecimalPos.Unsigned.of_to.
    + destruct (Pos.to_uint p); [contradiction|discriminate..].
    + apply all_digits_uint.
  - rewrite str_int_neg.
    pose proof (DecimalPos.Unsigned.to_uint_nonnil p) as N.
    unfold Py.int.
    assert (S : no_space (String "-" (NilEmpty.string_of_uint (Pos.to_uint p)))
                = true).
    { rewrite no_space_cons. rewrite all_digits_no_space
        by apply all_digits_uint. reflexivity. }
    rewrite strip_no_space by assumption.
    rewrite digitpart_uint by now left.
    now rewrite DecimalPos.Unsigned.of_to.
Qed.

(** The text of a natural number is a run of digits, at least one. *)
Lemma str_int_digits (n : Z) :
  0 <= n -> all_digits (Py.str_int n) = true /\ Py.str_int n <> EmptyString.
Proof.
  intros H. destruct n as [|p|p]; [split; [reflexivity|discriminate]| |lia].
  rewrite str_int_pos. split; [apply all_digits_uint|].
  pose proof (DecimalPos.Unsigned.to_uint_nonnil p) as N.
  destruct (Pos.to_uint p); [contradiction|discriminate..].
Qed.

(** ** Tokens written and read *)

Lemma quoted_tail_repr_char (q c : ascii) (t : string) :
  is_quote q ->
  quoted_tail q (Py.repr_char q c +++ t)
  = match quoted_tail q t with
    | Some (b, r) => Some (Py.repr_char q c +++ b, r)
    | None => None
    end.
Proof.
  each_char q c; cbn; destruct (quoted_tail _ t) as [[b r]|]; reflexivity.
Qed.

Lemma quoted_tail_repr_body (q : ascii) (s r : string) :
  is_quote q ->
  quoted_tail q (Py.repr_body q s +++ String q r)
  = Some (Py.repr_body q s +++ Py.str1 q, r).
Proof.
  intros Q. induction s as [|c s IH].
  - simpl. now rewrite Ascii.eqb_refl.
  - cbn [Py.repr_body]. rewrite !append_assoc.
    now rewrite quoted_tail_repr_char, IH.
Qed.

Lemma digits_all (ds r : string) :
  all_digits ds = true ->
  match r with
  | EmptyString => True
  | String c _ => Py.isdecimal c = false
  end ->
  digits (ds +++ r) = (ds, r).
Proof.
  intros D R. induction ds as [|c ds IH]; simpl.
  - destruct r as [|c r]; [reflexivity|]. simpl. now rewrite R.
  - simpl in D. apply andb_true_iff in D. destruct D as [D1 D2].
    now rewrite D1, IH.
Qed.

Lemma space_or_end_follows (tail rest : string) :
  follows tail rest -> space_or_end tail = Some (Py.lstrip rest).
Proof.
  intros [[T ->]| ->]; [|reflexivity].
  destruct tail as [|c tail]; [reflexivity|].
  pose proof (lstrip_all_space _ T) as L. simpl in T.
  apply andb_true_iff in T. destruct T as [T _].
  unfold space_or_end. now rewrite T, L.
Qed.

Lemma isspace_not_decimal (c : ascii) :
  Py.isspace c = true -> Py.isdecimal c = false.
Proof.
  destruct c as [[|] [|] [|] [|] [|] [|] [|] [|]];
    vm_compute; intros H; try discriminate H; reflexivity.
Qed.

Lemma match_terminal (s tail rest : string) :
  follows tail rest ->
  SEQ_REGEXP_match (Py.repr s +++ tail)
  = Some {| group1 := Some (Py.repr s); group2 := None; group3 := None;
            after := Py.lstrip rest |}.
Proof.
  intros F. unfold Py.repr. pose proof (repr_quote_is_quote s) as Q.
  set (q := Py.repr_quote s) in *.
  cbn [String.append SEQ_REGEXP_match].
  assert (E : (Ascii.eqb q Py.dquote || Ascii.eqb q Py.squote)%bool = true)
    by (destruct Q as [-> | ->]; reflexivity).
  rewrite E, append_assoc. cbn [Py.str1 String.append].
  rewrite quoted_tail_repr_body by assumption.
  now rewrite (space_or_end_follows _ _ F).
Qed.

Lemma match_argref (arg ref : Z) (tail rest : string) :
  0 <= arg -> 0 <= ref -> follows tail rest ->
  SEQ_REGEXP_match (Py.str_int arg +++ ":" +++ Py.str_int ref +++ tail)
  = Some {| group1 := None; group2 := Some (Py.str_int arg);
            group3 := Some (Py.str_int ref); after := Py.lstrip rest |}.
Proof.
  intros A R F.
  destruct (str_int_digits arg A) as [DA NA].
  destruct (str_int_digits ref R) as [DR NR].
  assert (D1 : digits (Py.str_int arg +++ ":" +++ Py.str_int ref +++ tail)
               = (Py.str_int arg, ":" +++ Py.str_int ref +++ tail))
    by now apply digits_all.
  assert (D2 : digits (Py.str_int ref +++ tail) = (Py.str_int ref, tail)).
  { apply digits_all; [assumption|].
    destruct F as [[T ->]| ->]; [|reflexivity].
    destruct tail as [|c tail]; [exact I|]. simpl in T.
    apply andb_true_iff in T. destruct T as [T _].
    now apply isspace_not_decimal. }
  destruct (Py.str_int arg) as [|c a] eqn:EA; [contradiction|].
  assert (C : (Ascii.eqb c Py.dquote || Ascii.eqb c Py.squote)%bool = false).
  { simpl in DA. apply andb_true_iff in DA. destruct DA as [DA _].
    destruct c as [[|] [|] [|] [|] [|] [|] [|] [|]];
      try discriminate DA; reflexivity. }
  change (String c a +++ ":" +++ Py.str_int ref +++ tail)
    with (String c (a +++ ":" +++ Py.str_int ref +++ tail)) in *.
  unfold SEQ_REGEXP_match. rewrite C, D1. cbn [String.append]. rewrite Ascii.eqb_refl, D2.
  destruct (Py.str_int ref) as [|c' r] eqn:ER; [contradiction|].
  now rewrite (space_or_end_follows _ _ F).
Qed.

Lemma str_token_head (tok : token) :
  exists c t, str_token tok = String c t /\ Py.isspace c = false.
Proof.
  destruct tok as [s|arg ref]; simpl.
  - unfold Py.repr. eexists _, _. split; [reflexivity|].
    destruct (repr_quote_is_quote s) as [-> | ->]; reflexivity.
  - destruct arg as [|p|p].
    + eexists _, _. split; reflexivity.
    + rewrite str_int_pos.
      pose proof (DecimalPos.Unsigned.to_uint_nonnil p) as N.
      destruct (Pos.to_uint p); [contradiction|..];
        eexists _, _; split; reflexivity.
    + rewrite str_int_neg. eexists _, _. split; reflexivity.
Qed.

Lemma lstrip_tokens (tokens : list token) (t : string) :
  tokens <> [] ->
  Py.lstrip (Py.join " " (map str_token tokens) +++ t)
  = Py.join " " (map str_token tokens) +++ t.
Proof.
  destruct tokens as [|tok tokens]; [contradiction|]. intros _.
  destruct (str_token_head tok) as [c [x [E S]]].
  destruct tokens as [|tok' tokens]; cbn [map Py.join]; rewrite E;
    simpl; now rewrite S.
Qed.

Lemma match_token (tok : token) (tail rest : string) :
  natural_refs tok = true -> follows tail rest ->
  exists m,
    SEQ_REGEXP_match (str_token tok +++ tail) = Some m /\
    token_of_match m = Ok tok /\ after m = Py.lstrip rest.
Proof.
  intros N F. destruct tok as [s|arg ref].
  - eexists. split; [apply (match_terminal s tail rest F)|].
    split; [|reflexivity]. unfold token_of_match. cbn [group1].
    now rewrite eval_repr.
  - simpl in N. apply andb_true_iff in N. destruct N as [A R].
    apply Z.leb_le in A, R. eexists. split.
    + cbn [str_token]. rewrite append_assoc.
      apply (match_argref arg ref tail rest A R F).
    + split; [|reflexivity]. unfold token_of_match, int_of_group.
      cbn [group1 group2 group3]. now rewrite !int_str_int.
Qed.

(** The loop of [read_sequence] on tokens written by [str_token], joined
    by single spaces and followed by white space [t] or by nothing. *)
Lemma read_sequence_loop_tokens (tokens : list token) (t : string) :
  Py.all_space t = true ->
  forall tok : token,
    Forall (fun tok => natural_refs tok = true) (tok :: tokens) ->
    forall (fuel : nat) (seen : list token),
      (String.length (Py.join " " (map str_token (tok :: tokens)) +++ t)
       < fuel)%nat ->
      read_sequence_loop fuel
        (Py.join " " (map str_token (tok :: tokens)) +++ t) seen
      = Ok (seen ++ tok :: tokens).
Proof.
  intros T. induction tokens as [|tok' tokens IH]; intros tok F fuel seen Hf;
    inversion F as [|? ? N F']; subst; (destruct fuel as [|fuel]; [lia|]).
  - cbn [map Py.join] in *.
    destruct (match_token tok t EmptyString N (or_introl (conj T eq_refl)))
      as [m [M [Tm A]]].
    destruct (str_token tok +++ t) as [|c rest] eqn:R; [discriminate M|].
    cbn [read_sequence_loop]. rewrite M, Tm. cbn [bind]. rewrite A.
    cbn [Py.lstrip]. now destruct fuel.
  - change (Py.join " " (map str_token (tok :: tok' :: tokens)))
      with (str_token tok +++ " "
            +++ Py.join " " (map str_token (tok' :: tokens))) in *.
    rewrite !append_assoc in *.
    set (X := Py.join " " (map str_token (tok' :: tokens)) +++ t) in *.
    destruct (match_token tok (" " +++ X) X N (or_intror eq_refl))
      as [m [M [Tm A]]].
    unfold X in A. rewrite lstrip_tokens in A by discriminate. fold X in A.
    pose proof (SEQ_REGEXP_match_consumes _ _ M) as C.
    destruct (str_token tok +++ " " +++ X) as [|c rest] eqn:R;
      [discriminate M|].
    cbn [read_sequence_loop]. rewrite M, Tm. cbn [bind]. rewrite A.
    unfold X. rewrite IH; [now rewrite <- app_assoc|exact F'|].
    fold X. rewrite <- A. simpl in *. lia.
Qed.

(** What [write_grammar] prints for the tokens of a sequence, followed by
    white space or by nothing and with the white space in front dropped,
    as the loop hands it to [read_sequence], is read as the tokens. *)
Lemma read_sequence_written (tokens : list token) (t : string) :
  Forall (fun tok => natural_refs tok = true) tokens ->
  Py.all_space t = true ->
  read_sequence (Py.lstrip (Py.join " " (map str_token tokens) +++ t))
  = Ok tokens.
Proof.
  intros F T. destruct tokens as [|tok tokens].
  - cbn [map Py.join String.append]. now rewrite lstrip_all_space.
  - rewrite lstrip_tokens by discriminate. unfold read_sequence.
    now rewrite (read_sequence_loop_tokens tokens t T tok F) by lia.
Qed.

(** ** Lines the loop skips *)

Lemma step_skipped (st : state) (l : input_line) :
  skipped (text l) = true -> step st l = Ok st.
Proof.
  unfold skipped, step, process_line.
  destruct (Py.lstrip (text l)) as [|c tail]; [reflexivity|].
  now intros ->.
Qed.

Lemma read_lines_skipped (lines : list input_line) :
  forall st : state,
    read_lines st lines
    = read_lines st (filter (fun l => negb (skipped (text l))) lines).
Proof.
  induction lines as [|l lines IH]; intros st; [reflexivity|].
  cbn [filter read_lines]. destruct (skipped (text l)) eqn:S.
  - rewrite (step_skipped st l S). cbn [negb bind]. apply IH.
  - cbn [negb read_lines]. destruct (step st l); cbn [bind]; auto.
Qed.

(** ** What later lines leave alone *)

Lemma extends_refl (st : state) : extends st st.
Proof.
  split; auto; intros k v G; exists []; now rewrite app_nil_r.
Qed.

Lemma extends_trans (a b c : state) :
  extends a b -> extends b c -> extends a c.
Proof.
  intros [A1 A2 A3 A4 A5 A6] [B1 B2 B3 B4 B5 B6]. split; auto.
  - intros fn rules G. destruct (A5 _ _ G) as [m1 G1].
    destruct (B5 _ _ G1) as [m2 G2]. exists (m1 ++ m2).
    now rewrite app_assoc.
  - intros name infos G. destruct (A6 _ _ G) as [m1 G1].
    destruct (B6 _ _ G1) as [m2 G2]. exists (m1 ++ m2).
    now rewrite app_assoc.
Qed.

Lemma append_to_kept {K V : Type} `{Key K} (d : Dict.t K (list V)) (k k' : K)
  (x : V) (l : list V) :
  Dict.get d k' = Some l ->
  exists more, Dict.get (append_to d k x) k' = Some (l ++ more).
Proof.
  intros G. rewrite get_append_to. destruct (key_eqb k' k) eqn:E.
  - apply key_eqb_eq in E. subst k'. rewrite G. now exists [x].
  - exists []. now rewrite app_nil_r.
Qed.

Lemma match_arity_kept (nts nts' : Dict.t string (option Z))
  (lhs fn : string) (fa : Z) (k : string) (a : Z) :
  match_arity nts lhs fn fa = Ok nts' ->
  Dict.get nts k = Some (Some a) -> Dict.get nts' k = Some (Some a).
Proof.
  unfold match_arity, get_value. intros M G.
  destruct (Dict.get nts lhs) as [[la|]|] eqn:L.
  - destruct (negb (la =? fa)); [discriminate|]. injection M as <-. exact G.
  - injection M as <-. rewrite get_set.
    destruct (key_eqb k lhs) eqn:E; [|exact G].
    apply key_eqb_eq in E. congruence.
  - injection M as <-. rewrite get_set.
    destruct (key_eqb k lhs) eqn:E; [|exact G].
    apply key_eqb_eq in E. congruence.
Qed.

Lemma propagate_arity_kept (rules : list rule) :
  forall (nts nts' : Dict.t string (option Z)) (fn : string) (fa : Z)
    (k : string) (a : Z),
    propagate_arity nts rules fn fa = Ok nts' ->
    Dict.get nts k = Some (Some a) -> Dict.get nts' k = Some (Some a).
Proof.
  induction rules as [|[lhs rhs] rules IH]; intros nts nts' fn fa k a; simpl.
  - now intros [= <-].
  - destruct (match_arity nts lhs fn fa) as [nts1|] eqn:M; [|discriminate].
    simpl. intros P G. eapply IH; eauto. eapply match_arity_kept; eauto.
Qed.

Lemma register_rhs_kept (st : state) (rhs : list string) :
  forall (nts nts' : Dict.t string (option Z)) (k : string) (v : option Z),
    register_rhs st nts rhs = Ok nts' ->
    Dict.get nts k = Some v -> Dict.get nts' k = Some v.
Proof.
  induction rhs as [|r rhs IH]; intros nts nts' k v; simpl.
  - now intros [= <-].
  - destruct (Dict.mem r (linearizations st) || Dict.mem r (functions st)
              || Dict.mem r (sequences st))%bool; [discriminate|].
    intros R G. eapply IH; [exact R|]. rewrite get_setdefault. now rewrite G.
Qed.

Lemma register_sequences_kept (lin : list string) :
  forall (seqs : Dict.t string (option (list token))) (k : string)
    (v : option (list token)),
    Dict.get seqs k = Some v ->
    Dict.get (fold_left (fun sequences seq => Dict.setdefault sequences seq None)
                lin seqs) k = Some v.
Proof.
  induction lin as [|s lin IH]; intros seqs k v G; simpl; [exact G|].
  apply IH. rewrite get_setdefault. now rewrite G.
Qed.

Lemma process_line_extends (st st' : state) (line : string) :
  process_line st line = Ok st' -> extends st st'.
Proof.
  unfold process_line.
  destruct (Py.lstrip line) as [|c tail].
  { intros [= <-]. apply extends_refl. }
  destruct (Py.char_in c COMMENT).
  { intros [= <-]. apply extends_refl. }
  destruct (String.eqb (Py.str1 c) PRAGMA).
  { unfold pragma_line.
    destruct (if Py.str_isspace (String.substring 0 1 tail) then _ else _)
      as [[pragma info]|]; [|discriminate].
    cbn [bind]. intros [= <-]. split; cbn; auto.
    - intros fn rules G. exists []. now rewrite app_nil_r.
    - intros name infos G. now apply append_to_kept. }
  unfold declaration_line.
  destruct (unpack3 (whitespace_split (String c tail) 2))
    as [[[ident keyword] rest]|]; [|discriminate].
  cbn [bind].
  destruct (negb (is_identifier ident)); [discriminate|].
  destruct (String.eqb keyword RULE).
  { unfold rule_declaration.
    destruct (read_rule rest) as [[lhs rhs]|]; [|discriminate].
    cbn [bind]. cbv zeta.
    cbn [fun_arities nonterms linearizations sequences functions].
    match goal with |- context [register_rhs ?s _ _] => set (st1 := s) end.
    destruct (match Dict.get (fun_arities st) ident with
              | Some fun_arity => match_arity (nonterms st) lhs ident fun_arity
              | None => Ok (nonterms st)
              end) as [nts1|] eqn:M; [|discriminate].
    cbn [bind].
    destruct (register_rhs st1 nts1 rhs) as [nts2|] eqn:R; [|discriminate].
    cbn [bind].
    destruct (Dict.mem lhs (linearizations st)
              || Dict.mem lhs (append_to (functions st) ident (lhs, rhs))
              || Dict.mem lhs (sequences st))%bool; [discriminate|].
    destruct (Dict.mem ident nts2 || Dict.mem ident (sequences st))%bool;
      [discriminate|].
    intros [= <-]. split; cbn; auto.
    - intros nt a G. eapply register_rhs_kept; [exact R|].
      destruct (Dict.get (fun_arities st) ident).
      + eapply match_arity_kept; eauto.
      + now injection M as <-.
    - intros fn rules G. now apply append_to_kept.
    - intros name infos G. exists []. now rewrite app_nil_r. }
  destruct (String.eqb keyword LINEARIZATION).
  { unfold linearization_declaration.
    destruct (read_linearization rest) as [lin|]; [|discriminate].
    cbn [bind].
    destruct (Dict.get (linearizations st) ident) as [old|] eqn:L0;
      [discriminate|].
    cbv zeta.
    destruct (propagate_arity (nonterms st) _ ident (Z.of_nat (length lin)))
      as [nts|] eqn:P; [|discriminate].
    cbn [bind].
    match goal with
    | |- context [Dict.mem ident ?s] =>
        match s with fold_left _ _ _ => set (seqs := s) end
    end.
    destruct (Dict.mem ident nts || Dict.mem ident seqs)%bool; [discriminate|].
    intros [= <-]. split; cbn; auto.
    - intros fn l G. rewrite get_set_other; [exact G|]. congruence.
    - intros seq tokens G. now apply register_sequences_kept.
    - intros nt a G. eapply propagate_arity_kept; eauto.
    - intros fn rules G. exists []. now rewrite app_nil_r.
    - intros name infos G. exists []. now rewrite app_nil_r. }
  destruct (String.eqb keyword SEQUENCE).
  { unfold sequence_declaration.
    destruct (read_sequence rest) as [tokens|]; [|discriminate].
    cbn [bind].
    destruct (get_value (sequences st) ident) eqn:V; [discriminate|].
    cbv zeta.
    destruct (Dict.mem ident (nonterms st) || Dict.mem ident (linearizations st)
              || Dict.mem ident (functions st))%bool; [discriminate|].
    intros [= <-]. split; cbn; auto.
    - intros seq toks G. rewrite get_set_other; [exact G|].
      intros ->. unfold get_value in V. now rewrite G in V.
    - intros fn rules G. exists []. now rewrite app_nil_r.
    - intros name infos G. exists []. now rewrite app_nil_r. }
  unfold score_declaration.
  destruct (parse_score keyword); [|discriminate]. cbn [bind].
  destruct rest; [|discriminate].
  destruct (Dict.mem ident (scores st)) eqn:M; [discriminate|].
  intros [= <-]. split; cbn; auto.
  - intros fn x G. rewrite get_set_other; [exact G|].
    intros ->. unfold Dict.mem in M. now rewrite G in M.
  - intros fn rules G. exists []. now rewrite app_nil_r.
  - intros name infos G. exists []. now rewrite app_nil_r.
Qed.

Lemma read_lines_extends (lines : list input_line) :
  forall st st' : state, read_lines st lines = Ok st' -> extends st st'.
Proof.
  induction lines as [|l lines IH]; intros st st'; simpl.
  - intros [= <-]. apply extends_refl.
  - destruct (step st l) as [st1|] eqn:S; [|discriminate]. cbn [bind].
    intros H. apply step_ok in S.
    eapply extends_trans; [eapply process_line_extends; eauto|now apply IH].
Qed.

(** ** The maximal references *)

Lemma collect_max_arities_cons (arities : Dict.t Z Z) (t : token)
  (argrefs : list token) :
  collect_max_arities arities (t :: argrefs)
  = collect_max_arities
      (match t with
       | ArgRef arg ref =>
           Dict.set arities arg
             (Z.max (match Dict.get arities arg with
                     | Some m => m
                     | None => -1
                     end) ref)
       | Terminal _ => arities
       end) argrefs.
Proof. reflexivity. Qed.

Lemma collect_max_arities_grows (argrefs : list token) :
  forall (arities : Dict.t Z Z) (arg m0 : Z),
    Dict.get arities arg = Some m0 ->
    exists m,
      Dict.get (collect_max_arities arities argrefs) arg = Some m /\ m0 <= m.
Proof.
  induction argrefs as [|t argrefs IH]; intros arities arg m0 G.
  - exists m0. split; [exact G|lia].
  - rewrite collect_max_arities_cons. destruct t as [s|a r]; [now apply IH|].
    destruct (Z.eqb arg a) eqn:E.
    + apply Z.eqb_eq in E. subst a.
      destruct (IH (Dict.set arities arg (Z.max m0 r)) arg (Z.max m0 r))
        as [m [G' L]]; [apply get_set_same|].
      rewrite G. exists m. split; [exact G'|lia].
    + apply IH. rewrite get_set_other; [exact G|].
      intros ->. now rewrite Z.eqb_refl in E.
Qed.

Lemma collect_max_arities_above (argrefs : list token) :
  forall (arities : Dict.t Z Z) (arg ref : Z),
    In (ArgRef arg ref) argrefs ->
    exists m,
      Dict.get (collect_max_arities arities argrefs) arg = Some m /\ ref <= m.
Proof.
  induction argrefs as [|t argrefs IH]; intros arities arg ref I; [destruct I|].
  rewrite collect_max_arities_cons. destruct I as [->|I]; [|now apply IH].
  set (m1 := Z.max _ ref).
  destruct (collect_max_arities_grows argrefs (Dict.set arities arg m1) arg m1)
    as [m [G L]]; [apply get_set_same|].
  exists m. split; [exact G|]. unfold m1 in L. lia.
Qed.

Lemma collect_max_arities_attained (argrefs : list token) :
  forall (arities : Dict.t Z Z) (arg m : Z),
    Dict.get (collect_max_arities arities argrefs) arg = Some m ->
    Dict.get arities arg = Some m \/ In (ArgRef arg m) argrefs
    \/ (m = -1 /\ Dict.get arities arg = None /\
        exists ref, In (ArgRef arg ref) argrefs).
Proof.
  induction argrefs as [|t argrefs IH]; intros arities arg m G; [now left|].
  rewrite collect_max_arities_cons in G. apply IH in G.
  destruct t as [s|a r].
  - destruct G as [G|[G|[E [G [ref I]]]]]; auto.
    + right. left. now right.
    + right. right. repeat split; auto. exists ref. now right.
  - destruct G as [G|[G|[E [G [ref I]]]]].
    + rewrite get_set in G. change (key_eqb arg a) with (Z.eqb arg a) in G.
      destruct (Z.eqb arg a) eqn:E; [|now left].
      apply Z.eqb_eq in E. subst a. injection G as G.
      destruct (Dict.get arities arg) as [m0|] eqn:G0.
      * destruct (Z.max_spec m0 r) as [[_ M]|[_ M]]; rewrite M in G; subst m.
        -- right. left. now left.
        -- now left.
      * destruct (Z.max_spec (-1) r) as [[_ M]|[_ M]]; rewrite M in G; subst m.
        -- right. left. now left.
        -- right. right. repeat split. exists r. now left.
    + right. left. now right.
    + rewrite get_set in G. change (key_eqb arg a) with (Z.eqb arg a) in G.
      destruct (Z.eqb arg a) eqn:E'; [discriminate|].
      right. right. repeat split; auto. exists ref. now right.
Qed.

(** ** The writer *)

Lemma for_each_ok {L A : Type} (f : A -> effects L unit) (l : list A) :
  (forall x, In x l -> exists log, f x = (log, Ok tt)) ->
  exists log, for_each f l = (log, Ok tt).
Proof.
  induction l as [|x l IH]; intros H; simpl.
  - now exists [].
  - destruct (H x) as [log1 E1]; [now left|].
    destruct IH as [log2 E2]; [intros y I; apply H; now right|].
    unfold and_then. rewrite E1, E2. eauto.
Qed.

Lemma for_each_fails {L A : Type} (f : A -> effects L unit) (l : list A)
  (e : exn) :
  (forall x, In x l ->
     exists log, f x = (log, Ok tt) \/ f x = (log, Raise e)) ->
  (exists x log, In x l /\ f x = (log, Raise e)) ->
  exists log, for_each f l = (log, Raise e).
Proof.
  induction l as [|x l IH]; intros H [y [log [I F]]]; [destruct I|].
  simpl. unfold and_then.
  destruct (H x) as [log1 [E1|E1]]; [now left| |]; rewrite E1; [|eauto].
  destruct I as [->|I]; [congruence|].
  destruct IH as [log2 E2];
    [intros z Iz; apply H; now right|exists y, log; auto|].
  rewrite E2. eauto.
Qed.

Lemma write_sequence_cases (item : string * option (list token)) :
  exists log,
    write_sequence item = (log, Ok tt)
    \/ write_sequence item = (log, Raise none_not_iterable).
Proof.
  destruct item as [sid [seq|]]; simpl; eexists; [left|right]; reflexivity.
Qed.

Lemma get_in {K V : Type} `{Key K} (d : Dict.t K V) (k : K) (v : V) :
  Dict.get d k = Some v -> In (k, v) d.
Proof.
  induction d as [|[k' v'] d IH]; simpl; [discriminate|].
  destruct (key_eqb k k') eqn:E.
  - apply key_eqb_eq in E. subst k'. intros [= ->]. now left.
  - intros G. right. now apply IH.
Qed.

Lemma succeeds_then {L : Type} (c : effects L unit)
  (k : unit -> effects L unit) :
  succeeds c -> succeeds (k tt) -> succeeds (and_then c k).
Proof.
  intros [log1 ->] [log2 E]. unfold and_then. rewrite E. now eexists.
Qed.

Lemma succeeds_then_fails {L A : Type} (c : effects L unit)
  (k : unit -> effects L A) (e : exn) :
  succeeds c -> fails_with e (k tt) -> fails_with e (and_then c k).
Proof.
  intros [log1 ->] [log2 E]. unfold and_then. rewrite E. now eexists.
Qed.

Lemma fails_then {L A B : Type} (c : effects L A) (k : A -> effects L B)
  (e : exn) :
  fails_with e c -> fails_with e (and_then c k).
Proof. intros [log ->]. now eexists. Qed.

Lemma print_succeeds (s : string) : succeeds (print s).
Proof. now eexists. Qed.

Lemma for_each_succeeds {L A : Type} (f : A -> effects L unit) (l : list A) :
  (forall x, In x l -> succeeds (f x)) -> succeeds (for_each f l).
Proof. apply for_each_ok. Qed.

Lemma write_pragmas_succeeds (item : option string * list string) :
  succeeds (write_pragmas item).
Proof.
  destruct item as [pid prgms]. apply for_each_succeeds.
  intros; apply print_succeeds.
Qed.

Lemma write_rules_succeeds (item : string * list rule) :
  succeeds (write_rules item).
Proof.
  destruct item as [fid rules]. apply for_each_succeeds.
  intros; apply print_succeeds.
Qed.

Lemma write_linearization_succeeds (item : string * list string) :
  succeeds (write_linearization item).
Proof. destruct item. apply print_succeeds. Qed.

Lemma write_score_succeeds (item : string * score) :
  succeeds (write_score item).
Proof. destruct item. apply print_succeeds. Qed.

Create HintDb writer.

#[local] Hint Resolve print_succeeds write_pragmas_succeeds
  write_rules_succeeds write_linearization_succeeds write_score_succeeds
  : writer.

Ltac writer_step :=
  first
    [ apply print_succeeds
    | apply for_each_succeeds; intros; auto with writer
    | apply succeeds_then ].

(** ** The numbers of a reference are natural numbers *)

Lemma digits_all_digits (s d r : string) :
  digits s = (d, r) -> all_digits d = true.
Proof.
  revert d r. induction s as [|c s IH]; simpl; intros d r.
  - now intros [= <- <-].
  - destruct (Py.isdecimal c) eqn:E.
    + destruct (digits s) as [d' r'] eqn:D. intros [= <- <-].
      simpl. rewrite E. now apply (IH d' r').
    + now intros [= <- <-].
Qed.

Lemma digitpart_natural (s : string) :
  forall (acc : Z) (b : bool) (n : Z),
    all_digits s = true -> 0 <= acc ->
    Py.digitpart acc b s = Some n -> 0 <= n.
Proof.
  induction s as [|c s IH]; intros acc b n D A; cbn [Py.digitpart].
  - destruct b; [|discriminate]. intros [= <-]. exact A.
  - simpl in D. apply andb_true_iff in D. destruct D as [D1 D2].
    rewrite D1. apply IH; [exact D2|].
    unfold Py.isdecimal, Py.in_range in D1.
    apply andb_true_iff in D1. destruct D1 as [D1 _].
    apply N.leb_le in D1. lia.
Qed.

Lemma int_of_group_natural (d : string) (n : Z) :
  all_digits d = true -> int_of_group (Some d) = Ok n -> 0 <= n.
Proof.
  intros D. unfold int_of_group.
  destruct (Py.int d) as [m|] eqn:E; [|discriminate]. intros [= <-].
  destruct d as [|c d]; [discriminate|].
  rewrite int_digits in E by (auto; discriminate).
  eapply digitpart_natural; eauto. lia.
Qed.

Lemma token_of_match_natural (s : string) (m : re_match) (tok : token) :
  SEQ_REGEXP_match s = Some m -> token_of_match m = Ok tok ->
  natural_refs tok = true.
Proof.
  destruct s as [|c s]; [discriminate|]. unfold SEQ_REGEXP_match.
  destruct (Ascii.eqb c Py.dquote || Ascii.eqb c Py.squote)%bool.
  - destruct (quoted_tail c s) as [[t r]|]; [|discriminate].
    destruct (space_or_end r) as [r'|]; [|discriminate].
    intros [= <-]. unfold token_of_match. cbn [group1].
    destruct (Py.eval (String c t)); [|discriminate].
    now intros [= <-].
  - destruct (digits (String c s)) as [arg r1] eqn:D1.
    destruct arg as [|a arg]; [discriminate|].
    destruct r1 as [|colon r2]; [discriminate|].
    destruct (Ascii.eqb colon ":"); [|discriminate].
    destruct (digits r2) as [ref r3] eqn:D2.
    destruct ref as [|b ref]; [discriminate|].
    destruct (space_or_end r3) as [r'|]; [|discriminate].
    intros [= <-]. unfold token_of_match. cbn [group1 group2 group3].
    apply digits_all_digits in D1, D2.
    destruct (int_of_group (Some (String a arg))) as [x|] eqn:X;
      [|discriminate].
    destruct (int_of_group (Some (String b ref))) as [y|] eqn:Y;
      [|discriminate].
    cbn [bind]. intros [= <-]. simpl.
    apply int_of_group_natural in X, Y; auto.
    apply andb_true_iff. split; now apply Z.leb_le.
Qed.

Lemma reaches_natural (seqstr rest : string) (tokens : list token) :
  reaches seqstr rest tokens ->
  Forall (fun tok => natural_refs tok = true) tokens.
Proof.
  induction 1 as [|rest tokens m tok _ IH M T]; [constructor|].
  apply Forall_app. split; [exact IH|]. constructor; [|constructor].
  eapply token_of_match_natural; eauto.
Qed.

Lemma read_sequence_natural (seqstr : string) (tokens : list token) :
  read_sequence seqstr = Ok tokens ->
  Forall (fun tok => natural_refs tok = true) tokens.
Proof.
  intros R. pose proof (read_sequence_run seqstr) as H. rewrite R in H.
  eapply reaches_natural; eauto.
Qed.

(** ** The arities a successful read has fixed *)

Lemma coherent_initial : coherent initial.
Proof. split; simpl; intros; try discriminate. constructor. Qed.

Lemma keys_set {K V : Type} `{Key K} (d : Dict.t K V) (k : K) (v : V) :
  Dict.keys (Dict.set d k v)
  = if Dict.mem k d then Dict.keys d else Dict.keys d ++ [k].
Proof.
  unfold Dict.keys, Dict.mem. induction d as [|[k' v'] d IH]; simpl.
  - reflexivity.
  - destruct (key_eqb k k') eqn:E; simpl.
    + apply key_eqb_eq in E. now subst k'.
    + rewrite IH. now destruct (Dict.get d k).
Qed.

Lemma get_none_keys {K V : Type} `{Key K} (d : Dict.t K V) (k : K) :
  Dict.get d k = None -> ~ In k (Dict.keys d).
Proof.
  unfold Dict.keys. induction d as [|[k' v'] d IH]; simpl; [tauto|].
  destruct (key_eqb k k') eqn:E; [discriminate|].
  intros G [->|I]; [now rewrite key_eqb_refl in E|now apply IH].
Qed.

Lemma keys_append_to {K V : Type} `{Key K} (d : Dict.t K (list V)) (k : K)
  (x : V) :
  NoDup (Dict.keys d) -> NoDup (Dict.keys (append_to d k x)).
Proof.
  intros N. unfold append_to. destruct (Dict.get d k) as [l|] eqn:G.
  - rewrite keys_set. unfold Dict.mem. now rewrite G.
  - unfold Dict.keys. rewrite map_app. simpl.
    apply NoDup_app; [exact N|repeat constructor; tauto|].
    intros k' I [E|[]]. subst k'. now apply (get_none_keys d k G).
Qed.

(** Where no key is repeated, an item of a dictionary is what its key
    reads. *)
Lemma in_get {K V : Type} `{Key K} (d : Dict.t K V) (k : K) (v : V) :
  NoDup (Dict.keys d) -> In (k, v) d -> Dict.get d k = Some v.
Proof.
  unfold Dict.keys. induction d as [|[k' v'] d IH]; simpl; [tauto|].
  intros N. inversion N as [|? ? N1 N2]; subst. intros [[= -> ->]|I].
  - now rewrite key_eqb_refl.
  - destruct (key_eqb k k') eqn:E; [|now apply IH].
    apply key_eqb_eq in E. subst k'. exfalso. apply N1.
    change k with (fst (k, v)). now apply in_map.
Qed.

Lemma match_arity_sets (nts nts' : Dict.t string (option Z))
  (lhs fn : string) (fa : Z) :
  match_arity nts lhs fn fa = Ok nts' ->
  Dict.get nts' lhs = Some (Some fa).
Proof.
  unfold match_arity, get_value.
  destruct (Dict.get nts lhs) as [[la|]|] eqn:L.
  - destruct (la =? fa) eqn:E; [|discriminate]. simpl. intros [= <-].
    apply Z.eqb_eq in E. now subst la.
  - intros [= <-]. apply get_set_same.
  - intros [= <-]. apply get_set_same.
Qed.

Lemma propagate_arity_sets (rules : list rule) :
  forall (nts nts' : Dict.t string (option Z)) (fn : string) (fa : Z)
    (lhs : string) (rhs : list string),
    propagate_arity nts rules fn fa = Ok nts' -> In (lhs, rhs) rules ->
    Dict.get nts' lhs = Some (Some fa).
Proof.
  induction rules as [|[lhs0 rhs0] rules IH];
    intros nts nts' fn fa lhs rhs; simpl; [intros _ []|].
  destruct (match_arity nts lhs0 fn fa) as [nts1|] eqn:M; [|discriminate].
  simpl. intros P [[= -> ->]|I].
  - eapply propagate_arity_kept; [exact P|].
    eapply match_arity_sets; eauto.
  - eapply IH; eauto.
Qed.

Lemma rule_declaration_coherent (st st' : state) (ident rest : string) :
  coherent st -> rule_declaration st ident rest = Ok st' -> coherent st'.
Proof.
  intros [A B C D E N]. unfold rule_declaration.
  destruct (read_rule rest) as [[lhs rhs]|]; [|discriminate].
  cbn [bind]. cbv zeta.
  cbn [fun_arities nonterms linearizations sequences functions].
  set (fs := append_to (functions st) ident (lhs, rhs)).
  match goal with |- context [register_rhs ?s _ _] => set (st1 := s) end.
  destruct (match Dict.get (fun_arities st) ident with
            | Some fun_arity => match_arity (nonterms st) lhs ident fun_arity
            | None => Ok (nonterms st)
            end) as [nts1|] eqn:M; [|discriminate].
  cbn [bind].
  destruct (register_rhs st1 nts1 rhs) as [nts2|] eqn:R; [|discriminate].
  cbn [bind].
  destruct (Dict.mem lhs (linearizations st) || Dict.mem lhs fs
            || Dict.mem lhs (sequences st))%bool; [discriminate|].
  destruct (Dict.mem ident nts2 || Dict.mem ident (sequences st))%bool;
    [discriminate|].
  assert (K : forall k a, Dict.get (nonterms st) k = Some (Some a) ->
                          Dict.get nts2 k = Some (Some a)).
  { intros k a G. eapply register_rhs_kept; [exact R|].
    destruct (Dict.get (fun_arities st) ident).
    - eapply match_arity_kept; eauto.
    - now injection M as <-. }
  intros [= <-].
  split; cbn [linearizations sequences functions nonterms fun_arities
              seq_arities]; auto; [|now apply keys_append_to].
  intros fn lin rules l0 r0 L G I. unfold fs in G.
  rewrite get_append_to in G.
  destruct (key_eqb fn ident) eqn:Q.
  - apply key_eqb_eq in Q. subst fn. injection G as <-.
    assert (I' : (exists old, Dict.get (functions st) ident = Some old
                              /\ In (l0, r0) old)
                 \/ (l0, r0) = (lhs, rhs)).
    { destruct (Dict.get (functions st) ident) as [old|].
      - apply in_app_or in I. destruct I as [I|[I|[]]];
          [left; eauto|right; auto].
      - destruct I as [I|[]]. right; auto. }
    destruct I' as [[old [G I']]|[= -> ->]].
    + apply K. eapply B; eauto.
    + eapply register_rhs_kept; [exact R|].
      rewrite (A _ _ L) in M. eapply match_arity_sets; eauto.
  - apply K. eapply B; eauto.
Qed.

Lemma linearization_declaration_coherent (st st' : state)
  (ident rest : string) :
  coherent st -> linearization_declaration st ident rest = Ok st' ->
  coherent st'.
Proof.
  intros [A B C D E N]. unfold linearization_declaration.
  destruct (read_linearization rest) as [lin|]; [|discriminate].
  cbn [bind].
  destruct (Dict.get (linearizations st) ident) as [old|] eqn:L0;
    [discriminate|].
  cbv zeta.
  set (rules := match Dict.get (functions st) ident with
                | Some rules => rules
                | None => []
                end).
  destruct (propagate_arity (nonterms st) rules ident
              (Z.of_nat (length lin))) as [nts|] eqn:P; [|discriminate].
  cbn [bind].
  set (seqs := fold_left _ lin (sequences st)).
  destruct (Dict.mem ident nts || Dict.mem ident seqs)%bool; [discriminate|].
  intros [= <-].
  destruct (register_sequences_facts lin (sequences st)) as [S1 [S2 S3]].
  fold seqs in S1, S2, S3.
  split; cbn [linearizations sequences functions nonterms fun_arities
              seq_arities].
  - intros fn l G. rewrite get_set in G. rewrite get_set.
    destruct (key_eqb fn ident); [now injection G as <-|now apply A].
  - intros fn l rs l0 r0 G F I. rewrite get_set in G.
    destruct (key_eqb fn ident) eqn:Q.
    + apply key_eqb_eq in Q. subst fn. injection G as <-.
      unfold rules in P. rewrite F in P.
      eapply propagate_arity_sets; eauto.
    + eapply propagate_arity_kept; [exact P|]. eapply B; eauto.
  - intros seq tokens G. apply S3 in G. now apply C.
  - intros seq items G. destruct (D _ _ G) as [tokens G'].
    exists tokens. now apply register_sequences_kept.
  - intros seq tokens G. apply S3 in G. eapply E; eauto.
  - exact N.
Qed.

Lemma sequence_declaration_coherent (st st' : state) (ident rest : string) :
  coherent st -> sequence_declaration st ident rest = Ok st' -> coherent st'.
Proof.
  intros [A B C D E N]. unfold sequence_declaration.
  destruct (read_sequence rest) as [tokens|] eqn:R; [|discriminate].
  cbn [bind].
  destruct (get_value (sequences st) ident) eqn:V; [discriminate|].
  cbv zeta.
  destruct (Dict.mem ident (nonterms st) || Dict.mem ident (linearizations st)
            || Dict.mem ident (functions st))%bool; [discriminate|].
  intros [= <-].
  split; cbn [linearizations sequences functions nonterms fun_arities
              seq_arities]; auto.
  - intros seq toks G. rewrite get_set in G. rewrite get_set.
    destruct (key_eqb seq ident); [now injection G as <-|now apply C].
  - intros seq items G. rewrite get_set in G. rewrite get_set.
    destruct (key_eqb seq ident); [eauto|eapply D; eauto].
  - intros seq toks G. rewrite get_set in G.
    destruct (key_eqb seq ident).
    + injection G as <-. eapply read_sequence_natural; eauto.
    + eapply E; eauto.
Qed.

Lemma process_line_coherent (st st' : state) (line : string) :
  coherent st -> process_line st line = Ok st' -> coherent st'.
Proof.
  intros R. unfold process_line.
  destruct (Py.lstrip line) as [|c tail]; [now intros [= <-]|].
  destruct (Py.char_in c COMMENT); [now intros [= <-]|].
  destruct (String.eqb (Py.str1 c) PRAGMA).
  { unfold pragma_line.
    destruct (if Py.str_isspace (String.substring 0 1 tail) then _ else _)
      as [[pragma info]|]; [|discriminate].
    cbn [bind]. intros [= <-]. destruct R. now split. }
  unfold declaration_line.
  destruct (unpack3 (whitespace_split (String c tail) 2))
    as [[[ident keyword] rest]|]; [|discriminate].
  cbn [bind].
  destruct (negb (is_identifier ident)); [discriminate|].
  destruct (String.eqb keyword RULE);
    [now apply rule_declaration_coherent|].
  destruct (String.eqb keyword LINEARIZATION);
    [now apply linearization_declaration_coherent|].
  destruct (String.eqb keyword SEQUENCE);
    [now apply sequence_declaration_coherent|].
  unfold score_declaration.
  destruct (parse_score keyword); [|discriminate]. cbn [bind].
  destruct rest; [|discriminate].
  destruct (Dict.mem ident (scores st)); [discriminate|].
  intros [= <-]. destruct R. now split.
Qed.

Lemma read_lines_coherent (lines : list input_line) :
  forall st st' : state,
    coherent st -> read_lines st lines = Ok st' -> coherent st'.
Proof.
  induction lines as [|l lines IH]; intros st st' R; simpl.
  - now intros [= <-].
  - destruct (step st l) as [st1|] eqn:S; [|discriminate]. cbn [bind].
    apply step_ok in S. apply IH. eapply process_line_coherent; eauto.
Qed.

(** ** What the sweep reports and when it raises *)

Lemma sound_then {L A B : Type} (P : L -> Prop) (Q : exn -> Prop)
  (c : effects L A) (k : A -> effects L B) :
  sound P Q c -> (forall a, snd c = Ok a -> sound P Q (k a)) ->
  sound P Q (and_then c k).
Proof.
  unfold sound, and_then. destruct c as [log [a|e]]; intros [F R] K;
    cbn [fst snd] in *.
  - destruct (K a eq_refl) as [F' R']. destruct (k a) as [log' r].
    cbn [fst snd] in *. split; [now apply Forall_app|exact R'].
  - split; [exact F|]. intros e0 [= <-]. now apply R.
Qed.

Lemma sound_for_each {L A : Type} (P : L -> Prop) (Q : exn -> Prop)
  (f : A -> effects L unit) (l : list A) :
  (forall x, In x l -> sound P Q (f x)) -> sound P Q (for_each f l).
Proof.
  induction l as [|x l IH]; intros H; simpl.
  - split; [constructor|discriminate].
  - apply sound_then; [apply H; now left|].
    intros _ _. apply IH. intros y I. apply H. now right.
Qed.

Lemma sound_emit {L : Type} (P : L -> Prop) (Q : exn -> Prop) (x : L) :
  P x -> sound P Q (emit x).
Proof. intros H. split; [now repeat constructor|discriminate]. Qed.

Lemma sound_ret {L A : Type} (P : L -> Prop) (Q : exn -> Prop) (a : A) :
  sound P Q (@ret L A a).
Proof. split; [constructor|discriminate]. Qed.

Lemma sound_lift {L A : Type} (P : L -> Prop) (Q : exn -> Prop)
  (r : result A) :
  (forall e, r = Raise e -> Q e) -> sound P Q (@lift L A r).
Proof. intros H. split; [constructor|exact H]. Qed.

Lemma getitem_subscript {A : Type} (l : list A) (i : Z) (e : exn) :
  getitem l i = Raise e -> e = mkExn IndexError "list index out of range".
Proof.
  unfold getitem.
  destruct (if (if i <? 0 then i + Z.of_nat (length l) else i) <? 0
            then None
            else nth_error l
                   (Z.to_nat (if i <? 0 then i + Z.of_nat (length l) else i)));
    [discriminate|].
  now intros [= <-].
Qed.

Lemma check_reference_sound (st : state) (fn : string) (rhs : list string)
  (item : Z * Z) :
  sound no_arity_mismatch subscript_failure (check_reference st fn rhs item).
Proof.
  destruct item as [arg maxref]. unfold check_reference.
  apply sound_then.
  { destruct (arg >=? Z.of_nat (length rhs));
      [now apply sound_emit|apply sound_ret]. }
  intros _ _. apply sound_then.
  { apply sound_lift. intros e H. apply getitem_subscript in H.
    subst e. now right. }
  intros nt _. destruct (get_value (nonterms st) nt) as [a|].
  - destruct (a <=? maxref); [now apply sound_emit|apply sound_ret].
  - now apply sound_emit.
Qed.

Lemma check_rule_sound (st : state) (fn : string) (fa : Z)
  (arities : Dict.t Z Z) (lhs : string) (rhs : list string) :
  Dict.get (nonterms st) lhs = Some (Some fa) ->
  sound no_arity_mismatch subscript_failure
    (check_rule st fn fa arities (lhs, rhs)).
Proof.
  intros G. unfold check_rule, lookup. rewrite G.
  apply sound_then; [apply sound_lift; discriminate|].
  intros a [= <-]. rewrite Z.eqb_refl. cbn [negb].
  apply sound_then; [apply sound_ret|].
  intros _ _. apply sound_for_each. intros item _.
  apply check_reference_sound.
Qed.

Lemma merge_arities_subscript (seq_arities : Dict.t string (Dict.t Z Z))
  (lin : list string) :
  forall (arities : Dict.t Z Z) (e : exn),
    merge_arities seq_arities arities lin = Raise e ->
    exists seq,
      In seq lin /\ Dict.get seq_arities seq = None /\
      e = mkExn KeyError (Py.repr seq).
Proof.
  induction lin as [|seq lin IH]; intros arities e; simpl; [discriminate|].
  unfold lookup. destruct (Dict.get seq_arities seq) as [items|] eqn:L; simpl.
  - intros H. destruct (IH _ _ H) as [s [I [G E]]]. exists s. auto.
  - intros [= <-]. exists seq. auto.
Qed.

Lemma check_function_sound (st : state) (fn : string) (rules : list rule) :
  coherent st -> In (fn, rules) (functions st) ->
  sound no_arity_mismatch subscript_failure (check_function st (fn, rules)).
Proof.
  intros C I. unfold check_function.
  destruct (Dict.get (linearizations st) fn) as [lin|] eqn:L;
    [|now apply sound_emit].
  apply sound_then.
  { apply sound_lift. intros e H.
    apply merge_arities_subscript in H. destruct H as [s [_ [_ ->]]].
    now left. }
  intros arities _. unfold lookup. rewrite (lin_arity st C _ _ L).
  apply sound_then; [apply sound_lift; discriminate|].
  intros fa [= <-]. apply sound_for_each. intros [lhs rhs] Ir.
  apply check_rule_sound. eapply rule_arity; eauto.
  apply in_get; [apply (functions_once st C)|exact I].
Qed.

Lemma sweep_sound (st : state) :
  coherent st -> sound no_arity_mismatch subscript_failure (sweep st).
Proof.
  intros C. unfold sweep.
  apply sound_then.
  { destruct (undefined (nonterms st)); [apply sound_ret|now apply sound_emit]. }
  intros _ _. apply sound_then.
  { destruct (undefined (sequences st)); [apply sound_ret|now apply sound_emit]. }
  intros _ _. apply sound_for_each. intros [fn rules] I.
  now apply check_function_sound.
Qed.

Lemma and_then_run {L A B : Type} (c : effects L A) (k : A -> effects L B)
  (log : list L) (r : result B) :
  and_then c k = (log, r) ->
  (exists e, c = (log, Raise e) /\ r = Raise e)
  \/ (exists log1 a log2,
        c = (log1, Ok a) /\ k a = (log2, r) /\ log = log1 ++ log2).
Proof.
  unfold and_then. destruct c as [log1 [a|e]].
  - destruct (k a) as [log2 r'] eqn:K. intros [= <- <-]. right.
    exists log1, a, log2. auto.
  - intros [= <- <-]. left. eauto.
Qed.

Lemma for_each_raise_log {L A : Type} (f : A -> effects L unit) (l : list A)
  (log : list L) (e : exn) :
  for_each f l = (log, Raise e) ->
  exists x log1 log2,
    In x l /\ f x = (log2, Raise e) /\ log = log1 ++ log2.
Proof.
  revert log. induction l as [|x l IH]; intros log; simpl; [discriminate|].
  intros H. apply and_then_run in H.
  destruct H as [[e' [H [= <-]]]|[log1 [[] [log2 [H1 [H2 ->]]]]]].
  - exists x, [], log. auto.
  - destruct (IH _ H2) as [y [la [lb [I [F ->]]]]].
    exists y, (log1 ++ la), lb. rewrite app_assoc. auto.
Qed.

Lemma out_of_range_app (pre log : list warning) (e : exn) :
  out_of_range log e -> out_of_range (pre ++ log) e.
Proof.
  intros [log' [fn [arg [bound [-> [B E]]]]]].
  exists (pre ++ log'), fn, arg, bound. now rewrite app_assoc.
Qed.

Lemma getitem_in_range {A : Type} (l : list A) (i : Z) :
  0 <= i < Z.of_nat (length l) -> exists x, getitem l i = Ok x.
Proof.
  intros H. unfold getitem.
  destruct (i <? 0) eqn:N; [lia|]. rewrite N.
  destruct (nth_error l (Z.to_nat i)) as [x|] eqn:E; [eauto|].
  apply nth_error_None in E. lia.
Qed.

Lemma check_reference_raises (st : state) (fn : string) (rhs : list string)
  (arg maxref : Z) (log : list warning) (e : exn) :
  0 <= arg ->
  check_reference st fn rhs (arg, maxref) = (log, Raise e) ->
  out_of_range log e.
Proof.
  intros N. unfold check_reference. intros H.
  assert (T : forall nt log',
             match get_value (nonterms st) nt with
             | Some rhs_arity =>
                 if rhs_arity <=? maxref
                 then emit (ReferenceMismatch arg maxref fn nt rhs_arity)
                 else ret tt
             | None => emit (MissingDefinition nt)
             end <> (log', Raise e)).
  { intros nt log'. destruct (get_value (nonterms st) nt) as [a|];
      [destruct (a <=? maxref)|]; discriminate. }
  apply and_then_run in H.
  destruct H as [[e' [H _]]|[log1 [[] [log2 [H1 [H2 ->]]]]]].
  { destruct (arg >=? Z.of_nat (length rhs)); discriminate. }
  apply and_then_run in H2.
  destruct H2 as [[e' [H [= <-]]]|[log3 [nt [log4 [_ [H _]]]]]];
    [|now apply T in H].
  injection H as <- H.
  destruct (arg >=? Z.of_nat (length rhs)) eqn:G.
  - injection H1 as <-. exists [], fn, arg, (Z.of_nat (length rhs)).
    repeat split; [lia|]. eapply getitem_subscript; eauto.
  - destruct (getitem_in_range rhs arg) as [x X]; [lia|congruence].
Qed.

Lemma set_in {K V : Type} `{Key K} (d : Dict.t K V) (k k' : K) (v v' : V) :
  In (k', v') (Dict.set d k v) -> In (k', v') d \/ (k' = k /\ v' = v).
Proof.
  induction d as [|[k0 v0] d IH]; simpl.
  - intros [[= <- <-]|[]]. now right.
  - destruct (key_eqb k k0) eqn:E; simpl.
    + apply key_eqb_eq in E. subst k0.
      intros [[= <- <-]|I]; [now right|left; now right].
    + intros [I|I]; [now left; left|].
      destruct (IH I); [left; now right|now right].
Qed.

Lemma collect_natural_keys (argrefs : list token) :
  forall arities : Dict.t Z Z,
    natural_keys arities ->
    (forall arg ref, In (ArgRef arg ref) argrefs -> 0 <= arg) ->
    natural_keys (collect_max_arities arities argrefs).
Proof.
  induction argrefs as [|t argrefs IH]; intros arities N H; [exact N|].
  rewrite collect_max_arities_cons. apply IH.
  - destruct t as [s|a r]; [exact N|].
    intros arg m I. apply set_in in I. destruct I as [I|[-> _]].
    + eapply N; eauto.
    + apply (H a r). now left.
  - intros arg ref I. apply (H arg ref). now right.
Qed.

Lemma merge_natural_keys (seq_arities : Dict.t string (Dict.t Z Z))
  (lin : list string) :
  (forall seq items, Dict.get seq_arities seq = Some items ->
                     natural_keys items) ->
  forall arities merged : Dict.t Z Z,
    natural_keys arities ->
    merge_arities seq_arities arities lin = Ok merged ->
    natural_keys merged.
Proof.
  intros S. induction lin as [|seq lin IH]; intros arities merged N; simpl.
  - now intros [= <-].
  - unfold lookup. destruct (Dict.get seq_arities seq) as [items|] eqn:G;
      [|discriminate].
    cbn [bind]. apply IH. apply collect_natural_keys; [exact N|].
    intros arg ref I. apply in_map_iff in I.
    destruct I as [[a m] [[= -> ->] I]]. eapply S; eauto.
Qed.

Lemma coherent_natural_keys (st : state) (seq : string) (items : Dict.t Z Z) :
  coherent st -> Dict.get (seq_arities st) seq = Some items ->
  natural_keys items.
Proof.
  intros C G. destruct (arities_body st C _ _ G) as [tokens B].
  rewrite (body_arities st C _ _ B) in G. injection G as <-.
  apply collect_natural_keys; [intros ? ? []|].
  intros arg ref I. pose proof (refs_natural st C _ _ B) as F.
  rewrite Forall_forall in F. apply F in I. simpl in I.
  apply andb_true_iff in I. destruct I as [I _]. now apply Z.leb_le.
Qed.

Lemma check_rule_raises (st : state) (fn : string) (fa : Z)
  (arities : Dict.t Z Z) (lhs : string) (rhs : list string)
  (log : list warning) (e : exn) :
  Dict.get (nonterms st) lhs = Some (Some fa) -> natural_keys arities ->
  check_rule st fn fa arities (lhs, rhs) = (log, Raise e) ->
  out_of_range log e.
Proof.
  intros G N. unfold check_rule, lookup. rewrite G. cbn [lift and_then].
  rewrite Z.eqb_refl. cbn [negb ret app].
  destruct (for_each (check_reference st fn rhs) arities) as [log' r] eqn:F.
  intros [= <- ->]. apply for_each_raise_log in F.
  destruct F as [[arg maxref] [log1 [log2 [I [F ->]]]]].
  apply out_of_range_app. eapply check_reference_raises; eauto.
Qed.

Lemma check_function_raises (st : state) (fn : string) (rules : list rule)
  (log : list warning) (e : exn) :
  coherent st -> In (fn, rules) (functions st) ->
  check_function st (fn, rules) = (log, Raise e) ->
  missing_body st e \/ out_of_range log e.
Proof.
  intros C I. unfold check_function.
  pose proof (in_get _ _ _ (functions_once st C) I) as F.
  destruct (Dict.get (linearizations st) fn) as [lin|] eqn:L; [|discriminate].
  destruct (merge_arities (seq_arities st) [] lin) as [arities|e'] eqn:M.
  - cbn [lift and_then]. unfold lookup. rewrite (lin_arity st C _ _ L).
    cbn [lift and_then].
    destruct (for_each _ rules) as [log' r] eqn:R. cbn [app].
    intros [= <- ->]. right. apply for_each_raise_log in R.
    destruct R as [[lhs rhs] [log1 [log2 [Ir [R ->]]]]].
    apply out_of_range_app. eapply check_rule_raises; [| |exact R].
    + eapply rule_arity; eauto.
    + apply (merge_natural_keys (seq_arities st) lin
               (fun seq items => coherent_natural_keys st seq items C)
               [] arities); [intros ? ? []|exact M].
  - cbn [lift and_then]. intros [= <- <-]. left.
    apply merge_arities_subscript in M. destruct M as [seq [Is [G ->]]].
    exists fn, lin, seq. repeat split; auto.
    unfold Dict.mem. now rewrite F.
Qed.

Lemma sweep_raises_cases (st : state) (log : list warning) (e : exn) :
  coherent st -> sweep st = (log, Raise e) ->
  (missing_body st e /\
   In (UndefinedSequences (undefined (sequences st))) log
   \/ missing_body st e /\ undefined (sequences st) = [])
  \/ out_of_range log e.
Proof.
  intros C. unfold sweep. intros H.
  apply and_then_run in H.
  destruct H as [[e' [H _]]|[log1 [[] [log2 [H1 [H2 ->]]]]]].
  { destruct (undefined (nonterms st)); discriminate. }
  apply and_then_run in H2.
  destruct H2 as [[e' [H _]]|[log3 [[] [log4 [H3 [H4 ->]]]]]].
  { destruct (undefined (sequences st)); discriminate. }
  apply for_each_raise_log in H4.
  destruct H4 as [[fn rules] [la [lb [I [F ->]]]]].
  destruct (check_function_raises _ _ _ _ _ C I F) as [M|O].
  - left. destruct (undefined (sequences st)) as [|s ss] eqn:U.
    + right. auto.
    + left. split; [exact M|]. injection H3 as <-.
      apply in_or_app. right. now left.
  - right. now repeat apply out_of_range_app.
Qed.

(** ** The names of a grammar are identifiers *)

Lemma named_initial : named initial.
Proof. split; simpl; intros; discriminate. Qed.

Lemma read_rule_identifiers (rulestr lhs : string) (rhs : list string) :
  read_rule rulestr = Ok (lhs, rhs) ->
  is_identifier lhs = true /\ Forall (fun nt => is_identifier nt = true) rhs.
Proof.
  unfold read_rule.
  destruct (whitespace_split rulestr (-1)) as [|l [|arrow r]];
    try discriminate.
  destruct (String.eqb arrow RULEARROW); [|discriminate].
  destruct (first_non_identifier (l :: r)) eqn:F; [discriminate|].
  intros [= <- <-]. apply first_non_identifier_none in F.
  now inversion F.
Qed.

Lemma read_linearization_identifiers (linstr : string) (lin : list string) :
  read_linearization linstr = Ok lin ->
  Forall (fun seq => is_identifier seq = true) lin.
Proof.
  unfold read_linearization.
  destruct (first_non_identifier (whitespace_split linstr (-1))) eqn:F;
    [discriminate|].
  intros [= <-]. now apply first_non_identifier_none.
Qed.

Lemma match_arity_mem_back (nts nts' : Dict.t string (option Z))
  (lhs fn : string) (fa : Z) (k : string) :
  match_arity nts lhs fn fa = Ok nts' ->
  Dict.mem k nts' = true -> Dict.mem k nts = true \/ k = lhs.
Proof.
  intros M Hk. destruct (match_arity_cases _ _ _ _ _ M) as [->| ->]; auto.
  rewrite mem_set in Hk. apply orb_true_iff in Hk. destruct Hk as [E|Hk]; auto.
  right. now apply key_eqb_eq in E.
Qed.

Lemma propagate_arity_mem_back (rules : list rule) :
  forall (nts nts' : Dict.t string (option Z)) (fn : string) (fa : Z)
    (k : string),
    propagate_arity nts rules fn fa = Ok nts' ->
    Dict.mem k nts' = true ->
    Dict.mem k nts = true \/ exists rhs, In (k, rhs) rules.
Proof.
  induction rules as [|[lhs rhs] rules IH]; intros nts nts' fn fa k; simpl.
  - intros [= <-]. now left.
  - destruct (match_arity nts lhs fn fa) as [nts1|] eqn:M; [|discriminate].
    simpl. intros P Hk. destruct (IH _ _ _ _ _ P Hk) as [H|[rhs' I]].
    + destruct (match_arity_mem_back _ _ _ _ _ _ M H) as [H'| ->]; auto.
      right. exists rhs. now left.
    + right. exists rhs'. now right.
Qed.

Lemma register_rhs_mem_back (st : state) (rhs : list string) :
  forall (nts nts' : Dict.t string (option Z)) (k : string),
    register_rhs st nts rhs = Ok nts' ->
    Dict.mem k nts' = true -> Dict.mem k nts = true \/ In k rhs.
Proof.
  induction rhs as [|r rhs IH]; intros nts nts' k; simpl.
  - intros [= <-]. now left.
  - destruct (Dict.mem r (linearizations st) || Dict.mem r (functions st)
              || Dict.mem r (sequences st))%bool; [discriminate|].
    intros R Hk. destruct (IH _ _ _ R Hk) as [H|I]; [|now right; right].
    rewrite mem_setdefault in H. apply orb_true_iff in H.
    destruct H as [E|H]; [|now left].
    apply key_eqb_eq in E. right. now left.
Qed.

Lemma register_sequences_mem_back (lin : list string) :
  forall (seqs : Dict.t string (option (list token))) (k : string),
    Dict.mem k (fold_left (fun sequences seq =>
                             Dict.setdefault sequences seq None) lin seqs)
    = true ->
    Dict.mem k seqs = true \/ In k lin.
Proof.
  induction lin as [|s lin IH]; intros seqs k; simpl; [now left|].
  intros Hk. destruct (IH _ _ Hk) as [H|I]; [|now right; right].
  rewrite mem_setdefault in H. apply orb_true_iff in H.
  destruct H as [E|H]; [|now left].
  apply key_eqb_eq in E. right. now left.
Qed.

Lemma mem_append_to {V : Type} (d : Dict.t string (list V)) (k k' : string)
  (x : V) :
  Dict.mem k' (append_to d k x) = true -> k' = k \/ Dict.mem k' d = true.
Proof.
  unfold Dict.mem. rewrite get_append_to.
  destruct (key_eqb k' k) eqn:E; [left; now apply key_eqb_eq in E|now right].
Qed.

Lemma rule_declaration_named (st st' : state) (ident rest : string) :
  is_identifier ident = true ->
  named st -> rule_declaration st ident rest = Ok st' -> named st'.
Proof.
  intros Hi [A B C D E F]. unfold rule_declaration.
  destruct (read_rule rest) as [[lhs rhs]|] eqn:RR; [|discriminate].
  destruct (read_rule_identifiers _ _ _ RR) as [Il Ir].
  cbn [bind]. cbv zeta.
  cbn [fun_arities nonterms linearizations sequences functions].
  set (fs := append_to (functions st) ident (lhs, rhs)).
  match goal with |- context [register_rhs ?s _ _] => set (st1 := s) end.
  destruct (match Dict.get (fun_arities st) ident with
            | Some fun_arity => match_arity (nonterms st) lhs ident fun_arity
            | None => Ok (nonterms st)
            end) as [nts1|] eqn:M; [|discriminate].
  cbn [bind].
  destruct (register_rhs st1 nts1 rhs) as [nts2|] eqn:R; [|discriminate].
  cbn [bind].
  destruct (Dict.mem lhs (linearizations st) || Dict.mem lhs fs
            || Dict.mem lhs (sequences st))%bool; [discriminate|].
  destruct (Dict.mem ident nts2 || Dict.mem ident (sequences st))%bool;
    [discriminate|].
  intros [= <-].
  split; cbn [linearizations sequences functions nonterms fun_arities
              seq_arities scores]; auto.
  - intros fn Hm. apply mem_append_to in Hm. destruct Hm as [->|Hm]; auto.
  - intros fn rules l0 r0 G I. unfold fs in G. rewrite get_append_to in G.
    destruct (key_eqb fn ident) eqn:Q; [|eapply B; eauto].
    apply key_eqb_eq in Q. subst fn. injection G as <-.
    destruct (Dict.get (functions st) ident) as [old|] eqn:G0.
    + apply in_app_or in I. destruct I as [I|[[= <- <-]|[]]];
        [eapply B; eauto|auto].
    + destruct I as [[= <- <-]|[]]. auto.
  - intros nt Hm. apply (register_rhs_mem_back _ _ _ _ _ R) in Hm.
    destruct Hm as [Hm|I].
    + assert (H1 : Dict.mem nt (nonterms st) = true \/ nt = lhs).
      { destruct (Dict.get (fun_arities st) ident).
        - eapply match_arity_mem_back; eauto.
        - injection M as <-. now left. }
      destruct H1 as [H1| ->]; auto.
    + rewrite Forall_forall in Ir. now apply Ir.
Qed.

Lemma linearization_declaration_named (st st' : state) (ident rest : string) :
  is_identifier ident = true ->
  named st -> linearization_declaration st ident rest = Ok st' -> named st'.
Proof.
  intros Hi [A B C D E F]. unfold linearization_declaration.
  destruct (read_linearization rest) as [lin|] eqn:RL; [|discriminate].
  pose proof (read_linearization_identifiers _ _ RL) as Il.
  cbn [bind].
  destruct (Dict.get (linearizations st) ident) as [old|] eqn:L0;
    [discriminate|].
  cbv zeta.
  set (rules := match Dict.get (functions st) ident with
                | Some rules => rules
                | None => []
                end).
  destruct (propagate_arity (nonterms st) rules ident
              (Z.of_nat (length lin))) as [nts|] eqn:P; [|discriminate].
  cbn [bind].
  set (seqs := fold_left _ lin (sequences st)).
  destruct (Dict.mem ident nts || Dict.mem ident seqs)%bool; [discriminate|].
  intros [= <-].
  split; cbn [linearizations sequences functions nonterms fun_arities
              seq_arities scores]; auto.
  - intros fn l G. rewrite get_set in G.
    destruct (key_eqb fn ident) eqn:Q; [|now apply C].
    apply key_eqb_eq in Q. subst fn. now injection G as <-.
  - intros seq Hm. apply register_sequences_mem_back in Hm.
    destruct Hm as [Hm|I]; auto.
    rewrite Forall_forall in Il. now apply Il.
  - intros nt Hm. apply (propagate_arity_mem_back _ _ _ _ _ _ P) in Hm.
    destruct Hm as [Hm|[rhs I]]; auto.
    unfold rules in I.
    destruct (Dict.get (functions st) ident) as [rs|] eqn:G; [|destruct I].
    now apply (B _ _ _ _ G I).
Qed.

Lemma process_line_named (st st' : state) (line : string) :
  named st -> process_line st line = Ok st' -> named st'.
Proof.
  intros R. unfold process_line.
  destruct (Py.lstrip line) as [|c tail]; [now intros [= <-]|].
  destruct (Py.char_in c COMMENT); [now intros [= <-]|].
  destruct (String.eqb (Py.str1 c) PRAGMA).
  { unfold pragma_line.
    destruct (if Py.str_isspace (String.substring 0 1 tail) then _ else _)
      as [[pragma info]|]; [|discriminate].
    cbn [bind]. intros [= <-]. destruct R. now split. }
  unfold declaration_line.
  destruct (unpack3 (whitespace_split (String c tail) 2))
    as [[[ident keyword] rest]|]; [|discriminate].
  cbn [bind].
  destruct (is_identifier ident) eqn:Hi; [|discriminate]. cbn [negb].
  destruct (String.eqb keyword RULE);
    [now apply rule_declaration_named|].
  destruct (String.eqb keyword LINEARIZATION);
    [now apply linearization_declaration_named|].
  destruct (String.eqb keyword SEQUENCE).
  { unfold sequence_declaration.
    destruct (read_sequence rest) as [tokens|]; [|discriminate].
    cbn [bind].
    destruct (get_value (sequences st) ident); [discriminate|].
    cbv zeta.
    destruct (Dict.mem ident (nonterms st) || Dict.mem ident (linearizations st)
              || Dict.mem ident (functions st))%bool; [discriminate|].
    intros [= <-]. destruct R as [A B C D E F].
    split; cbn [linearizations sequences functions nonterms fun_arities
                seq_arities scores]; auto.
    intros seq Hm. rewrite mem_set in Hm. apply orb_true_iff in Hm.
    destruct Hm as [Q|Hm]; auto. apply key_eqb_eq in Q. now subst seq. }
  unfold score_declaration.
  destruct (parse_score keyword); [|discriminate]. cbn [bind].
  destruct rest; [|discriminate].
  destruct (Dict.mem ident (scores st)); [discriminate|].
  intros [= <-]. destruct R as [A B C D E F].
  split; cbn [linearizations sequences functions nonterms fun_arities
              seq_arities scores add_score]; auto.
  intros fn Hm. rewrite mem_set in Hm. apply orb_true_iff in Hm.
  destruct Hm as [Q|Hm]; auto. apply key_eqb_eq in Q. now subst fn.
Qed.

Lemma read_lines_named (lines : list input_line) :
  forall st st' : state,
    named st -> read_lines st lines = Ok st' -> named st'.
Proof.
  induction lines as [|l lines IH]; intros st st' R; simpl.
  - now intros [= <-].
  - destruct (step st l) as [st1|] eqn:S; [|discriminate]. cbn [bind].
    apply step_ok in S. apply IH. eapply process_line_named; eauto.
Qed.

(** ** Bridges to the statements *)

Lemma natural_refs_forall (tokens : list token) :
  Forall (fun tok => natural_refs tok = true) tokens
  <-> forall arg ref, In (ArgRef arg ref) tokens -> 0 <= arg /\ 0 <= ref.
Proof.
  rewrite Forall_forall. split.
  - intros H arg ref I. apply H in I. simpl in I.
    apply andb_true_iff in I. destruct I as [A R].
    split; now apply Z.leb_le.
  - intros H [s|arg ref] I; [reflexivity|]. simpl.
    destruct (H _ _ I) as [A R]. apply andb_true_iff.
    split; now apply Z.leb_le.
Qed.

Lemma whitespace_split_pair (a b t : string) :
  is_word a = true -> is_word b = true -> Py.all_space t = true ->
  whitespace_split (a +++ " " +++ b +++ t) 2 = [a; b; EmptyString].
Proof.
  intros A B T. unfold whitespace_split, Py.split.
  change (2 <? 0) with false. cbv iota.
  change (Z.to_nat 2) with 2%nat.
  rewrite split_go_cons by (auto; discriminate). cbn [Py.dec Nat.pred].
  rewrite split_go_last by (auto; discriminate). reflexivity.
Qed.

Lemma str_int_keyword (n : Z) :
  is_word (Py.str_int n) = true /\
  String.eqb (Py.str_int n) RULE = false /\
  String.eqb (Py.str_int n) LINEARIZATION = false /\
  String.eqb (Py.str_int n) SEQUENCE = false.
Proof.
  destruct n as [|p|p].
  - repeat split.
  - rewrite str_int_pos.
    pose proof (DecimalPos.Unsigned.to_uint_nonnil p) as N.
    pose proof (all_digits_no_space _ (all_digits_uint (Pos.to_uint p))) as S.
    destruct (Pos.to_uint p); [contradiction|..]; repeat split; exact S.
  - rewrite str_int_neg.
    pose proof (DecimalPos.Unsigned.to_uint_nonnil p) as N.
    pose proof (all_digits_no_space _ (all_digits_uint (Pos.to_uint p))) as S.
    assert (W : is_word (String "-" (NilEmpty.string_of_uint (Pos.to_uint p)))
                = true).
    { unfold is_word. rewrite no_space_cons, S. reflexivity. }
    destruct (Pos.to_uint p); [contradiction|..]; repeat split; exact W.
Qed.

Lemma process_score (st : state) (fid kw t : string) :
  is_identifier fid = true -> is_word kw = true ->
  String.eqb kw RULE = false -> String.eqb kw LINEARIZATION = false ->
  String.eqb kw SEQUENCE = false -> Py.all_space t = true ->
  process_line st (fid +++ " " +++ kw +++ t)
  = score_declaration st fid kw EmptyString.
Proof.
  intros I W R L S T. pose proof (is_identifier_word _ I) as Wf.
  unfold process_line. rewrite lstrip_word by assumption.
  destruct fid as [|c t0]; [discriminate|].
  assert (H : (Py.isalnum c || Ascii.eqb c "_")%bool = true).
  { unfold is_identifier in I. now apply andb_true_iff in I. }
  destruct (identifier_head c H) as [_ [C P]].
  set (tail := t0 +++ " " +++ kw +++ t).
  change (String c t0 +++ " " +++ kw +++ t) with (String c tail).
  cbv iota. rewrite C, P. unfold tail.
  change (String c (t0 +++ " " +++ kw +++ t))
    with (String c t0 +++ " " +++ kw +++ t).
  unfold declaration_line. rewrite whitespace_split_pair by assumption.
  cbn [unpack3 bind]. now rewrite I, R, L, S.
Qed.

Lemma write_grammar_succeeds
  (pragmas : Dict.t (option string) (list string))
  (functions : Dict.t string (list rule))
  (linearizations : Dict.t string (list string))
  (sequences : Dict.t string (option (list token)))
  (scores : option (Dict.t string score)) :
  (forall sid, ~ In (sid, None) sequences) ->
  succeeds (write_grammar pragmas functions linearizations sequences scores).
Proof.
  intros H.
  assert (P : succeeds (match pragmas with
                        | [] => ret tt
                        | _ =>
                            _ <~ print "# Pragmas" ;;
                            _ <~ for_each write_pragmas pragmas ;;
                            print ""
                        end)).
  { destruct pragmas; [now eexists|]. repeat writer_step. }
  assert (S : succeeds (for_each write_sequence sequences)).
  { apply for_each_succeeds. intros [sid [seq|]] I.
    - apply print_succeeds.
    - now apply H in I. }
  unfold write_grammar.
  repeat (apply succeeds_then; [solve [exact P|exact S|writer_step]|]).
  destruct scores as [[|sc scs]|]; try (now eexists).
  repeat writer_step.
Qed.

Lemma write_grammar_fails
  (pragmas : Dict.t (option string) (list string))
  (functions : Dict.t string (list rule))
  (linearizations : Dict.t string (list string))
  (sequences : Dict.t string (option (list token)))
  (scores : option (Dict.t string score)) (sid : string) :
  In (sid, None) sequences ->
  fails_with none_not_iterable
    (write_grammar pragmas functions linearizations sequences scores).
Proof.
  intros I.
  assert (P : succeeds (match pragmas with
                        | [] => ret tt
                        | _ =>
                            _ <~ print "# Pragmas" ;;
                            _ <~ for_each write_pragmas pragmas ;;
                            print ""
                        end)).
  { destruct pragmas; [now eexists|]. repeat writer_step. }
  assert (S : fails_with none_not_iterable
                (for_each write_sequence sequences)).
  { apply for_each_fails.
    - intros x _. apply write_sequence_cases.
    - exists (sid, None), []. split; [exact I|reflexivity]. }
  unfold write_grammar.
  repeat (apply succeeds_then_fails; [solve [exact P|writer_step]|]).
  apply fails_then. exact S.
Qed.

Lemma read_grammar_validated (lines : list input_line) (st : state) :
  read_lines initial lines = Ok st ->
  read_grammar lines true
  = (fst (sweep st),
     match snd (sweep st) with
     | Ok _ => Ok (grammar_of st)
     | Raise e => Raise e
     end).
Proof.
  intros R. unfold read_grammar. rewrite R. cbn [lift and_then app].
  destruct (sweep st) as [log [[]|e]]; cbn [and_then ret fst snd];
    [now rewrite app_nil_r|reflexivity].
Qed.

Lemma undefined_in {V : Type} (d : Dict.t string (option V)) (k : string) :
  Dict.get d k = Some None -> In k (undefined d).
Proof.
  intros G. apply get_in in G. unfold undefined.
  change k with (fst (k, @None V)). apply in_map.
  apply filter_In. split; [exact G|reflexivity].
Qed.

Lemma reached (lines : list input_line) (st : state) :
  read_lines initial lines = Ok st ->
  registered lines st /\ coherent st /\ named st.
Proof.
  intros R. split; [|split].
  - apply (read_lines_registered lines [] initial st registered_initial R).
  - apply (read_lines_coherent lines initial st coherent_initial R).
  - apply (read_lines_named lines initial st named_initial R).
Qed.

(** What makes the sweep raise, for the state a successful loop ended
    in. *)
Lemma sweep_failure (lines : list input_line) (st : state)
  (log : list warning) (e : exn) :
  read_lines initial lines = Ok st -> sweep st = (log, Raise e) ->
  (exists fn lin seq,
     Dict.mem fn (functions st) = true /\
     Dict.get (linearizations st) fn = Some lin /\ In seq lin /\
     Dict.get (sequences st) seq = Some None /\
     In (UndefinedSequences (undefined (sequences st))) log /\
     e = mkExn KeyError (Py.repr seq))
  \/ out_of_range log e.
Proof.
  intros R S. destruct (reached _ _ R) as [G [C _]].
  assert (B : forall fn lin seq,
             Dict.get (linearizations st) fn = Some lin -> In seq lin ->
             Dict.get (seq_arities st) seq = None ->
             Dict.get (sequences st) seq = Some None).
  { intros fn lin seq L I A.
    pose proof (sequences_present _ _ G _ _ _ L I) as M.
    apply mem_true_get in M. destruct M as [[tokens|] M]; [|exact M].
    rewrite (body_arities st C _ _ M) in A. discriminate. }
  destruct (sweep_raises_cases _ _ _ C S)
    as [[[M U]|[M U]]|O]; [| |now right];
    destruct M as [fn [lin [seq [F [L [I [A ->]]]]]]];
    pose proof (B _ _ _ L I A) as N.
  - left. exists fn, lin, seq. repeat split; auto.
  - apply undefined_in in N. rewrite U in N. destruct N.
Qed.

(** ** Right-hand sides and functions *)

Lemma apart_initial : apart initial.
Proof. intros fn rules lhs rhs r G. discriminate G. Qed.

Lemma register_rhs_checked (st : state) (rhs : list string) :
  forall (nts nts' : Dict.t string (option Z)) (r : string),
    register_rhs st nts rhs = Ok nts' -> In r rhs ->
    Dict.mem r (functions st) = false /\
    Dict.mem r (linearizations st) = false.
Proof.
  induction rhs as [|r0 rhs IH]; intros nts nts' r; simpl; [intros _ []|].
  destruct (Dict.mem r0 (linearizations st)) eqn:L; [discriminate|].
  destruct (Dict.mem r0 (functions st)) eqn:F; [discriminate|].
  destruct (Dict.mem r0 (sequences st)); [discriminate|].
  cbn [orb]. intros R [<-|I]; [auto|eapply IH; eauto].
Qed.

Lemma mem_false_other {V : Type} (d : Dict.t string (list V)) (k k' : string)
  (x : V) :
  k' <> k -> Dict.mem k' d = false -> Dict.mem k' (append_to d k x) = false.
Proof.
  intros N M. unfold Dict.mem in *. rewrite get_append_to.
  destruct (key_eqb k' k) eqn:E; [|exact M].
  apply key_eqb_eq in E. contradiction.
Qed.

Lemma rule_declaration_apart (seen : list input_line) (st st' : state)
  (ident rest : string) :
  registered seen st -> apart st ->
  rule_declaration st ident rest = Ok st' -> apart st'.
Proof.
  intros G A. unfold rule_declaration.
  destruct (read_rule rest) as [[lhs rhs]|]; [|discriminate].
  cbn [bind]. cbv zeta.
  cbn [fun_arities nonterms linearizations sequences functions].
  set (fs := append_to (functions st) ident (lhs, rhs)).
  match goal with |- context [register_rhs ?s _ _] => set (st1 := s) end.
  destruct (match Dict.get (fun_arities st) ident with
            | Some fun_arity => match_arity (nonterms st) lhs ident fun_arity
            | None => Ok (nonterms st)
            end) as [nts1|] eqn:M; [|discriminate].
  cbn [bind].
  destruct (register_rhs st1 nts1 rhs) as [nts2|] eqn:R; [|discriminate].
  cbn [bind].
  destruct (Dict.mem lhs (linearizations st) || Dict.mem lhs fs
            || Dict.mem lhs (sequences st))%bool; [discriminate|].
  destruct (Dict.mem ident nts2) eqn:Hi; [discriminate|].
  destruct (Dict.mem ident (sequences st)); [discriminate|].
  cbn [orb]. intros [= <-].
  destruct (register_rhs_facts _ _ _ _ R) as [R1 _].
  assert (M1 : forall k, Dict.mem k (nonterms st) = true ->
                         Dict.mem k nts1 = true).
  { destruct (Dict.get (fun_arities st) ident).
    - intros k. eapply match_arity_mem; eauto.
    - injection M as <-. auto. }
  intros fn rules l0 r0 r Gf I Ir.
  cbn [functions linearizations] in *. unfold fs in Gf.
  rewrite get_append_to in Gf.
  assert (O : forall old, Dict.get (functions st) fn = Some old ->
                          In (l0, r0) old ->
                          Dict.mem r fs = false /\
                          Dict.mem r (linearizations st) = false).
  { intros old Go Io. destruct (A _ _ _ _ _ Go Io Ir) as [F L].
    split; [|exact L]. apply mem_false_other; [|exact F].
    intros ->. pose proof (rhs_present _ _ G _ _ _ _ _ Go Io Ir) as P.
    apply M1, R1 in P. congruence. }
  destruct (key_eqb fn ident) eqn:Q; [|now apply (O rules)].
  apply key_eqb_eq in Q. subst fn. injection Gf as <-.
  destruct (Dict.get (functions st) ident) as [old|] eqn:G0.
  - apply in_app_or in I. destruct I as [I|[[= <- <-]|[]]].
    + now apply (O old).
    + apply (register_rhs_checked _ _ _ _ _ R Ir).
  - destruct I as [[= <- <-]|[]].
    apply (register_rhs_checked _ _ _ _ _ R Ir).
Qed.

Lemma linearization_declaration_apart (seen : list input_line)
  (st st' : state) (ident rest : string) :
  registered seen st -> apart st ->
  linearization_declaration st ident rest = Ok st' -> apart st'.
Proof.
  intros G A. unfold linearization_declaration.
  destruct (read_linearization rest) as [lin|]; [|discriminate].
  cbn [bind].
  destruct (Dict.get (linearizations st) ident) as [old|] eqn:L0;
    [discriminate|].
  cbv zeta.
  set (rules := match Dict.get (functions st) ident with
                | Some rules => rules
                | None => []
                end).
  destruct (propagate_arity (nonterms st) rules ident
              (Z.of_nat (length lin))) as [nts|] eqn:P; [|discriminate].
  cbn [bind].
  destruct (Dict.mem ident nts) eqn:Hi; [discriminate|].
  match goal with
  | |- context [Dict.mem ident ?s] => destruct (Dict.mem ident s)
  end; [discriminate|].
  cbn [orb]. intros [= <-].
  intros fn rs l0 r0 r Gf I Ir. cbn [functions linearizations] in *.
  destruct (A _ _ _ _ _ Gf I Ir) as [F L]. split; [exact F|].
  rewrite mem_set, L, orb_false_r.
  destruct (key_eqb r ident) eqn:Q; [|reflexivity].
  apply key_eqb_eq in Q. subst r.
  pose proof (rhs_present _ _ G _ _ _ _ _ Gf I Ir) as M.
  apply (propagate_arity_mem _ _ _ _ _ _ P) in M. congruence.
Qed.

Lemma process_line_apart (seen : list input_line) (st st' : state)
  (line : string) :
  registered seen st -> apart st -> process_line st line = Ok st' ->
  apart st'.
Proof.
  intros G A. unfold process_line.
  destruct (Py.lstrip line) as [|c tail]; [now intros [= <-]|].
  destruct (Py.char_in c COMMENT); [now intros [= <-]|].
  destruct (String.eqb (Py.str1 c) PRAGMA).
  { unfold pragma_line.
    destruct (if Py.str_isspace (String.substring 0 1 tail) then _ else _)
      as [[pragma info]|]; [|discriminate].
    cbn [bind]. intros [= <-]. exact A. }
  unfold declaration_line.
  destruct (unpack3 (whitespace_split (String c tail) 2))
    as [[[ident keyword] rest]|]; [|discriminate].
  cbn [bind].
  destruct (negb (is_identifier ident)); [discriminate|].
  destruct (String.eqb keyword RULE);
    [now apply (rule_declaration_apart seen)|].
  destruct (String.eqb keyword LINEARIZATION);
    [now apply (linearization_declaration_apart seen)|].
  destruct (String.eqb keyword SEQUENCE).
  { unfold sequence_declaration.
    destruct (read_sequence rest) as [tokens|]; [|discriminate].
    cbn [bind].
    destruct (get_value (sequences st) ident); [discriminate|].
    cbv zeta.
    destruct (Dict.mem ident (nonterms st) || Dict.mem ident (linearizations st)
              || Dict.mem ident (functions st))%bool; [discriminate|].
    intros [= <-]. exact A. }
  unfold score_declaration.
  destruct (parse_score keyword); [|discriminate]. cbn [bind].
  destruct rest; [|discriminate].
  destruct (Dict.mem ident (scores st)); [discriminate|].
  intros [= <-]. exact A.
Qed.

Lemma read_lines_apart (lines : list input_line) :
  forall (seen : list input_line) (st st' : state),
    registered seen st -> apart st -> read_lines st lines = Ok st' ->
    apart st'.
Proof.
  induction lines as [|l lines IH]; intros seen st st' G A; simpl.
  - now intros [= <-].
  - destruct (step st l) as [st1|] eqn:S; [|discriminate]. cbn [bind].
    apply step_ok in S. apply (IH (seen ++ [l])).
    + eapply process_line_registered; eauto.
    + eapply process_line_apart; eauto.
Qed.

(** ** What the warnings say *)

Lemma and_then_in {L A B : Type} (c : effects L A) (k : A -> effects L B)
  (w : L) :
  In w (fst (and_then c k)) ->
  In w (fst c) \/ exists a, snd c = Ok a /\ In w (fst (k a)).
Proof.
  unfold and_then. destruct c as [log [a|e]]; cbn [fst snd]; [|now left].
  destruct (k a) as [log' r] eqn:K. cbn [fst]. intros I.
  apply in_app_or in I. destruct I as [I|I]; [now left|].
  right. exists a. rewrite K. auto.
Qed.

Lemma for_each_in {L A : Type} (f : A -> effects L unit) (l : list A)
  (w : L) :
  In w (fst (for_each f l)) -> exists x, In x l /\ In w (fst (f x)).
Proof.
  induction l as [|x l IH]; simpl; [intros []|].
  intros I. apply and_then_in in I. destruct I as [I|[[] [_ I]]].
  - exists x. auto.
  - destruct (IH I) as [y [Iy Iw]]. exists y. auto.
Qed.

Lemma and_then_first {L A B : Type} (c : effects L A) (k : A -> effects L B)
  (w : L) :
  In w (fst c) -> In w (fst (and_then c k)).
Proof.
  unfold and_then. destruct c as [log [a|e]]; cbn [fst]; [|auto].
  destruct (k a) as [log' r]. cbn [fst]. intros I. apply in_or_app. now left.
Qed.

Lemma and_then_second {L A B : Type} (c : effects L A) (k : A -> effects L B)
  (a : A) (w : L) :
  snd c = Ok a -> In w (fst (k a)) -> In w (fst (and_then c k)).
Proof.
  unfold and_then. destruct c as [log r]; cbn [snd]. intros ->.
  destruct (k a) as [log' r']. cbn [fst]. intros I. apply in_or_app.
  now right.
Qed.

Lemma and_then_returns {L A B : Type} (c : effects L A) (k : A -> effects L B)
  (b : B) :
  snd (and_then c k) = Ok b ->
  exists a, snd c = Ok a /\ snd (k a) = Ok b.
Proof.
  unfold and_then. destruct c as [log [a|e]]; cbn [snd]; [|discriminate].
  destruct (k a) as [log' r] eqn:K. cbn [snd]. intros ->.
  exists a. rewrite K. auto.
Qed.

Lemma for_each_all {L A : Type} (f : A -> effects L unit) (l : list A) :
  snd (for_each f l) = Ok tt ->
  forall x w, In x l -> In w (fst (f x)) -> In w (fst (for_each f l)).
Proof.
  induction l as [|x l IH]; simpl; [intros _ ? ? []|].
  intros R y w [<-|I] Iw.
  - now apply and_then_first.
  - apply and_then_returns in R. destruct R as [[] [R1 R2]].
    apply (and_then_second _ _ tt); [exact R1|]. now apply (IH R2 y).
Qed.

Lemma check_reference_log (st : state) (fn : string) (rhs : list string)
  (arg maxref : Z) (w : warning) :
  In w (fst (check_reference st fn rhs (arg, maxref))) ->
  (w = ArgumentOutOfRange fn arg (Z.of_nat (length rhs)) /\
   Z.of_nat (length rhs) <= arg)
  \/ exists nt,
       getitem rhs arg = Ok nt /\
       ((w = MissingDefinition nt /\ get_value (nonterms st) nt = None)
        \/ exists a,
             w = ReferenceMismatch arg maxref fn nt a /\
             get_value (nonterms st) nt = Some a /\ a <= maxref).
Proof.
  unfold check_reference. intros I. apply and_then_in in I.
  destruct I as [I|[[] [_ I]]].
  - left. destruct (arg >=? Z.of_nat (length rhs)) eqn:E; [|destruct I].
    destruct I as [<-|[]]. split; [reflexivity|lia].
  - right. apply and_then_in in I. destruct I as [[]|[nt [G I]]].
    exists nt. split; [exact G|].
    destruct (get_value (nonterms st) nt) as [a|].
    + right. destruct (a <=? maxref) eqn:E; [|destruct I].
      destruct I as [<-|[]]. exists a. repeat split. lia.
    + left. destruct I as [<-|[]]. auto.
Qed.

(** The entries of maximal references come from references. *)
Lemma collect_max_arities_in (argrefs : list token) :
  forall (arities : Dict.t Z Z) (arg m : Z),
    In (arg, m) (collect_max_arities arities argrefs) ->
    In (arg, m) arities \/ In (ArgRef arg m) argrefs
    \/ (m = -1 /\ exists ref, In (ArgRef arg ref) argrefs /\ ref <= -1).
Proof.
  induction argrefs as [|t argrefs IH]; intros arities arg m I; [now left|].
  rewrite collect_max_arities_cons in I. apply IH in I.
  destruct I as [I|[I|[E [ref [I L]]]]].
  - destruct t as [s|a r]; [now left|].
    apply set_in in I. destruct I as [I|[-> E]]; [now left|].
    destruct (Dict.get arities a) as [m0|] eqn:G.
    + destruct (Z.max_spec m0 r) as [[_ M]|[_ M]]; rewrite M in E; subst m.
      * right. left. now left.
      * left. now apply get_in.
    + destruct (Z.max_spec (-1) r) as [[_ M]|[Lr M]]; rewrite M in E; subst m.
      * right. left. now left.
      * right. right. split; [reflexivity|]. exists r. split; [now left|lia].
  - right. left. now right.
  - right. right. split; [exact E|]. exists ref. split; [now right|exact L].
Qed.

Lemma merge_arities_in (seq_arities : Dict.t string (Dict.t Z Z))
  (lin : list string) :
  (forall seq items arg m, Dict.get seq_arities seq = Some items ->
                           In (arg, m) items -> 0 <= m) ->
  forall (arities merged : Dict.t Z Z) (arg m : Z),
    merge_arities seq_arities arities lin = Ok merged ->
    In (arg, m) merged ->
    In (arg, m) arities
    \/ exists seq items,
         In seq lin /\ Dict.get seq_arities seq = Some items /\
         In (arg, m) items.
Proof.
  intros N. induction lin as [|seq lin IH]; intros arities merged arg m; simpl.
  - intros [= <-]. now left.
  - unfold lookup. destruct (Dict.get seq_arities seq) as [items|] eqn:G;
      [|discriminate].
    cbn [bind]. intros M I. destruct (IH _ _ _ _ M I) as [I'|[s [it [Is [Gs Ii]]]]].
    + apply collect_max_arities_in in I'.
      destruct I' as [I'|[I'|[E [ref [I' L]]]]].
      * now left.
      * right. exists seq, items. repeat split; auto.
        apply in_map_iff in I'. destruct I' as [[a x] [[= -> ->] I']].
        exact I'.
      * exfalso. apply in_map_iff in I'.
        destruct I' as [[a x] [[= -> ->] I']]. cbn [fst snd] in *.
        pose proof (N _ _ _ _ G I'). lia.
    + right. exists s, it. auto.
Qed.

Lemma coherent_items (st : state) (seq : string) (items : Dict.t Z Z)
  (arg m : Z) :
  coherent st -> Dict.get (seq_arities st) seq = Some items ->
  In (arg, m) items ->
  0 <= m /\
  exists tokens,
    Dict.get (sequences st) seq = Some (Some tokens) /\
    In (ArgRef arg m) tokens.
Proof.
  intros C G I. destruct (arities_body st C _ _ G) as [tokens B].
  rewrite (body_arities st C _ _ B) in G. injection G as <-.
  pose proof (refs_natural st C _ _ B) as F. rewrite Forall_forall in F.
  assert (N : forall a r, In (ArgRef a r) tokens -> 0 <= r).
  { intros a r Ir. apply F in Ir. simpl in Ir.
    apply andb_true_iff in Ir. destruct Ir as [_ Ir]. now apply Z.leb_le. }
  apply collect_max_arities_in in I.
  destruct I as [[]|[I|[_ [ref [I L]]]]].
  - split; [eapply N; eauto|eauto].
  - apply N in I. lia.
Qed.

Lemma merged_referenced (st : state) (lin : list string)
  (merged : Dict.t Z Z) (arg m : Z) :
  coherent st -> merge_arities (seq_arities st) [] lin = Ok merged ->
  In (arg, m) merged -> referenced st lin arg m.
Proof.
  intros C M I.
  destruct (merge_arities_in (seq_arities st) lin
              (fun seq items a x G Ii =>
                 proj1 (coherent_items st seq items a x C G Ii))
              _ _ _ _ M I) as [[]|[seq [items [Is [G Ii]]]]].
  destruct (coherent_items _ _ _ _ _ C G Ii) as [_ [tokens [B It]]].
  exists seq, tokens. auto.
Qed.

Lemma check_function_justified (seen : list input_line) (st : state)
  (fn : string) (rules : list rule) (w : warning) :
  registered seen st -> coherent st -> In (fn, rules) (functions st) ->
  In w (fst (check_function st (fn, rules))) -> justified st w.
Proof.
  intros G C If. pose proof (in_get _ _ _ (functions_once st C) If) as F.
  unfold check_function.
  destruct (Dict.get (linearizations st) fn) as [lin|] eqn:L.
  - intros I. apply and_then_in in I. destruct I as [[]|[merged [M I]]].
    cbn [lift snd] in M.
    unfold lookup in I. rewrite (lin_arity st C _ _ L) in I.
    apply and_then_in in I. destruct I as [[]|[fa [[= <-] I]]].
    apply for_each_in in I. destruct I as [[lhs rhs] [Ir I]].
    assert (R : linearized_rule st fn lin (lhs, rhs)) by (exists rules; auto).
    unfold check_rule, lookup in I.
    rewrite (rule_arity st C _ _ _ _ _ L F Ir) in I.
    apply and_then_in in I. destruct I as [[]|[a [[= <-] I]]].
    rewrite Z.eqb_refl in I. cbn [negb] in I.
    apply and_then_in in I. destruct I as [[]|[[] [_ I]]].
    apply for_each_in in I. destruct I as [[arg maxref] [Ia I]].
    pose proof (merged_referenced _ _ _ _ _ C M Ia) as Rf.
    apply check_reference_log in I.
    destruct I as [[-> B]|[nt [Gi [[-> V]|[a [-> [V Le]]]]]]]; cbn [justified].
    + exists lin, lhs, rhs, maxref. auto.
    + exists fn, lin, lhs, rhs, arg, maxref. repeat split; auto.
      assert (Hn : 0 <= arg).
      { destruct Rf as [seq [tokens [_ [B It]]]].
        pose proof (refs_natural st C _ _ B) as Fa.
        rewrite Forall_forall in Fa. apply Fa in It. simpl in It.
        apply andb_true_iff in It. destruct It as [It _].
        now apply Z.leb_le. }
      assert (Irhs : In nt rhs).
      { unfold getitem in Gi. destruct (arg <? 0) eqn:E; [lia|].
        rewrite E in Gi.
        destruct (nth_error rhs (Z.to_nat arg)) as [x|] eqn:X;
          [|discriminate].
        injection Gi as <-. eapply nth_error_In; eauto. }
      pose proof (rhs_present _ _ G _ _ _ _ _ F Ir Irhs) as Mn.
      apply mem_true_get in Mn. destruct Mn as [v Mn].
      unfold get_value in V. rewrite Mn in V. now subst v.
    + exists lin, lhs, rhs. repeat split; auto.
      unfold get_value in V.
      destruct (Dict.get (nonterms st) nt) as [v|]; [|discriminate].
      now subst v.
  - intros [<-|[]]. cbn [justified]. split; [|exact L].
    unfold Dict.mem. now rewrite F.
Qed.

Lemma sweep_justified (seen : list input_line) (st : state) (w : warning) :
  registered seen st -> coherent st -> In w (fst (sweep st)) ->
  justified st w.
Proof.
  intros G C. unfold sweep. intros I.
  apply and_then_in in I. destruct I as [I|[[] [_ I]]].
  { destruct (undefined (nonterms st)) as [|nt nts] eqn:U; [destruct I|].
    destruct I as [<-|[]]. cbn [justified]. rewrite U. split; [reflexivity|].
    discriminate. }
  apply and_then_in in I. destruct I as [I|[[] [_ I]]].
  { destruct (undefined (sequences st)) as [|s ss] eqn:U; [destruct I|].
    destruct I as [<-|[]]. cbn [justified]. rewrite U. split; [reflexivity|].
    discriminate. }
  apply for_each_in in I. destruct I as [[fn rules] [If I]].
  eapply check_function_justified; eauto.
Qed.

Lemma read_grammar_log (lines : list input_line) (validate : bool)
  (log : list warning) (r : result grammar) (w : warning) :
  read_grammar lines validate = (log, r) -> In w log ->
  exists st,
    read_lines initial lines = Ok st /\ validate = true /\
    In w (fst (sweep st)).
Proof.
  unfold read_grammar.
  destruct (read_lines initial lines) as [st|e]; [|intros [= <- _] []].
  cbn [lift and_then app]. destruct validate.
  - destruct (sweep st) as [ws [[]|e]] eqn:S; cbn [and_then ret fst];
      intros [= <- _] I; exists st; rewrite S; cbn [fst];
      repeat split; auto.
    now rewrite app_nil_r in I.
  - intros [= <- _] [].
Qed.

Lemma for_each_returns {L A : Type} (f : A -> effects L unit) (l : list A) :
  snd (for_each f l) = Ok tt -> forall x, In x l -> snd (f x) = Ok tt.
Proof.
  induction l as [|x l IH]; simpl; [intros _ ? []|].
  intros R y I. apply and_then_returns in R. destruct R as [[] [R1 R2]].
  destruct I as [<-|I]; [exact R1|now apply IH].
Qed.

Lemma merge_arities_grows (seq_arities : Dict.t string (Dict.t Z Z))
  (lin : list string) :
  forall (arities merged : Dict.t Z Z) (arg m0 : Z),
    merge_arities seq_arities arities lin = Ok merged ->
    Dict.get arities arg = Some m0 ->
    exists m, Dict.get merged arg = Some m /\ m0 <= m.
Proof.
  induction lin as [|seq lin IH]; intros arities merged arg m0; simpl.
  - intros [= <-] G. exists m0. split; [exact G|lia].
  - unfold lookup. destruct (Dict.get seq_arities seq) as [items|];
      [|discriminate].
    cbn [bind]. intros M G.
    destruct (collect_max_arities_grows
                (map (fun item => ArgRef (fst item) (snd item)) items)
                arities arg m0 G) as [m1 [G1 L1]].
    destruct (IH _ _ _ _ M G1) as [m [Gm Lm]].
    exists m. split; [exact Gm|lia].
Qed.

Lemma merge_arities_above (seq_arities : Dict.t string (Dict.t Z Z))
  (lin : list string) :
  forall (arities merged items : Dict.t Z Z) (seq : string) (arg m1 : Z),
    merge_arities seq_arities arities lin = Ok merged ->
    In seq lin -> Dict.get seq_arities seq = Some items ->
    Dict.get items arg = Some m1 ->
    exists m, Dict.get merged arg = Some m /\ m1 <= m.
Proof.
  induction lin as [|s lin IH]; intros arities merged items seq arg m1; simpl;
    [intros _ []|].
  unfold lookup. destruct (Dict.get seq_arities s) as [its|] eqn:Gs;
    [|discriminate].
  cbn [bind]. intros M [->|I] G Gi.
  - rewrite Gs in G. injection G as ->.
    assert (Ia : In (ArgRef arg m1)
                   (map (fun item => ArgRef (fst item) (snd item)) items)).
    { apply in_map_iff. exists (arg, m1). split; [reflexivity|].
      now apply get_in. }
    destruct (collect_max_arities_above _ arities arg m1 Ia) as [m2 [G2 L2]].
    destruct (merge_arities_grows _ _ _ _ _ _ M G2) as [m [Gm Lm]].
    exists m. split; [exact Gm|lia].
  - eapply IH; eauto.
Qed.

(** A reference of a linearization has an entry at least as large among
    the merged maximal references. *)
Lemma referenced_merged (st : state) (lin : list string)
  (merged : Dict.t Z Z) (arg ref : Z) :
  coherent st -> merge_arities (seq_arities st) [] lin = Ok merged ->
  referenced st lin arg ref ->
  exists m, In (arg, m) merged /\ ref <= m.
Proof.
  intros C M [seq [tokens [Is [B It]]]].
  pose proof (body_arities st C _ _ B) as G.
  destruct (collect_max_arities_above tokens [] arg ref It) as [m1 [G1 L1]].
  destruct (merge_arities_above _ _ _ _ _ _ _ _ M Is G G1) as [m [Gm Lm]].
  exists m. split; [now apply get_in|lia].
Qed.

Lemma check_function_returns (st : state) (fn : string) (rules : list rule)
  (lin : list string) :
  coherent st -> Dict.get (functions st) fn = Some rules ->
  Dict.get (linearizations st) fn = Some lin ->
  snd (check_function st (fn, rules)) = Ok tt ->
  exists merged,
    merge_arities (seq_arities st) [] lin = Ok merged /\
    forall lhs rhs arg m w,
      In (lhs, rhs) rules -> In (arg, m) merged ->
      In w (fst (check_reference st fn rhs (arg, m))) ->
      In w (fst (check_function st (fn, rules))).
Proof.
  intros C F L. unfold check_function. rewrite L. intros R.
  apply and_then_returns in R. destruct R as [merged [M R]].
  cbn [lift snd] in M. exists merged. split; [exact M|].
  intros lhs rhs arg m w Ir Ia Iw.
  apply (and_then_second _ _ merged); [exact M|].
  unfold lookup in R |- *. rewrite (lin_arity st C _ _ L) in R |- *.
  apply and_then_returns in R. destruct R as [fa [[= <-] R]].
  apply (and_then_second _ _ (Z.of_nat (length lin))); [reflexivity|].
  apply (for_each_all _ _ R (lhs, rhs)); [exact Ir|].
  pose proof (for_each_returns _ _ R _ Ir) as Rr.
  unfold check_rule, lookup in Rr |- *.
  rewrite (rule_arity st C _ _ _ _ _ L F Ir) in Rr |- *.
  apply and_then_returns in Rr. destruct Rr as [a [[= <-] Rr]].
  apply (and_then_second _ _ (Some (Z.of_nat (length lin))));
    [reflexivity|].
  rewrite Z.eqb_refl in Rr |- *. cbn [negb] in Rr |- *.
  apply and_then_returns in Rr. destruct Rr as [[] [_ Rr]].
  apply (and_then_second _ _ tt); [reflexivity|].
  apply (for_each_all _ _ Rr (arg, m)); auto.
Qed.

(* ================================================================= *)
(** * The arity of a nonterminal

    An arity is the length of a linearization.  A rule line compares the
    arity of its left-hand side with that of its function only when the
    function has a linearization; a linearization line compares the
    arities of the left-hand sides of the rules read so far with its
    length. *)

Lemma get_value_some {V : Type} (d : Dict.t string (option V)) (k : string)
  (v : V) :
  get_value d k = Some v <-> Dict.get d k = Some (Some v).
Proof.
  unfold get_value. destruct (Dict.get d k) as [[w|]|]; split; congruence.
Qed.

(** [match_arity] raises exactly on a left-hand side that has another
    arity, and what it raises names that arity. *)
Lemma match_arity_raises (nts : Dict.t string (option Z)) (lhs fn : string)
  (fa : Z) (e : exn) :
  match_arity nts lhs fn fa = Raise e
  <-> exists a, Dict.get nts lhs = Some (Some a) /\ a <> fa /\
                e = arity_error lhs (Some a) fn fa.
Proof.
  unfold match_arity. destruct (get_value nts lhs) as [la|] eqn:G.
  - apply get_value_some in G. destruct (Z.eqb_spec la fa) as [E|E]; simpl.
    + split; [discriminate|]. intros [a [G' [N _]]]. congruence.
    + split.
      * intros [= <-]. now exists la.
      * intros [a [G' [_ ->]]]. congruence.
  - split; [discriminate|]. intros [a [G' _]].
    apply get_value_some in G'. congruence.
Qed.

Lemma match_arity_conflicting (nts : Dict.t string (option Z))
  (lhs fn : string) (fa : Z) (rhs : list string) :
  conflicting nts fa (lhs, rhs) = true ->
  match_arity nts lhs fn fa = Raise (arity_error lhs (get_value nts lhs) fn fa).
Proof.
  unfold conflicting, match_arity. simpl.
  destruct (get_value nts lhs) as [la|]; [|discriminate].
  now intros ->.
Qed.

(** A left-hand side that passes changes the arity of no nonterminal that
    has one: it may give the function's arity to one that has none. *)
Lemma match_arity_passes (nts : Dict.t string (option Z)) (lhs fn : string)
  (fa : Z) (rhs : list string) :
  conflicting nts fa (lhs, rhs) = false ->
  exists nts',
    match_arity nts lhs fn fa = Ok nts' /\
    forall k, get_value nts' k = get_value nts k
              \/ (get_value nts k = None /\ get_value nts' k = Some fa).
Proof.
  unfold conflicting, match_arity. simpl.
  destruct (get_value nts lhs) as [la|] eqn:G.
  - intros ->. exists nts. split; [reflexivity|]. now left.
  - intros _. eexists. split; [reflexivity|]. intros k.
    unfold get_value at 1 4. rewrite get_set.
    destruct (key_eqb k lhs) eqn:E.
    + apply key_eqb_eq in E. subst k. right. now split.
    + now left.
Qed.

Lemma conflicting_passed (nts nts' : Dict.t string (option Z)) (fa : Z)
  (r : rule) :
  get_value nts' (fst r) = get_value nts (fst r)
  \/ (get_value nts (fst r) = None /\ get_value nts' (fst r) = Some fa) ->
  conflicting nts' fa r = conflicting nts fa r
  /\ (conflicting nts fa r = true ->
      get_value nts' (fst r) = get_value nts (fst r)).
Proof.
  unfold conflicting. intros [E|[E1 E2]].
  - rewrite E. now split.
  - rewrite E1, E2, Z.eqb_refl. split; [reflexivity|discriminate].
Qed.

Lemma find_ext {A : Type} (f g : A -> bool) (l : list A) :
  (forall x, f x = g x) -> find f l = find g l.
Proof.
  intros E. induction l as [|x l IH]; simpl; [reflexivity|].
  now rewrite E, IH.
Qed.

(** The loop over the rules of a function raises at the first rule whose
    left-hand side has another arity than the function. *)
Lemma propagate_arity_conflict (rules : list rule) :
  forall (nts : Dict.t string (option Z)) (fn : string) (fa : Z)
    (lhs : string) (rhs : list string),
    find (conflicting nts fa) rules = Some (lhs, rhs) ->
    propagate_arity nts rules fn fa
    = Raise (arity_error lhs (get_value nts lhs) fn fa).
Proof.
  induction rules as [|[lhs0 rhs0] rules IH]; intros nts fn fa lhs rhs;
    simpl; [discriminate|].
  destruct (conflicting nts fa (lhs0, rhs0)) eqn:C.
  - intros [= -> ->]. now rewrite (match_arity_conflicting _ _ _ _ _ C).
  - destruct (match_arity_passes _ _ fn _ _ C) as [nts' [M K]].
    rewrite M. simpl. intros F.
    rewrite (find_ext _ (conflicting nts' fa)) in F
      by (intros r; symmetry; apply conflicting_passed, K).
    rewrite (IH _ fn _ _ _ F). apply find_some in F. destruct F as [_ F].
    destruct (conflicting_passed nts nts' fa (lhs, rhs) (K lhs)) as [E1 E2].
    rewrite E1 in F. simpl in E2. now rewrite (E2 F).
Qed.

(** With no such rule the loop raises nothing. *)
Lemma propagate_arity_passes (rules : list rule) :
  forall (nts : Dict.t string (option Z)) (fn : string) (fa : Z),
    find (conflicting nts fa) rules = None ->
    exists nts', propagate_arity nts rules fn fa = Ok nts'.
Proof.
  induction rules as [|[lhs0 rhs0] rules IH]; intros nts fn fa; simpl.
  - intros _. now exists nts.
  - destruct (conflicting nts fa (lhs0, rhs0)) eqn:C; [discriminate|].
    destruct (match_arity_passes _ _ fn _ _ C) as [nts' [M K]].
    rewrite M. simpl. intros F. apply IH.
    rewrite <- F. apply find_ext. intros r. apply conflicting_passed, K.
Qed.

(** The loop raises exactly when a rule has such a left-hand side, and
    then the error of the first one. *)
Lemma propagate_arity_raises (rules : list rule)
  (nts : Dict.t string (option Z)) (fn : string) (fa : Z) (e : exn) :
  propagate_arity nts rules fn fa = Raise e
  <-> exists lhs rhs,
        find (conflicting nts fa) rules = Some (lhs, rhs) /\
        e = arity_error lhs (get_value nts lhs) fn fa.
Proof.
  split.
  - intros P. destruct (find (conflicting nts fa) rules) as [[lhs rhs]|] eqn:F.
    + rewrite (propagate_arity_conflict _ _ fn _ _ _ F) in P.
      injection P as <-. now exists lhs, rhs.
    + destruct (propagate_arity_passes _ _ fn _ F) as [nts' Q]. congruence.
  - intros [lhs [rhs [F ->]]]. now apply propagate_arity_conflict with rhs.
Qed.

(** A declaration line of a rule or of a linearization, up to the branch
    of its keyword. *)
Lemma process_keyword (st : state) (line : string) (c : ascii)
  (tail ident keyword rest : string) :
  Py.lstrip line = String c tail ->
  Py.char_in c COMMENT = false ->
  Py.str1 c <> PRAGMA ->
  whitespace_split (String c tail) 2 = [ident; keyword; rest] ->
  is_identifier ident = true ->
  (keyword = RULE -> process_line st line = rule_declaration st ident rest)
  /\
  (keyword = LINEARIZATION ->
   process_line st line = linearization_declaration st ident rest).
Proof.
  intros Hl Hc Hp Hs Hi.
  assert (P : process_line st line = declaration_line st (String c tail)).
  { unfold process_line. rewrite Hl, Hc.
    apply String.eqb_neq in Hp. now rewrite Hp. }
  rewrite P. unfold declaration_line. rewrite Hs. cbn [unpack3 bind].
  rewrite Hi. simpl negb. cbv iota.
  split; intros ->; reflexivity.
Qed.

(** C3 (as amended): on the rule [f : S <- A] followed by the
    linearization [f = l1 l2] the incremental pass raises no error.  The
    rule records no arity for [S]; the linearization then sets the arity of
    [S] to its length, 2, and [read_grammar] without the sweep returns the
    model.  The error of an arity that does not match, a [ValueError] with
    the context of the line, ends the read in each of two cases.  At a
    rule line of a function that has a linearization, when the left-hand
    side of the rule has an arity other than the length of that
    linearization.  At the linearization line of a function that has none
    yet, when the left-hand side of one of its rules has an arity other
    than the length of the linearization; the error names the left-hand
    side, and its arity, of the first such rule. *)
Theorem arity_fixed_by_linearization :
  read_lines initial (plain ["f : S <- A"%string])
  = Ok {| pragmas := [];
          functions := [("f", [("S", ["A"])])];
          linearizations := []; sequences := []; scores := [];
          nonterms := [("A", None)];
          fun_arities := []; seq_arities := [];
          ident := Some "f" |}%string
  /\
  read_grammar (plain ["f : S <- A"; "f = l1 l2"]%string) false
  = ([], Ok [ ("pragmas", Pragmas []);
              ("functions", Functions [("f", [("S", ["A"])])]);
              ("linearizations", Linearizations [("f", ["l1"; "l2"])]);
              ("sequences", Sequences [("l1", None); ("l2", None)]);
              ("scores", Scores []);
              ("nonterms", Nonterms [("A", None); ("S", Some 2)]) ]%string)
  /\
  forall (pre : list input_line) (st : state) (l : input_line) (c : ascii)
    (tail ident keyword rest : string),
    read_lines initial pre = Ok st ->
    Py.lstrip (text l) = String c tail ->
    Py.char_in c COMMENT = false ->
    Py.str1 c <> PRAGMA ->
    whitespace_split (String c tail) 2 = [ident; keyword; rest] ->
    is_identifier ident = true ->
    (forall (lhs : string) (rhs lin : list string) (a : Z),
       keyword = RULE ->
       read_rule rest = Ok (lhs, rhs) ->
       Dict.get (linearizations st) ident = Some lin ->
       Dict.get (nonterms st) lhs = Some (Some a) ->
       a <> Z.of_nat (length lin) ->
       forall post validate,
         read_grammar (pre ++ l :: post) validate
         = ([], Raise (mkExn ValueError
                         (message (arity_error lhs (Some a) ident
                                     (Z.of_nat (length lin)))
                          +++ " " +++ context l))))
    /\
    (forall (lin : list string) (rules : list rule) (lhs : string)
       (rhs : list string) (a : Z),
       keyword = LINEARIZATION ->
       read_linearization rest = Ok lin ->
       Dict.get (linearizations st) ident = None ->
       Dict.get (functions st) ident = Some rules ->
       In (lhs, rhs) rules ->
       Dict.get (nonterms st) lhs = Some (Some a) ->
       a <> Z.of_nat (length lin) ->
       exists (lhs' : string) (rhs' : list string) (a' : Z),
         find (conflicting (nonterms st) (Z.of_nat (length lin))) rules
         = Some (lhs', rhs') /\
         Dict.get (nonterms st) lhs' = Some (Some a') /\
         a' <> Z.of_nat (length lin) /\
         forall post validate,
           read_grammar (pre ++ l :: post) validate
           = ([], Raise (mkExn ValueError
                           (message (arity_error lhs' (Some a') ident
                                       (Z.of_nat (length lin)))
                            +++ " " +++ context l)))).
Proof.
  split; [vm_compute; reflexivity|]. split; [vm_compute; reflexivity|].
  intros pre st l c tail ident keyword rest Hpre Hl Hc Hp Hs Hi.
  destruct (process_keyword st (text l) c tail ident keyword rest
              Hl Hc Hp Hs Hi) as [PR PL].
  split.
  - intros lhs rhs lin a K R L G N post validate.
    eapply read_grammar_raise; [exact Hpre|].
    destruct (reached _ _ Hpre) as [_ [C _]].
    unfold step. rewrite (PR K). unfold rule_declaration.
    rewrite R. cbn [bind fun_arities nonterms].
    rewrite (lin_arity _ C _ _ L).
    assert (M : match_arity (nonterms st) lhs ident (Z.of_nat (length lin))
                = Raise (arity_error lhs (Some a) ident
                           (Z.of_nat (length lin)))).
    { apply match_arity_raises. now exists a. }
    rewrite M. reflexivity.
  - intros lin rules lhs rhs a K R L F I G N.
    destruct (find (conflicting (nonterms st) (Z.of_nat (length lin))) rules)
      as [[lhs' rhs']|] eqn:Fd.
    + pose proof (find_some _ _ Fd) as [_ B]. unfold conflicting in B.
      simpl in B.
      destruct (get_value (nonterms st) lhs') as [a'|] eqn:V; [|discriminate].
      exists lhs', rhs', a'. split; [reflexivity|].
      split; [now apply get_value_some|].
      split; [apply negb_true_iff in B; now apply Z.eqb_neq|].
      intros post validate. eapply read_grammar_raise; [exact Hpre|].
      unfold step. rewrite (PL K). unfold linearization_declaration.
      rewrite R. cbn [bind]. rewrite L, F.
      rewrite (propagate_arity_conflict _ _ ident _ _ _ Fd), V. reflexivity.
    + exfalso. apply (find_none _ _ Fd) in I. unfold conflicting in I.
      simpl in I. apply get_value_some in G. rewrite G in I.
      apply negb_false_iff, Z.eqb_eq in I. contradiction.
Qed.

Lemma arity_fixed_by_linearization_witness :
  read_grammar [mkLine (Some "g.pmcfg"%string) 1 "f = l1 l2";
                mkLine (Some "g.pmcfg"%string) 2 "f : S <- A";
                mkLine (Some "g.pmcfg"%string) 3 "g = l3";
                mkLine (Some "g.pmcfg"%string) 4 "g : S <- A"] true
  = ([], Raise (mkExn ValueError
                  "Nonterminal 'S'/2 does not match function 'g'/1 [happened in input file 'g.pmcfg', line 4: 'g : S <- A']"))
  /\
  read_grammar [mkLine (Some "g.pmcfg"%string) 1 "f : S <- A";
                mkLine (Some "g.pmcfg"%string) 2 "f = l1 l2";
                mkLine (Some "g.pmcfg"%string) 3 "g : S <- A";
                mkLine (Some "g.pmcfg"%string) 4 "g = l3";
                mkLine (Some "g.pmcfg"%string) 5 "l3 -> 'a'"] true
  = ([], Raise (mkExn ValueError
                  "Nonterminal 'S'/2 does not match function 'g'/1 [happened in input file 'g.pmcfg', line 4: 'g = l3']")).
Proof.
  pose proof (proj2 (proj2 arity_fixed_by_linearization)) as T.
  split.
  - assert (Hpre : read_lines initial
                     [mkLine (Some "g.pmcfg"%string) 1 "f = l1 l2";
                      mkLine (Some "g.pmcfg"%string) 2 "f : S <- A";
                      mkLine (Some "g.pmcfg"%string) 3 "g = l3"]
                   = Ok {| pragmas := [];
                           functions := [("f", [("S", ["A"])])];
                           linearizations := [("f", ["l1"; "l2"]); ("g", ["l3"])];
                           sequences := [("l1", None); ("l2", None); ("l3", None)];
                           scores := [];
                           nonterms := [("S", Some 2); ("A", None)];
                           fun_arities := [("f", 2); ("g", 1)];
                           seq_arities := [];
                           ident := Some "g" |}%string)
      by (vm_compute; reflexivity).
    exact (proj1 (T _ _ (mkLine (Some "g.pmcfg"%string) 4 "g : S <- A")
                    "g"%char " : S <- A"%string "g"%string ":"%string
                    "S <- A"%string
                    Hpre eq_refl eq_refl ltac:(discriminate) eq_refl eq_refl)
             "S"%string ["A"%string] ["l3"%string] 2
             eq_refl eq_refl eq_refl eq_refl ltac:(discriminate) [] true).
  - assert (Hpre : read_lines initial
                     [mkLine (Some "g.pmcfg"%string) 1 "f : S <- A";
                      mkLine (Some "g.pmcfg"%string) 2 "f = l1 l2";
                      mkLine (Some "g.pmcfg"%string) 3 "g : S <- A"]
                   = Ok {| pragmas := [];
                           functions := [("f", [("S", ["A"])]);
                                         ("g", [("S", ["A"])])];
                           linearizations := [("f", ["l1"; "l2"])];
                           sequences := [("l1", None); ("l2", None)];
                           scores := [];
                           nonterms := [("A", None); ("S", Some 2)];
                           fun_arities := [("f", 2)];
                           seq_arities := [];
                           ident := Some "g" |}%string)
      by (vm_compute; reflexivity).
    destruct (proj2 (T _ _ (mkLine (Some "g.pmcfg"%string) 4 "g = l3")
                       "g"%char " = l3"%string "g"%string "="%string
                       "l3"%string
                       Hpre eq_refl eq_refl ltac:(discriminate) eq_refl eq_refl)
                ["l3"%string] [("S", ["A"])]%string "S"%string ["A"%string] 2
                eq_refl eq_refl eq_refl eq_refl (or_introl eq_refl) eq_refl
                ltac:(discriminate))
      as [lhs' [rhs' [a' [Fd [G [_ R]]]]]].
    injection Fd as <- <-. injection G as <-.
    exact (R [mkLine (Some "g.pmcfg"%string) 5 "l3 -> 'a'"] true).
Defined.

(* ================================================================= *)
(** * Further properties of the code *)

(** ** The small parsers *)

(** X1: with a limit of [nrsplits] splits, zero or more,
    [whitespace_split] returns exactly [nrsplits + 1] strings, as its
    documentation says: the pieces [str.split] gives, followed by empty
    strings only. *)
Theorem whitespace_split_count (s : string) (nrsplits : Z) :
  0 <= nrsplits ->
  length (whitespace_split s nrsplits) = Z.to_nat (nrsplits + 1) /\
  exists padding,
    whitespace_split s nrsplits
    = Py.split s nrsplits ++ repeat EmptyString padding.
Proof.
  intros H. split; [now apply whitespace_split_length|].
  unfold whitespace_split.
  destruct ((nrsplits >=? 0)
            && (Z.of_nat (length (Py.split s nrsplits)) <=? nrsplits))%bool.
  - eexists. reflexivity.
  - exists 0%nat. simpl. now rewrite app_nil_r.
Qed.

Lemma whitespace_split_count_witness :
  0 <= 2 /\
  length (whitespace_split "f =" 2) = Z.to_nat (2 + 1) /\
  exists padding,
    whitespace_split "f =" 2 = Py.split "f =" 2 ++ repeat EmptyString padding.
Proof.
  assert (H : 0 <= 2) by lia.
  split; [exact H|]. exact (whitespace_split_count "f =" 2 H).
Defined.

(** X2: an identifier holds no white-space character at all, its first
    character included, although only the characters after the first are
    tested for white space: stripping leaves it as it is and splitting it
    on white space gives the identifier alone. *)
Theorem is_identifier_no_whitespace (s : string) :
  is_identifier s = true ->
  no_space s = true /\ Py.strip s = s /\ whitespace_split s (-1) = [s].
Proof.
  intros H. pose proof (is_identifier_word s H) as W.
  assert (N : no_space s = true) by (destruct s; [discriminate|exact W]).
  split; [exact N|]. split; [now apply strip_no_space|].
  rewrite whitespace_split_all. now apply split_go_single.
Qed.

Lemma is_identifier_no_whitespace_witness :
  is_identifier "S_1" = true /\
  no_space "S_1" = true /\ Py.strip "S_1" = "S_1"%string /\
  whitespace_split "S_1" (-1) = ["S_1"%string].
Proof.
  split; [reflexivity|]. exact (is_identifier_no_whitespace "S_1" eq_refl).
Defined.

(** ** The tokenizer *)

(** X3: in the tokens [read_sequence] returns, the two numbers of every
    pair are natural numbers. *)
Theorem read_sequence_refs_natural (seqstr : string) (tokens : list token) :
  read_sequence seqstr = Ok tokens ->
  forall arg ref, In (ArgRef arg ref) tokens -> 0 <= arg /\ 0 <= ref.
Proof.
  intros R. apply natural_refs_forall.
  eapply read_sequence_natural; eauto.
Qed.

Lemma read_sequence_refs_natural_witness :
  read_sequence "'a' 3:14" = Ok [Terminal "a"; ArgRef 3 14] /\
  (0 <= 3 /\ 0 <= 14).
Proof.
  assert (R : read_sequence "'a' 3:14" = Ok [Terminal "a"; ArgRef 3 14])
    by reflexivity.
  split; [exact R|].
  exact (read_sequence_refs_natural "'a' 3:14" [Terminal "a"; ArgRef 3 14] R
           3 14 (or_intror (or_introl eq_refl))).
Defined.

(** X4: the tokens of a sequence, written by [str_token] and joined by
    single spaces as [write_grammar] does, are read back by
    [read_sequence] as the same tokens, whatever the terminal strings
    hold, provided the numbers of the pairs are natural numbers. *)
Theorem str_token_read_back (tokens : list token) :
  (forall arg ref, In (ArgRef arg ref) tokens -> 0 <= arg /\ 0 <= ref) ->
  read_sequence (Py.join " " (map str_token tokens)) = Ok tokens.
Proof.
  intros H. apply natural_refs_forall in H.
  destruct tokens as [|tok tokens]; [reflexivity|].
  unfold read_sequence.
  rewrite <- (append_nil_r (Py.join " " (map str_token (tok :: tokens)))).
  now rewrite (read_sequence_loop_tokens tokens EmptyString eq_refl tok H)
    by lia.
Qed.

Lemma str_token_read_back_witness :
  read_sequence
    (Py.join " " (map str_token [Terminal "it's"; ArgRef 0 12; Terminal "a b"]))
  = Ok [Terminal "it's"; ArgRef 0 12; Terminal "a b"].
Proof.
  apply (str_token_read_back [Terminal "it's"; ArgRef 0 12; Terminal "a b"]).
  intros arg ref [H|[H|[H|[]]]]; try discriminate H.
  injection H as <- <-. split; lia.
Defined.

(** X5: after [collect_max_arities] the entry of an argument is at least
    the entry it had and at least every reference to that argument in the
    list, and it is one of these numbers (or the default -1 when the
    argument had no entry and no reference reaches it). *)
Theorem collect_max_arities_bounds (arities : Dict.t Z Z)
  (argrefs : list token) (arg : Z) :
  (forall m0, Dict.get arities arg = Some m0 ->
     exists m,
       Dict.get (collect_max_arities arities argrefs) arg = Some m /\ m0 <= m)
  /\
  (forall ref, In (ArgRef arg ref) argrefs ->
     exists m,
       Dict.get (collect_max_arities arities argrefs) arg = Some m /\ ref <= m)
  /\
  (forall m, Dict.get (collect_max_arities arities argrefs) arg = Some m ->
     Dict.get arities arg = Some m \/ In (ArgRef arg m) argrefs
     \/ (m = -1 /\ Dict.get arities arg = None /\
         exists ref, In (ArgRef arg ref) argrefs)).
Proof.
  split; [|split].
  - intros m0 G. now apply collect_max_arities_grows.
  - intros ref I. now apply collect_max_arities_above.
  - intros m G. now apply collect_max_arities_attained.
Qed.

Lemma collect_max_arities_bounds_witness :
  exists m,
    Dict.get (collect_max_arities []
                [ArgRef 0 2; Terminal "a"; ArgRef 0 5; ArgRef 1 0]) 0
    = Some m /\ 5 <= m.
Proof.
  exact (proj1 (proj2 (collect_max_arities_bounds []
                         [ArgRef 0 2; Terminal "a"; ArgRef 0 5; ArgRef 1 0] 0))
           5 (or_intror (or_intror (or_introl eq_refl)))).
Defined.

(** ** What the writer prints, the reader reads

    In the five statements below [t] is the white space that follows the
    printed line where the reader finds it: nothing, or the newline
    [print] adds, or any other white space. *)

(** X6: the line [write_grammar] prints for a rule of a function is read
    by the loop as a rule declaration of that function, and [read_rule]
    gets the same left-hand side and right-hand side back from it, when
    the names are identifiers. *)
Theorem written_rule_reads_back (st : state) (fid lhs : string)
  (rhs : list string) (t : string) :
  is_identifier fid = true -> is_identifier lhs = true ->
  Forall (fun nt => is_identifier nt = true) rhs ->
  Py.all_space t = true ->
  exists line rest,
    write_rules (fid, [(lhs, rhs)]) = ([line], Ok tt) /\
    process_line st (line +++ t) = rule_declaration st fid rest /\
    read_rule rest = Ok (lhs, rhs).
Proof.
  intros F L R T.
  set (body := lhs +++ " " +++ RULEARROW +++ " " +++ Py.join " " rhs).
  exists (fid +++ " " +++ RULE +++ " " +++ body), (Py.lstrip (body +++ t)).
  split; [reflexivity|]. split.
  - rewrite !append_assoc.
    now rewrite process_declaration by (auto; reflexivity).
  - unfold read_rule. rewrite whitespace_split_all, split_go_lstrip.
    unfold body. rewrite !append_assoc.
    rewrite split_go_cons by (auto using is_identifier_word; discriminate).
    cbn [Py.dec].
    rewrite split_go_cons by (auto; discriminate). cbn [Py.dec].
    rewrite split_join_trailing by (auto using identifiers_words).
    change (String.eqb RULEARROW RULEARROW) with true. cbv iota.
    assert (N : first_non_identifier (lhs :: rhs) = None).
    { apply first_non_identifier_none. now constructor. }
    now rewrite N.
Qed.

Lemma written_rule_reads_back_witness :
  exists line rest,
    write_rules ("f", [("S", ["A"; "B"])])%string = ([line], Ok tt) /\
    process_line initial (line +++ Py.str1 Py.LF)
    = rule_declaration initial "f" rest /\
    read_rule rest = Ok ("S", ["A"; "B"])%string.
Proof.
  apply (written_rule_reads_back initial "f" "S" ["A"; "B"]%string
           (Py.str1 Py.LF)); [reflexivity|reflexivity| |reflexivity].
  repeat constructor.
Defined.

(** X7: the line [write_grammar] prints for a linearization is read by
    the loop as a linearization declaration of that function, and
    [read_linearization] gets the same sequence identifiers back from it,
    when the names are identifiers. *)
Theorem written_linearization_reads_back (st : state) (fid : string)
  (lin : list string) (t : string) :
  is_identifier fid = true ->
  Forall (fun seq => is_identifier seq = true) lin ->
  Py.all_space t = true ->
  exists line rest,
    write_linearization (fid, lin) = ([line], Ok tt) /\
    process_line st (line +++ t) = linearization_declaration st fid rest /\
    read_linearization rest = Ok lin.
Proof.
  intros F L T.
  exists (fid +++ " " +++ LINEARIZATION +++ " " +++ Py.join " " lin),
    (Py.lstrip (Py.join " " lin +++ t)).
  split; [reflexivity|]. split.
  - rewrite !append_assoc.
    now rewrite process_declaration by (auto; reflexivity).
  - unfold read_linearization.
    rewrite whitespace_split_all, split_go_lstrip.
    rewrite split_join_trailing by (auto using identifiers_words).
    apply first_non_identifier_none in L. now rewrite L.
Qed.

Lemma written_linearization_reads_back_witness :
  exists line rest,
    write_linearization ("f", ["s1"; "s2"])%string = ([line], Ok tt) /\
    process_line initial (line +++ Py.str1 Py.LF)
    = linearization_declaration initial "f" rest /\
    read_linearization rest = Ok ["s1"; "s2"]%string.
Proof.
  apply (written_linearization_reads_back initial "f" ["s1"; "s2"]%string
           (Py.str1 Py.LF)); [reflexivity| |reflexivity].
  repeat constructor.
Defined.

(** X8: the line [write_grammar] prints for a sequence with a body is
    read by the loop as a sequence declaration of that identifier, and
    [read_sequence] gets the same tokens back from it, when the
    identifier is one and the numbers of the pairs are natural numbers. *)
Theorem written_sequence_reads_back (st : state) (sid : string)
  (tokens : list token) (t : string) :
  is_identifier sid = true ->
  (forall arg ref, In (ArgRef arg ref) tokens -> 0 <= arg /\ 0 <= ref) ->
  Py.all_space t = true ->
  exists line rest,
    write_sequence (sid, Some tokens) = ([line], Ok tt) /\
    process_line st (line +++ t) = sequence_declaration st sid rest /\
    read_sequence rest = Ok tokens.
Proof.
  intros S N T.
  exists (sid +++ " " +++ SEQUENCE +++ " "
          +++ Py.join " " (map str_token tokens)),
    (Py.lstrip (Py.join " " (map str_token tokens) +++ t)).
  split; [reflexivity|]. split.
  - rewrite !append_assoc.
    now rewrite process_declaration by (auto; reflexivity).
  - apply natural_refs_forall in N. now apply read_sequence_written.
Qed.

Lemma written_sequence_reads_back_witness :
  exists line rest,
    write_sequence ("s1"%string, Some [Terminal "a b"; ArgRef 0 1])
    = ([line], Ok tt) /\
    process_line initial (line +++ Py.str1 Py.LF)
    = sequence_declaration initial "s1" rest /\
    read_sequence rest = Ok [Terminal "a b"; ArgRef 0 1].
Proof.
  apply (written_sequence_reads_back initial "s1"
           [Terminal "a b"; ArgRef 0 1] (Py.str1 Py.LF));
    [reflexivity| |reflexivity].
  intros arg ref [H|[H|[]]]; [discriminate H|].
  injection H as <- <-. split; lia.
Defined.

(** X9: the line [write_grammar] prints for an integer score, negative
    ones included, is read by the loop as that score of that function,
    when the name is an identifier that has no score yet. *)
Theorem written_score_reads_back (st : state) (fid : string) (n : Z)
  (t : string) :
  is_identifier fid = true -> Dict.mem fid (scores st) = false ->
  Py.all_space t = true ->
  exists line,
    write_score (fid, IntScore n) = ([line], Ok tt) /\
    process_line st (line +++ t) = Ok (add_score st fid (IntScore n)).
Proof.
  intros F M T. exists (fid +++ " " +++ Py.str_int n).
  split; [reflexivity|].
  destruct (str_int_keyword n) as [W [R [L S]]].
  rewrite !append_assoc. rewrite process_score by assumption.
  unfold score_declaration, parse_score.
  rewrite int_str_int. cbn [bind]. now rewrite M.
Qed.

Lemma written_score_reads_back_witness :
  exists line,
    write_score ("f"%string, IntScore (-3)) = ([line], Ok tt) /\
    process_line initial (line +++ Py.str1 Py.LF)
    = Ok (add_score initial "f" (IntScore (-3))).
Proof.
  exact (written_score_reads_back initial "f" (-3) (Py.str1 Py.LF)
           eq_refl eq_refl eq_refl).
Defined.

(** X10: the line [write_grammar] prints for a pragma is read by the
    loop as that pragma under the same key, when the key is the no-name
    key or a name that is not empty and holds no white space, and the
    payload has no white space at either end. *)
Theorem written_pragma_reads_back (st : state) (pid : option string)
  (prg t : string) :
  match pid with
  | None => True
  | Some name => is_word name = true
  end ->
  Py.strip prg = prg -> Py.all_space t = true ->
  exists line,
    write_pragmas (pid, [prg]) = ([line], Ok tt) /\
    process_line st (line +++ t) = Ok (add_pragma st pid prg).
Proof.
  intros W S T.
  set (tail := match pid with
               | None => EmptyString
               | Some name => name
               end +++ " " +++ prg).
  exists (String ":" tail). split; [reflexivity|].
  change (process_line st (String ":" tail +++ t))
    with (pragma_line st (tail +++ t)).
  unfold pragma_line, tail. rewrite !append_assoc.
  destruct pid as [name|].
  - assert (N : no_space name = true) by (destruct name; [discriminate|exact W]).
    assert (E : Py.str_isspace
                  (String.substring 0 1 (name +++ " " +++ prg +++ t))
                = false).
    { destruct name as [|c name]; [discriminate|].
      rewrite no_space_cons in N. apply andb_true_iff in N.
      destruct N as [N _]. cbn [String.append String.substring].
      destruct (name +++ " " +++ prg +++ t); simpl;
        now destruct (Py.isspace c). }
    rewrite E, (whitespace_split_once _ E). cbn [unpack2 bind].
    rewrite word_app, after_word_app by assumption.
    change (Py.word (" " +++ prg +++ t)) with EmptyString.
    change (Py.after_word (" " +++ prg +++ t)) with (String " " (prg +++ t)).
    change (Py.lstrip (String " " (prg +++ t))) with (Py.lstrip (prg +++ t)).
    rewrite append_nil_r. unfold Py.strip at 1. rewrite lstrip_idem.
    fold (Py.strip (prg +++ t)).
    now rewrite strip_trailing, S.
  - change (EmptyString +++ " " +++ prg +++ t) with (String " " (prg +++ t)).
    assert (E : Py.str_isspace
                  (String.substring 0 1 (String " " (prg +++ t))) = true).
    { simpl. now destruct (prg +++ t). }
    rewrite E. cbn [bind].
    change (Py.strip (String " " (prg +++ t))) with (Py.strip (prg +++ t)).
    now rewrite strip_trailing, S.
Qed.

Lemma written_pragma_reads_back_witness :
  exists line,
    write_pragmas (Some "start"%string, ["S"%string]) = ([line], Ok tt) /\
    process_line initial (line +++ Py.str1 Py.LF)
    = Ok (add_pragma initial (Some "start"%string) "S").
Proof.
  exact (written_pragma_reads_back initial (Some "start"%string) "S"
           (Py.str1 Py.LF) eq_refl eq_refl eq_refl).
Defined.

(** ** The loop *)

(** X11: blank lines and comment lines, those whose first character
    after the leading white space is one of the comment characters, do
    not count: a read gives the same result, model, warnings or error,
    with them as without them. *)
Theorem comments_and_blanks_skipped (lines : list input_line)
  (validate : bool) :
  read_grammar lines validate
  = read_grammar (filter (fun l => negb (skipped (text l))) lines) validate.
Proof.
  unfold read_grammar.
  rewrite <- (read_lines_skipped lines initial).
  reflexivity.
Qed.

(** X12: what a later line adds never takes back what an earlier line
    declared: after more lines every linearization, sequence body, score
    and arity is as it was, and the rules of a function and the payloads
    of a pragma are the earlier ones with possibly more behind them. *)
Theorem declarations_persist (pre post : list input_line) (st st' : state) :
  read_lines initial pre = Ok st ->
  read_lines initial (pre ++ post) = Ok st' ->
  extends st st'.
Proof.
  intros P R. rewrite read_lines_app, P in R. cbn [bind] in R.
  eapply read_lines_extends; eauto.
Qed.

Lemma declarations_persist_witness :
  extends
    {| pragmas := [];
       functions := [("f", [("S", ["A"])])];
       linearizations := []; sequences := []; scores := [];
       nonterms := [("A", None)];
       fun_arities := []; seq_arities := [];
       ident := Some "f" |}%string
    {| pragmas := [];
       functions := [("f", [("S", ["A"])])];
       linearizations := [("f", ["l1"; "l2"])];
       sequences := [("l1", None); ("l2", None)];
       scores := [];
       nonterms := [("A", None); ("S", Some 2)];
       fun_arities := [("f", 2)];
       seq_arities := [];
       ident := Some "f" |}%string.
Proof.
  exact (declarations_persist (plain ["f : S <- A"%string])
           (plain ["f = l1 l2"%string]) _ _ eq_refl eq_refl).
Defined.

(** X13: validation never changes the model.  A read that succeeds with
    validation succeeds without it, with the same model and no warning;
    a read that succeeds without validation gives, with it, the same
    model or a [KeyError] or an [IndexError]; and a read without
    validation issues no warning at all. *)
Theorem validation_keeps_model (lines : list input_line) :
  (forall warnings g,
     read_grammar lines true = (warnings, Ok g) ->
     read_grammar lines false = ([], Ok g))
  /\
  (forall g,
     read_grammar lines false = ([], Ok g) ->
     exists warnings r,
       read_grammar lines true = (warnings, r) /\
       (r = Ok g
        \/ exists e, r = Raise e /\ (kind e = KeyError \/ kind e = IndexError)))
  /\
  (forall warnings r, read_grammar lines false = (warnings, r) ->
                      warnings = []).
Proof.
  split; [|split].
  - intros warnings g H. destruct (read_grammar_ok _ _ _ _ H) as [st [L ->]].
    unfold read_grammar. now rewrite L.
  - intros g H. destruct (read_grammar_ok _ _ _ _ H) as [st [L ->]].
    destruct (reached _ _ L) as [_ [C _]].
    rewrite (read_grammar_validated _ _ L).
    destruct (sweep_sound st C) as [_ Q].
    eexists _, _. split; [reflexivity|].
    destruct (snd (sweep st)) as [[]|e]; [now left|right].
    exists e. split; [reflexivity|]. now apply Q.
  - intros warnings r. unfold read_grammar.
    destruct (read_lines initial lines) as [st|e]; now intros [= <- _].
Qed.

Lemma validation_keeps_model_witness :
  read_grammar (plain ["f : S <- A"; "f = l1"; "l1 -> 'a' 0:0"]%string) false
  = ([], Ok [ ("pragmas", Pragmas []);
              ("functions", Functions [("f", [("S", ["A"])])]);
              ("linearizations", Linearizations [("f", ["l1"])]);
              ("sequences", Sequences [("l1", Some [Terminal "a"; ArgRef 0 0])]);
              ("scores", Scores []);
              ("nonterms", Nonterms [("A", None); ("S", Some 1)]) ]%string).
Proof.
  assert (H : read_grammar
                (plain ["f : S <- A"; "f = l1"; "l1 -> 'a' 0:0"]%string) true
              = ([UndefinedNonterminals ["A"%string]; MissingDefinition "A"],
                 Ok [ ("pragmas", Pragmas []);
                      ("functions", Functions [("f", [("S", ["A"])])]);
                      ("linearizations", Linearizations [("f", ["l1"])]);
                      ("sequences",
                       Sequences [("l1", Some [Terminal "a"; ArgRef 0 0])]);
                      ("scores", Scores []);
                      ("nonterms", Nonterms [("A", None); ("S", Some 1)])
                    ]%string))
    by (vm_compute; reflexivity).
  exact (proj1 (validation_keeps_model _) _ _ H).
Defined.

(** ** Arities *)

(** X14: in the model of a successful read, the left-hand side of every
    rule of a function that has a linearization has an arity, and it is
    the number of sequences of that linearization. *)
Theorem rule_arities_agree (lines : list input_line) (validate : bool)
  (warnings : list warning) (g : grammar) :
  read_grammar lines validate = (warnings, Ok g) ->
  exists st,
    g = grammar_of st /\
    forall fn lin rules lhs rhs,
      Dict.get (linearizations st) fn = Some lin ->
      Dict.get (functions st) fn = Some rules -> In (lhs, rhs) rules ->
      Dict.get (nonterms st) lhs = Some (Some (Z.of_nat (length lin))).
Proof.
  intros H. destruct (read_grammar_ok _ _ _ _ H) as [st [L ->]].
  exists st. split; [reflexivity|].
  destruct (reached _ _ L) as [_ [C _]]. exact (rule_arity st C).
Qed.

Lemma rule_arities_agree_witness :
  exists st,
    [ ("pragmas", Pragmas []);
      ("functions", Functions [("f", [("S", ["A"])])]);
      ("linearizations", Linearizations [("f", ["l1"; "l2"])]);
      ("sequences", Sequences [("l1", None); ("l2", None)]);
      ("scores", Scores []);
      ("nonterms", Nonterms [("A", None); ("S", Some 2)]) ]%string
    = grammar_of st /\
    forall fn lin rules lhs rhs,
      Dict.get (linearizations st) fn = Some lin ->
      Dict.get (functions st) fn = Some rules -> In (lhs, rhs) rules ->
      Dict.get (nonterms st) lhs = Some (Some (Z.of_nat (length lin))).
Proof.
  assert (H : read_grammar (plain ["f : S <- A"; "f = l1 l2"]%string) false
              = ([], Ok [ ("pragmas", Pragmas []);
                          ("functions", Functions [("f", [("S", ["A"])])]);
                          ("linearizations",
                           Linearizations [("f", ["l1"; "l2"])]);
                          ("sequences", Sequences [("l1", None); ("l2", None)]);
                          ("scores", Scores []);
                          ("nonterms", Nonterms [("A", None); ("S", Some 2)])
                        ]%string))
    by (vm_compute; reflexivity).
  exact (rule_arities_agree _ _ _ _ H).
Defined.

(** ** The sweep *)

(** X15: validation never warns that the arity of a left-hand side does
    not match its function: every such conflict has ended the loop with
    an error before, so the test for it in the sweep never holds. *)
Theorem arity_mismatch_never_reported (lines : list input_line)
  (validate : bool) (log : list warning) (r : result grammar) :
  read_grammar lines validate = (log, r) ->
  Forall no_arity_mismatch log.
Proof.
  unfold read_grammar.
  destruct (read_lines initial lines) as [st|e] eqn:L;
    [|intros [= <- _]; constructor].
  cbn [lift and_then app]. destruct validate.
  - destruct (reached _ _ L) as [_ [C _]].
    destruct (sweep_sound st C) as [F _].
    destruct (sweep st) as [w [[]|e]]; cbn [and_then ret fst] in *.
    + intros [= <- _]. now rewrite app_nil_r.
    + now intros [= <- _].
  - intros [= <- _]. constructor.
Qed.

Lemma arity_mismatch_never_reported_witness :
  Forall no_arity_mismatch
    [UndefinedNonterminals ["A"%string]; MissingDefinition "A"].
Proof.
  assert (H : read_grammar
                (plain ["f : S <- A"; "f = l1"; "l1 -> 'a' 0:0"]%string) true
              = ([UndefinedNonterminals ["A"%string]; MissingDefinition "A"],
                 Ok [ ("pragmas", Pragmas []);
                      ("functions", Functions [("f", [("S", ["A"])])]);
                      ("linearizations", Linearizations [("f", ["l1"])]);
                      ("sequences",
                       Sequences [("l1", Some [Terminal "a"; ArgRef 0 0])]);
                      ("scores", Scores []);
                      ("nonterms", Nonterms [("A", None); ("S", Some 1)])
                    ]%string))
    by (vm_compute; reflexivity).
  exact (arity_mismatch_never_reported _ _ _ _ H).
Defined.

(** X16: when the loop has succeeded and validation raises, it is for
    one of two reasons.  Either a linearization of a function that has
    rules names a sequence with no body: the exception is the [KeyError]
    of that sequence, and the warning about undefined sequences was
    issued before.  Or an argument index is not below the number of
    right-hand-side nonterminals of a rule: the exception is an
    [IndexError], and the last warning issued is the one about that
    argument. *)
Theorem validation_failure_causes (lines : list input_line) (st : state)
  (log : list warning) (e : exn) :
  read_lines initial lines = Ok st ->
  read_grammar lines true = (log, Raise e) ->
  (exists fn lin seq,
     Dict.mem fn (functions st) = true /\
     Dict.get (linearizations st) fn = Some lin /\ In seq lin /\
     Dict.get (sequences st) seq = Some None /\
     In (UndefinedSequences (undefined (sequences st))) log /\
     e = mkExn KeyError (Py.repr seq))
  \/
  (exists log' fn arg bound,
     log = log' ++ [ArgumentOutOfRange fn arg bound] /\ bound <= arg /\
     e = mkExn IndexError "list index out of range").
Proof.
  intros L H. rewrite (read_grammar_validated _ _ L) in H.
  destruct (sweep st) as [w [[]|e']] eqn:S; cbn [fst snd] in H;
    [discriminate|].
  injection H as <- <-. exact (sweep_failure _ _ _ _ L S).
Qed.

Lemma validation_failure_causes_witness :
  (exists fn lin seq,
     Dict.mem fn [("f", [("S", ["A"])])]%string = true /\
     Dict.get [("f", ["l1"])]%string fn = Some lin /\ In seq lin /\
     Dict.get [("l1"%string, @None (list token))] seq = Some None /\
     In (UndefinedSequences
           (undefined [("l1"%string, @None (list token))]))
        [UndefinedNonterminals ["A"%string];
         UndefinedSequences ["l1"%string]] /\
     mkExn KeyError "'l1'" = mkExn KeyError (Py.repr seq))
  \/
  (exists log' fn arg bound,
     [UndefinedNonterminals ["A"%string]; UndefinedSequences ["l1"%string]]
     = log' ++ [ArgumentOutOfRange fn arg bound] /\ bound <= arg /\
     mkExn KeyError "'l1'" = mkExn IndexError "list index out of range").
Proof.
  exact (validation_failure_causes (plain ["f : S <- A"; "f = l1"]%string)
           {| pragmas := [];
              functions := [("f", [("S", ["A"])])];
              linearizations := [("f", ["l1"])];
              sequences := [("l1", None)];
              scores := [];
              nonterms := [("A", None); ("S", Some 1)];
              fun_arities := [("f", 1)];
              seq_arities := [];
              ident := Some "f" |}%string
           [UndefinedNonterminals ["A"%string];
            UndefinedSequences ["l1"%string]]
           (mkExn KeyError "'l1'") eq_refl eq_refl).
Defined.

(** X17: when the loop has succeeded and validation has warned neither
    about undefined sequences nor about an argument out of range, it
    raises nothing and [read_grammar] returns the model. *)
Theorem validation_completes (lines : list input_line) (st : state)
  (log : list warning) (r : result grammar) :
  read_lines initial lines = Ok st ->
  read_grammar lines true = (log, r) ->
  (forall seqs, ~ In (UndefinedSequences seqs) log) ->
  (forall fn arg bound, ~ In (ArgumentOutOfRange fn arg bound) log) ->
  r = Ok (grammar_of st).
Proof.
  intros L H U O. rewrite (read_grammar_validated _ _ L) in H.
  destruct (sweep st) as [w [[]|e]] eqn:S; cbn [fst snd] in H;
    injection H as <- <-; [reflexivity|].
  exfalso.
  destruct (sweep_failure _ _ _ _ L S)
    as [[fn [lin [seq [_ [_ [_ [_ [I _]]]]]]]]
       |[log' [fn [arg [bound [-> _]]]]]].
  - now apply U in I.
  - apply (O fn arg bound). apply in_or_app. right. now left.
Qed.

Lemma validation_completes_witness :
  Ok [ ("pragmas", Pragmas []);
       ("functions", Functions [("f", [("S", ["S"])])]);
       ("linearizations", Linearizations [("f", ["l1"])]);
       ("sequences", Sequences [("l1", Some [Terminal "a"; ArgRef 0 0])]);
       ("scores", Scores []);
       ("nonterms", Nonterms [("S", Some 1)]) ]%string
  = Ok (grammar_of
          {| pragmas := [];
             functions := [("f", [("S", ["S"])])];
             linearizations := [("f", ["l1"])];
             sequences := [("l1", Some [Terminal "a"; ArgRef 0 0])];
             scores := [];
             nonterms := [("S", Some 1)];
             fun_arities := [("f", 1)];
             seq_arities := [("l1", [(0, 0)])];
             ident := Some "l1" |}%string).
Proof.
  assert (L : read_lines initial
                (plain ["f : S <- S"; "f = l1"; "l1 -> 'a' 0:0"]%string)
              = Ok {| pragmas := [];
                      functions := [("f", [("S", ["S"])])];
                      linearizations := [("f", ["l1"])];
                      sequences := [("l1", Some [Terminal "a"; ArgRef 0 0])];
                      scores := [];
                      nonterms := [("S", Some 1)];
                      fun_arities := [("f", 1)];
                      seq_arities := [("l1", [(0, 0)])];
                      ident := Some "l1" |}%string)
    by (vm_compute; reflexivity).
  assert (H : read_grammar
                (plain ["f : S <- S"; "f = l1"; "l1 -> 'a' 0:0"]%string) true
              = ([], Ok [ ("pragmas", Pragmas []);
                          ("functions", Functions [("f", [("S", ["S"])])]);
                          ("linearizations", Linearizations [("f", ["l1"])]);
                          ("sequences",
                           Sequences [("l1", Some [Terminal "a"; ArgRef 0 0])]);
                          ("scores", Scores []);
                          ("nonterms", Nonterms [("S", Some 1)]) ]%string))
    by (vm_compute; reflexivity).
  exact (validation_completes _ _ _ _ L H
           (fun seqs (I : In (UndefinedSequences seqs) []) => I)
           (fun fn arg bound (I : In (ArgumentOutOfRange fn arg bound) []) => I)).
Defined.

(** X23: every warning of [read_grammar] says what is the case in the
    model.  The two lists of undefined names are the nonterminals and the
    sequences whose value is [None], and are not empty; a function
    reported without linearization has rules and no linearization; an
    argument reported out of range is referred to by a sequence of the
    linearization of the function and is not below the number of
    right-hand-side nonterminals of a rule of it; a nonterminal reported
    without definition is the right-hand-side nonterminal such a
    reference points at, and has no arity; and a reference reported not
    to match is a pair that a sequence of the linearization holds, whose
    second number is not below the arity of the nonterminal its first
    number points at. *)
Theorem warnings_justified (lines : list input_line) (validate : bool)
  (log : list warning) (r : result grammar) (w : warning) :
  read_grammar lines validate = (log, r) -> In w log ->
  exists st, read_lines initial lines = Ok st /\ justified st w.
Proof.
  intros H I. destruct (read_grammar_log _ _ _ _ _ H I) as [st [L [_ Is]]].
  exists st. split; [exact L|].
  destruct (reached _ _ L) as [G [C _]].
  eapply sweep_justified; eauto.
Qed.

Lemma warnings_justified_witness :
  exists st,
    read_lines initial
      (plain ["f : S <- A"; "f = l1"; "l1 -> 'a' 0:0"]%string) = Ok st /\
    justified st (MissingDefinition "A").
Proof.
  assert (H : read_grammar
                (plain ["f : S <- A"; "f = l1"; "l1 -> 'a' 0:0"]%string) true
              = ([UndefinedNonterminals ["A"%string]; MissingDefinition "A"],
                 Ok [ ("pragmas", Pragmas []);
                      ("functions", Functions [("f", [("S", ["A"])])]);
                      ("linearizations", Linearizations [("f", ["l1"])]);
                      ("sequences",
                       Sequences [("l1", Some [Terminal "a"; ArgRef 0 0])]);
                      ("scores", Scores []);
                      ("nonterms", Nonterms [("A", None); ("S", Some 1)])
                    ]%string))
    by (vm_compute; reflexivity).
  exact (warnings_justified _ _ _ _ (MissingDefinition "A") H
           (or_intror (or_introl eq_refl))).
Defined.

(** X24: with validation on and the loop succeeded, the nonterminals
    without arity are reported whenever there are any, and so are the
    sequences without body, even when validation raises afterwards; and
    when validation returns, every function that has rules and no
    linearization has been reported. *)
Theorem undefined_and_missing_reported (lines : list input_line)
  (st : state) (log : list warning) (r : result grammar) :
  read_lines initial lines = Ok st ->
  read_grammar lines true = (log, r) ->
  (undefined (nonterms st) <> [] ->
   In (UndefinedNonterminals (undefined (nonterms st))) log)
  /\
  (undefined (sequences st) <> [] ->
   In (UndefinedSequences (undefined (sequences st))) log)
  /\
  (forall fn g,
     r = Ok g -> Dict.mem fn (functions st) = true ->
     Dict.get (linearizations st) fn = None ->
     In (MissingLinearization fn) log).
Proof.
  intros L H. rewrite (read_grammar_validated _ _ L) in H.
  injection H as <- <-. split; [|split].
  - intros U. unfold sweep. apply and_then_first.
    destruct (undefined (nonterms st)); [contradiction|now left].
  - intros U. unfold sweep.
    apply (and_then_second _ _ tt);
      [now destruct (undefined (nonterms st))|].
    apply and_then_first.
    destruct (undefined (sequences st)); [contradiction|now left].
  - intros fn g R M N.
    assert (S : snd (sweep st) = Ok tt).
    { revert R. destruct (snd (sweep st)) as [[]|e];
        [reflexivity|discriminate]. }
    unfold sweep in S |- *.
    apply and_then_returns in S. destruct S as [[] [S1 S]].
    apply and_then_returns in S. destruct S as [[] [S2 S]].
    apply (and_then_second _ _ tt); [exact S1|].
    apply (and_then_second _ _ tt); [exact S2|].
    apply mem_true_get in M. destruct M as [rules M]. apply get_in in M.
    apply (for_each_all _ _ S (fn, rules)); [exact M|].
    unfold check_function. rewrite N. now left.
Qed.

Lemma undefined_and_missing_reported_witness :
  In (UndefinedNonterminals
        (undefined [("A"%string, @None Z); ("S"%string, Some 1)]))
     [UndefinedNonterminals ["A"%string]; UndefinedSequences ["l1"%string]].
Proof.
  assert (N : undefined [("A"%string, @None Z); ("S"%string, Some 1)] <> [])
    by discriminate.
  exact (proj1 (undefined_and_missing_reported
                  (plain ["f : S <- A"; "f = l1"]%string)
                  {| pragmas := [];
                     functions := [("f", [("S", ["A"])])];
                     linearizations := [("f", ["l1"])];
                     sequences := [("l1", None)];
                     scores := [];
                     nonterms := [("A", None); ("S", Some 1)];
                     fun_arities := [("f", 1)];
                     seq_arities := [];
                     ident := Some "f" |}%string
                  [UndefinedNonterminals ["A"%string];
                   UndefinedSequences ["l1"%string]]
                  (Raise (mkExn KeyError "'l1'")) eq_refl eq_refl) N).
Defined.

(** X25: when validation returns, it has reported every reference that
    does not fit.  For a reference to an argument in a sequence of the
    linearization of a function, and a rule of that function: if the
    right-hand-side nonterminal the argument points at has no arity, the
    missing definition of that nonterminal has been reported; if it has
    an arity that the reference reaches or exceeds, a reference mismatch
    has been reported for that argument, function, nonterminal and arity,
    with the largest reference to the argument. *)
Theorem reference_problems_reported (lines : list input_line) (st : state)
  (log : list warning) (g : grammar) (fn : string) (lin : list string)
  (lhs : string) (rhs : list string) (arg ref : Z) (nt : string) :
  read_lines initial lines = Ok st ->
  read_grammar lines true = (log, Ok g) ->
  linearized_rule st fn lin (lhs, rhs) -> referenced st lin arg ref ->
  getitem rhs arg = Ok nt ->
  (Dict.get (nonterms st) nt = Some None -> In (MissingDefinition nt) log)
  /\
  (forall a, Dict.get (nonterms st) nt = Some (Some a) -> a <= ref ->
     exists maxref,
       ref <= maxref /\ In (ReferenceMismatch arg maxref fn nt a) log).
Proof.
  intros L H [rules [F [Ir Gl]]] Rf Gi.
  rewrite (read_grammar_validated _ _ L) in H. injection H as <- H.
  assert (S : snd (sweep st) = Ok tt).
  { revert H. destruct (snd (sweep st)) as [[]|e];
      [reflexivity|discriminate]. }
  clear H. destruct (reached _ _ L) as [_ [C _]].
  assert (W : forall w, In w (fst (check_function st (fn, rules))) ->
                        In w (fst (sweep st))).
  { intros w Iw. unfold sweep in S |- *.
    apply and_then_returns in S. destruct S as [[] [S1 S]].
    apply and_then_returns in S. destruct S as [[] [S2 S]].
    apply (and_then_second _ _ tt); [exact S1|].
    apply (and_then_second _ _ tt); [exact S2|].
    apply (for_each_all _ _ S (fn, rules)); [now apply get_in|exact Iw]. }
  assert (Rc : snd (check_function st (fn, rules)) = Ok tt).
  { unfold sweep in S.
    apply and_then_returns in S. destruct S as [[] [_ S]].
    apply and_then_returns in S. destruct S as [[] [_ S]].
    apply (for_each_returns _ _ S (fn, rules)). now apply get_in. }
  destruct (check_function_returns _ _ _ _ C F Gl Rc) as [merged [M K]].
  destruct (referenced_merged _ _ _ _ _ C M Rf) as [m [Im Lm]].
  assert (E : forall w,
             In w (fst (check_reference st fn rhs (arg, m))) ->
             In w (fst (sweep st))).
  { intros w Iw. apply W. eapply K; eauto. }
  assert (Q : forall w,
             In w (match get_value (nonterms st) nt with
                   | Some rhs_arity =>
                       if rhs_arity <=? m
                       then [ReferenceMismatch arg m fn nt rhs_arity]
                       else []
                   | None => [MissingDefinition nt]
                   end) ->
             In w (fst (check_reference st fn rhs (arg, m)))).
  { intros w Iw. unfold check_reference.
    apply (and_then_second _ _ tt);
      [now destruct (arg >=? Z.of_nat (length rhs))|].
    apply (and_then_second _ _ nt); [exact Gi|].
    destruct (get_value (nonterms st) nt) as [a|];
      [destruct (a <=? m)|]; exact Iw. }
  split.
  - intros N. apply E, Q. unfold get_value. rewrite N. now left.
  - intros a N La. exists m. split; [exact Lm|]. apply E, Q.
    unfold get_value. rewrite N.
    destruct (a <=? m) eqn:B; [now left|lia].
Qed.

Lemma reference_problems_reported_witness :
  In (MissingDefinition "A")
     [UndefinedNonterminals ["A"%string]; MissingDefinition "A"].
Proof.
  assert (L : read_lines initial
                (plain ["f : S <- A"; "f = l1"; "l1 -> 'a' 0:0"]%string)
              = Ok {| pragmas := [];
                      functions := [("f", [("S", ["A"])])];
                      linearizations := [("f", ["l1"])];
                      sequences := [("l1", Some [Terminal "a"; ArgRef 0 0])];
                      scores := [];
                      nonterms := [("A", None); ("S", Some 1)];
                      fun_arities := [("f", 1)];
                      seq_arities := [("l1", [(0, 0)])];
                      ident := Some "l1" |}%string)
    by (vm_compute; reflexivity).
  assert (H : read_grammar
                (plain ["f : S <- A"; "f = l1"; "l1 -> 'a' 0:0"]%string) true
              = ([UndefinedNonterminals ["A"%string]; MissingDefinition "A"],
                 Ok [ ("pragmas", Pragmas []);
                      ("functions", Functions [("f", [("S", ["A"])])]);
                      ("linearizations", Linearizations [("f", ["l1"])]);
                      ("sequences",
                       Sequences [("l1", Some [Terminal "a"; ArgRef 0 0])]);
                      ("scores", Scores []);
                      ("nonterms", Nonterms [("A", None); ("S", Some 1)])
                    ]%string))
    by (vm_compute; reflexivity).
  refine (proj1 (reference_problems_reported _ _ _ _ "f" ["l1"%string] "S"
                   ["A"%string] 0 0 "A" L H _ _ eq_refl) eq_refl).
  - exists [("S", ["A"])]%string. repeat split. now left.
  - exists "l1"%string, [Terminal "a"; ArgRef 0 0]. repeat split.
    + now left.
    + right. now left.
Defined.

(** ** The writer *)

(** X18: [write_grammar] returns after printing when every sequence it is
    given has a body, and raises a [TypeError] when some sequence has
    none, whatever the other arguments are. *)
Theorem write_grammar_needs_bodies
  (pragmas : Dict.t (option string) (list string))
  (functions : Dict.t string (list rule))
  (linearizations : Dict.t string (list string))
  (sequences : Dict.t string (option (list token)))
  (scores : option (Dict.t string score)) :
  ((forall sid, ~ In (sid, None) sequences) ->
   exists printed,
     write_grammar pragmas functions linearizations sequences scores
     = (printed, Ok tt))
  /\
  (forall sid, In (sid, None) sequences ->
   exists printed,
     write_grammar pragmas functions linearizations sequences scores
     = (printed, Raise (mkExn TypeError "'NoneType' object is not iterable"))).
Proof.
  split.
  - intros H. now apply write_grammar_succeeds.
  - intros sid I. eapply write_grammar_fails; eauto.
Qed.

Lemma write_grammar_needs_bodies_witness :
  exists printed,
    write_grammar [] [("f", [("S", ["A"])])]%string [("f", ["l1"])]%string
      [("l1"%string, None)] None
    = (printed, Raise (mkExn TypeError "'NoneType' object is not iterable")).
Proof.
  exact (proj2 (write_grammar_needs_bodies []
                  [("f", [("S", ["A"])])]%string [("f", ["l1"])]%string
                  [("l1"%string, None)] None)
           "l1"%string (or_introl eq_refl)).
Defined.

(** X19: a grammar in which a linearization names a sequence that no
    line declares is read, but the model [read_grammar] returns cannot be
    written: [write_grammar], called with it as the main program does,
    raises a [TypeError]. *)
Theorem undeclared_sequence_unwritable (lines : list input_line)
  (validate : bool) (warnings : list warning) (g : grammar)
  (l : Dict.t string (list string)) (fn : string) (lin : list string)
  (seq : string) :
  read_grammar lines validate = (warnings, Ok g) ->
  Dict.get g "linearizations"%string = Some (Linearizations l) ->
  Dict.get l fn = Some lin -> In seq lin ->
  (forall line, In line lines -> declared_sequence (text line) <> Some seq) ->
  exists printed,
    write_grammar_of g
    = (printed, Raise (mkExn TypeError "'NoneType' object is not iterable")).
Proof.
  intros H Gl Gf I Hno.
  destruct (read_grammar_ok _ _ _ _ H) as [st [L ->]].
  injection Gl as <-.
  destruct (reached _ _ L) as [R _].
  pose proof (sequences_present _ _ R _ _ _ Gf I) as M.
  apply mem_true_get in M. destruct M as [[tokens|] M].
  - destruct (body_declared _ _ R _ _ M) as [line [I1 I2]].
    now apply Hno in I2.
  - apply get_in in M.
    change (write_grammar_of (grammar_of st))
      with (write_grammar (pragmas st) (functions st) (linearizations st)
              (sequences st) (Some (scores st))).
    eapply write_grammar_fails; eauto.
Qed.

Lemma undeclared_sequence_unwritable_witness :
  exists printed,
    write_grammar_of
      [ ("pragmas", Pragmas []);
        ("functions", Functions []);
        ("linearizations", Linearizations [("f", ["l1"])]);
        ("sequences", Sequences [("l1", None)]);
        ("scores", Scores []);
        ("nonterms", Nonterms []) ]%string
    = (printed, Raise (mkExn TypeError "'NoneType' object is not iterable")).
Proof.
  assert (H : read_grammar (plain ["f = l1"%string]) true
              = ([UndefinedSequences ["l1"%string]],
                 Ok [ ("pragmas", Pragmas []);
                      ("functions", Functions []);
                      ("linearizations", Linearizations [("f", ["l1"])]);
                      ("sequences", Sequences [("l1", None)]);
                      ("scores", Scores []);
                      ("nonterms", Nonterms []) ]%string))
    by (vm_compute; reflexivity).
  assert (N : forall line, In line (plain ["f = l1"%string]) ->
                           declared_sequence (text line) <> Some "l1"%string).
  { intros line [<-|[]]. discriminate. }
  exact (undeclared_sequence_unwritable _ _ _ _ [("f", ["l1"])]%string
           "f" ["l1"%string] "l1" H eq_refl eq_refl (or_introl eq_refl) N).
Defined.

(** ** Names *)

(** X20: every name in the model of a successful read is an identifier:
    the functions, the two sides of every rule, the functions and the
    sequences of every linearization, the sequences, the nonterminals and
    the functions that have a score. *)
Theorem names_are_identifiers (lines : list input_line) (validate : bool)
  (warnings : list warning) (g : grammar) :
  read_grammar lines validate = (warnings, Ok g) ->
  exists st, g = grammar_of st /\ named st.
Proof.
  intros H. destruct (read_grammar_ok _ _ _ _ H) as [st [L ->]].
  exists st. split; [reflexivity|].
  now destruct (reached _ _ L) as [_ [_ N]].
Qed.

Lemma names_are_identifiers_witness :
  exists st,
    [ ("pragmas", Pragmas []);
      ("functions", Functions [("f", [("S", ["A"])])]);
      ("linearizations", Linearizations [("f", ["l1"; "l2"])]);
      ("sequences", Sequences [("l1", None); ("l2", None)]);
      ("scores", Scores []);
      ("nonterms", Nonterms [("A", None); ("S", Some 2)]) ]%string
    = grammar_of st /\ named st.
Proof.
  assert (H : read_grammar (plain ["f : S <- A"; "f = l1 l2"]%string) false
              = ([], Ok [ ("pragmas", Pragmas []);
                          ("functions", Functions [("f", [("S", ["A"])])]);
                          ("linearizations",
                           Linearizations [("f", ["l1"; "l2"])]);
                          ("sequences", Sequences [("l1", None); ("l2", None)]);
                          ("scores", Scores []);
                          ("nonterms", Nonterms [("A", None); ("S", Some 2)])
                        ]%string))
    by (vm_compute; reflexivity).
  exact (names_are_identifiers _ _ _ _ H).
Defined.

(** X21: in the model of a successful read no right-hand-side
    nonterminal of a rule is the name of a function: it has neither
    rules nor a linearization of its own. *)
Theorem rhs_nonterminals_are_not_functions (lines : list input_line)
  (validate : bool) (warnings : list warning) (g : grammar) :
  read_grammar lines validate = (warnings, Ok g) ->
  exists st,
    g = grammar_of st /\
    forall fn rules lhs rhs r,
      Dict.get (functions st) fn = Some rules -> In (lhs, rhs) rules ->
      In r rhs ->
      Dict.mem r (functions st) = false /\
      Dict.mem r (linearizations st) = false.
Proof.
  intros H. destruct (read_grammar_ok _ _ _ _ H) as [st [L ->]].
  exists st. split; [reflexivity|].
  exact (read_lines_apart lines [] initial st registered_initial
           apart_initial L).
Qed.

Lemma rhs_nonterminals_are_not_functions_witness :
  exists st,
    [ ("pragmas", Pragmas []);
      ("functions", Functions [("f", [("S", ["A"])])]);
      ("linearizations", Linearizations [("f", ["l1"; "l2"])]);
      ("sequences", Sequences [("l1", None); ("l2", None)]);
      ("scores", Scores []);
      ("nonterms", Nonterms [("A", None); ("S", Some 2)]) ]%string
    = grammar_of st /\
    forall fn rules lhs rhs r,
      Dict.get (functions st) fn = Some rules -> In (lhs, rhs) rules ->
      In r rhs ->
      Dict.mem r (functions st) = false /\
      Dict.mem r (linearizations st) = false.
Proof.
  assert (H : read_grammar (plain ["f : S <- A"; "f = l1 l2"]%string) false
              = ([], Ok [ ("pragmas", Pragmas []);
                          ("functions", Functions [("f", [("S", ["A"])])]);
                          ("linearizations",
                           Linearizations [("f", ["l1"; "l2"])]);
                          ("sequences", Sequences [("l1", None); ("l2", None)]);
                          ("scores", Scores []);
                          ("nonterms", Nonterms [("A", None); ("S", Some 2)])
                        ]%string))
    by (vm_compute; reflexivity).
  exact (rhs_nonterminals_are_not_functions _ _ _ _ H).
Defined.

(** ** Errors *)

Lemma read_grammar_error_context_witness :
  exists pre l post st err,
    plain ["f = a"; "s -> x"]%string = pre ++ l :: post /\
    read_lines initial pre = Ok st /\
    process_line st (text l) = Raise err /\
    mkExn SyntaxError
      "Not a sequence token: 'x' [happened on input line: 's -> x']"
    = mkExn (kind err) (message err +++ " " +++ context l).
Proof.
  assert (H : read_grammar (plain ["f = a"; "s -> x"]%string) true
              = ([], Raise (mkExn SyntaxError
                              "Not a sequence token: 'x' [happened on input line: 's -> x']")))
    by (vm_compute; reflexivity).
  exact (read_grammar_error_context _ _ _ _ H (or_introl eq_refl)).
Defined.
